(** * browse.c: the match parser, the match store and the zero-matches exit

    A shallow embedding of [parse_next_match], [resize_matchv],
    [init_matchv] and the parsing half of [build_menu] from [browse.c],
    together with the properties of the written specification that concern
    them.

    The rest of the program follows in a second part: the menu items of
    [build_menu] with [basename] and [new_item], [display_footer],
    [seteditor], [open_match], [event_loop] and [main].  The menu library
    and the keyboard are parameters there: a menu is a value of an arbitrary
    type with its [menu_driver] and its [current_item], and [getch] yields
    the elements of a list of key codes.  [spawn_child] stands for the bytes
    the child writes, [init_curses] and [cleanup_curses] are sequences of
    curses calls that appear as events of the trace at most, and the
    allocations of the program are taken to succeed.

    Conventions.
    - The stream [FILE *fp] is the list of bytes still to be read; [fgetc]
      yields the next byte as a non-negative [int], or [EOF] when the list is
      empty.
    - An [int] or a [char] value is a [Z]; [size_t] counters that only count
      down to zero or index an array are [nat].
    - A [char] array of declared size [n] is a [list Z] of length [n].  A
      store through a pointer that has run past the array is not applied to
      the list: it is recorded in the [overrun] log of the parser state.
      What the C program does after such a store is undefined; the model
      carries on as if the byte next to the array belonged to nobody. *)

From Stdlib Require Import ZArith Lia Strings.Byte Strings.String.
From stdpp Require Import base numbers list.

Open Scope Z_scope.

(** ** Constants of the source *)

Definition EOF : Z := -1.
Definition SEPARATOR : Z := 58.       (* ':' *)
Definition NEWLINE : Z := 10.         (* '\n' *)
Definition TAB : Z := 9.              (* '\t' *)
Definition NUL : Z := 0.              (* '\0' *)
Definition TAB_REPL : Z := 32.        (* ' ' *)
Definition TAB_STOP : nat := 4.
Definition NONPRINT_REPL : Z := 46.   (* '.' *)
Definition MATCH_PATH_LEN : nat := 256.
Definition MATCH_DESCRIPTION_LEN : nat := 256.
Definition LINE_NUM_BUF_LEN : nat := 32.
Definition MATCH_CHUNK_LEN : nat := 32.
Definition EXIT_FAILURE : Z := 1.

(** ** C library functions used by the parser

    The program never calls [setlocale], so the character classes are those
    of the "C" locale. *)

Definition isprint (ch : Z) : bool := (32 <=? ch) && (ch <=? 126).
Definition isspace (ch : Z) : bool := (ch =? 32) || ((9 <=? ch) && (ch <=? 13)).
Definition isdigit (ch : Z) : bool := (48 <=? ch) && (ch <=? 57).

(** The value [fgetc] returns for a byte: the byte as an [unsigned char]
    converted to [int]. *)
Definition code (b : byte) : Z := Z.of_N (Byte.to_N b).

(** The bytes of a C string stored in an array: everything before the first
    [NUL]. *)
Fixpoint cstr (buf : list Z) : list Z :=
  match buf with
  | [] => []
  | c :: rest => if c =? NUL then [] else c :: cstr rest
  end.

Fixpoint skip_space (s : list Z) : list Z :=
  match s with
  | [] => []
  | c :: rest => if isspace c then skip_space rest else s
  end.

Fixpoint accumulate (s : list Z) (acc : Z) : Z :=
  match s with
  | [] => acc
  | c :: rest => if isdigit c then accumulate rest (10 * acc + (c - 48)) else acc
  end.

Definition LONG_MAX : Z := 2 ^ 63 - 1.
Definition LONG_MIN : Z := - 2 ^ 63.
Definition INT_MAX : Z := 2 ^ 31 - 1.

(** The sign and the magnitude [strtol(s, NULL, 10)] reads: optional blanks,
    an optional sign, then the longest run of decimal digits. *)
Definition negative (s : list Z) : bool :=
  match skip_space s with
  | 45 :: _ => true
  | _ => false
  end.

Definition magnitude (s : list Z) : Z :=
  match skip_space s with
  | 45 :: rest => accumulate rest 0
  | 43 :: rest => accumulate rest 0
  | s1 => accumulate s1 0
  end.

(** [strtol(s, NULL, 10)]: the value is clamped to the range of [long]. *)
Definition strtol10 (s : list Z) : Z :=
  let v := if negative s then - magnitude s else magnitude s in
  Z.max LONG_MIN (Z.min LONG_MAX v).

(** Conversion of a [long] to [int] on a two's complement machine. *)
Definition to_int (v : Z) : Z := (v + 2 ^ 31) mod 2 ^ 32 - 2 ^ 31.

(** [atoi(buf)] is [(int) strtol(buf, NULL, 10)]; the C standard leaves the
    result undefined when the value does not fit, this is what the GNU C
    library computes. *)
Definition atoi (buf : list Z) : Z := to_int (strtol10 (cstr buf)).

(** ** struct match

    The [name] member is only assigned after parsing, when the menu items
    are built, and is left out here. *)

Record match_ := Match {
  filepath : list Z;
  line : Z;
  description : list Z
}.

(** ** parse_next_match *)

(** The three arrays [buffer] can point into. *)
Inductive array := Filepath | LineNumBuf | Description.

Definition sizeof (a : array) : nat :=
  match a with
  | Filepath => MATCH_PATH_LEN
  | LineNumBuf => LINE_NUM_BUF_LEN
  | Description => MATCH_DESCRIPTION_LEN
  end.

(** The variables of one call: the record written through [m], the local
    [line_num_buf], the pointer [buffer] as an array and an offset into it,
    [buffer_avail], [state], and the log of stores that fell outside the
    array [buffer] points into. *)
Record pstate := PState {
  m : match_;
  line_num_buf : list Z;
  buffer : array * nat;
  buffer_avail : nat;
  state : Z;
  overrun : list (array * nat)
}.

Definition array_get (a : array) (s : pstate) : list Z :=
  match a with
  | Filepath => filepath (m s)
  | LineNumBuf => line_num_buf s
  | Description => description (m s)
  end.

Definition array_set (a : array) (l : list Z) (s : pstate) : pstate :=
  match a with
  | Filepath =>
      PState (Match l (line (m s)) (description (m s))) (line_num_buf s)
             (buffer s) (buffer_avail s) (state s) (overrun s)
  | LineNumBuf =>
      PState (m s) l (buffer s) (buffer_avail s) (state s) (overrun s)
  | Description =>
      PState (Match (filepath (m s)) (line (m s)) l) (line_num_buf s)
             (buffer s) (buffer_avail s) (state s) (overrun s)
  end.

Definition set_buffer (p : array * nat) (s : pstate) : pstate :=
  PState (m s) (line_num_buf s) p (buffer_avail s) (state s) (overrun s).

Definition set_buffer_avail (n : nat) (s : pstate) : pstate :=
  PState (m s) (line_num_buf s) (buffer s) n (state s) (overrun s).

Definition set_state (n : Z) (s : pstate) : pstate :=
  PState (m s) (line_num_buf s) (buffer s) (buffer_avail s) n (overrun s).

Definition log_overrun (p : array * nat) (s : pstate) : pstate :=
  PState (m s) (line_num_buf s) (buffer s) (buffer_avail s) (state s)
         (overrun s ++ [p]).

(** [*buffer = v] *)
Definition poke (v : Z) (s : pstate) : pstate :=
  let '(a, i) := buffer s in
  if (i <? sizeof a)%nat
  then array_set a (<[i := v]> (array_get a s)) s
  else log_overrun (a, i) s.

(** [buffer++] *)
Definition bump (s : pstate) : pstate :=
  let '(a, i) := buffer s in set_buffer (a, S i) s.

(** One iteration of the inner [for] loop (lines 182-188). *)
Definition append_one (ch : Z) (s : pstate) : pstate :=
  if (buffer_avail s =? 0)%nat then s
  else
    let s1 := set_buffer_avail (buffer_avail s - 1) s in
    if (buffer_avail s1 =? 0)%nat
    then bump (poke NUL s1)
    else bump (poke ch s1).

(** The inner loop: [for (unsigned i = 0; i < appendcount; ++i)]. *)
Fixpoint append (appendcount : nat) (ch : Z) (s : pstate) : pstate :=
  match appendcount with
  | O => s
  | S n => append n ch (append_one ch s)
  end.

(** The state transition on a structural separator (lines 153-157 and
    159-163): terminate the current buffer, switch to array [a], reset it. *)
Definition switch (a : array) (s : pstate) : pstate :=
  let s1 := poke NUL s in
  let s2 := set_buffer (a, O) s1 in
  let s3 := set_buffer_avail (sizeof a) s2 in
  let s4 := poke NUL s3 in
  set_state (state s4 + 1) s4.

Inductive flow := Continue (s : pstate) | Break (s : pstate).

(** The body of the outer loop for a character [ch <> EOF]. *)
Definition body (ch : Z) (s : pstate) : flow :=
  if ch =? SEPARATOR then
    if state s =? 0 then Continue (switch LineNumBuf s)
    else if state s =? 1 then Continue (switch Description s)
    else Continue (append 1 ch s)
  else if ch =? NEWLINE then Break (poke NUL s)
  else if negb (isprint ch) then
    if ch =? TAB then Continue (append TAB_STOP TAB_REPL s)
    else Continue (append 1 NONPRINT_REPL s)
  else Continue (append 1 ch s).

(** The outer loop: returns the last value of [ch], the variables and what
    is left of the stream. *)
Fixpoint scan (fp : list byte) (s : pstate) : Z * pstate * list byte :=
  match fp with
  | [] => (EOF, s, [])
  | b :: fp' =>
      let ch := code b in
      if ch =? EOF then (EOF, s, fp')
      else match body ch s with
           | Break s' => (ch, s', fp')
           | Continue s' => scan fp' s'
           end
  end.

(** What a call leaves behind: the return value, the record behind [m], the
    local [line_num_buf] as it is on return, the stream, and the stores that
    fell outside their array. *)
Record outcome := Outcome {
  rc : Z;
  out_m : match_;
  out_line_num_buf : list Z;
  out_fp : list byte;
  out_overrun : list (array * nat)
}.

Definition SUCCESS : Z := 0.
Definition MALFORMED : Z := 1.

Definition entry_state (stack : list Z) (m0 : match_) : pstate :=
  PState m0 stack (Filepath, O) (sizeof Filepath) 0 [].

(** [stack] is the indeterminate initial content of [line_num_buf]. *)
Definition parse_next_match (stack : list Z) (fp : list byte) (m0 : match_)
  : outcome :=
  let '(ch, s, fp') := scan fp (entry_state stack m0) in
  if state s =? 2 then
    Outcome (if ch =? EOF then EOF else SUCCESS)
            (Match (filepath (m s)) (atoi (line_num_buf s)) (description (m s)))
            (line_num_buf s) fp' (overrun s)
  else
    Outcome (if ch =? EOF then EOF else MALFORMED) (m s)
            (line_num_buf s) fp' (overrun s).

(** ** The match store: matchc, matcha, matchv

    [matchc] and [matcha] are [size_t] counters; allocation is taken to
    succeed ([mensure] leaves the program otherwise), so they stay far below
    the point where they would wrap and are modelled as [nat].  [matchv] is
    the allocated array, [matcha] records long. *)

Record store := Store {
  matchc : nat;
  matcha : nat;
  matchv : list match_
}.

(** What [build_menu] leaves behind: either the process has exited on the
    zero-matches path, with the lines printed to the error stream, or the
    store is handed on to the menu construction. *)
Inductive message := UnableToParse | NoMatches | WaitFailed.

Definition message_text (msg : message) : string :=
  match msg with
  | UnableToParse =>
      "Unable to parse matches. (Did you forget to specify the '-n' option to grep?)"
  | NoMatches => "No matches."
  | WaitFailed => "Cannot read child process exit status"
  end.

Inductive result := Exit (status : Z) (stderr : list message) | Menu (s : store).

(** The exit status held in a wait status word, as POSIX defines the macro. *)
Definition WEXITSTATUS (status : Z) : Z := Z.shiftr (Z.land status 65280) 8.

(** The program points of the parsing loop at which the store is observed:
    before a call to the parser, before [resize_matchv], and once the loop
    has been left. *)
Inductive point := AtParse | AtResize | AfterLoop.

Section Store.

(** Indeterminate memory: the initial content of the parser's local
    [line_num_buf], and the content of a record freshly obtained from
    [realloc]. *)
Variable stack : list Z.
Variable garbage : match_.

Definition resize_matchv (s : store) : store :=
  if (matchc s =? matcha s)%nat
  then Store (matchc s) (matcha s + MATCH_CHUNK_LEN)
             (matchv s ++ replicate MATCH_CHUNK_LEN garbage)
  else s.

Definition init_matchv : store := resize_matchv (Store 0 0 []).

(** [matchv[matchc]], the record the parser is pointed at. *)
Definition slot (s : store) : match_ := default garbage (matchv s !! matchc s).

Definition put_slot (r : match_) (s : store) : store :=
  Store (matchc s) (matcha s) (<[matchc s := r]> (matchv s)).

(** The loop body: [matchc += (rc == 0)? 1 : 0]. *)
Definition count_match (rc : Z) (s : store) : store :=
  Store (matchc s + (if rc =? 0 then 1 else 0)) (matcha s) (matchv s).

(** The loop of [build_menu] after [init_matchv()]; every call of the
    parser writes through [&matchv[matchc]], whatever it returns. *)
Fixpoint parse_loop (fuel : nat) (fp : list byte) (s : store) : option store :=
  match fuel with
  | O => None
  | S fuel' =>
      let o := parse_next_match stack fp (slot s) in
      let s1 := put_slot (out_m o) s in
      if rc o =? EOF then Some s1
      else parse_loop fuel' (out_fp o) (resize_matchv (count_match (rc o) s1))
  end.

(** Each call that does not return [EOF] consumes at least one byte, so
    one more unit of fuel than there are bytes is enough. *)
Definition parse_all (fp : list byte) : option store :=
  parse_loop (S (length fp)) fp init_matchv.

(** The records the store holds: the first [matchc] entries of [matchv]. *)
Definition records (s : store) : list match_ := take (matchc s) (matchv s).

(** [build_menu] up to the point where the menu items are created.
    [waited] is what [wait(&status)] yields: [None] when it returns -1,
    the status word otherwise. *)
Definition build_menu (fp : list byte) (waited : option Z) : option result :=
  match parse_all fp with
  | None => None
  | Some s =>
      if (matchc s =? 0)%nat then
        match waited with
        | None => Some (Exit EXIT_FAILURE [WaitFailed])
        | Some status =>
            let stderr :=
              if WEXITSTATUS status =? 0 then [UnableToParse]
              else if WEXITSTATUS status =? 1 then [NoMatches]
              else [] in
            Some (Exit (WEXITSTATUS status) stderr)
        end
      else Some (Menu s)
  end.

(** The stores the loop can pass through, by program point. *)
Inductive reachable : point -> store -> Prop :=
| reach_start : reachable AtResize (Store 0 0 [])
| reach_resize s : reachable AtResize s -> reachable AtParse (resize_matchv s)
| reach_body s fp :
    reachable AtParse s ->
    rc (parse_next_match stack fp (slot s)) <> EOF ->
    reachable AtResize
      (count_match (rc (parse_next_match stack fp (slot s)))
         (put_slot (out_m (parse_next_match stack fp (slot s))) s))
| reach_end s fp :
    reachable AtParse s ->
    rc (parse_next_match stack fp (slot s)) = EOF ->
    reachable AfterLoop (put_slot (out_m (parse_next_match stack fp (slot s))) s).

End Store.

(** ** Vocabulary of the statements *)

(** What the loop body hands to the inner loop for a character that is
    neither structural nor a newline (lines 170-180): the character itself
    when printable, [TAB_STOP] blanks for a tab, the placeholder otherwise. *)
Definition expand (ch : Z) : list Z :=
  if isprint ch then [ch]
  else if ch =? TAB then replicate TAB_STOP TAB_REPL
  else [NONPRINT_REPL].

(** The sanitized text of a field. *)
Definition sanitize (l : list byte) : list Z :=
  flat_map (fun b => expand (code b)) l.

(** Text without newline; text without separator and newline; printable text
    without separator. *)
Definition no_newline (l : list byte) : bool :=
  forallb (fun b => negb (code b =? NEWLINE)) l.

Definition field_text (l : list byte) : bool :=
  forallb (fun b => negb (code b =? SEPARATOR) && negb (code b =? NEWLINE)) l.

Definition printable_text (l : list byte) : bool :=
  forallb (fun b => isprint (code b) && negb (code b =? SEPARATOR)) l.

(** Number of separator bytes of a line. *)
Fixpoint separators (l : list byte) : nat :=
  match l with
  | [] => O
  | b :: l' => ((if (code b =? SEPARATOR)%Z then 1 else 0) + separators l')%nat
  end.

(** The arrays the parser writes have their declared sizes. *)
Definition well_formed (stack : list Z) (m0 : match_) : Prop :=
  length (filepath m0) = MATCH_PATH_LEN /\
  length stack = LINE_NUM_BUF_LEN /\
  length (description m0) = MATCH_DESCRIPTION_LEN.


(** A stream made of complete lines followed by a last line that no newline
    ends (possibly empty). *)
Fixpoint stream_of (lines : list (list byte)) (last : list byte) : list byte :=
  match lines with
  | [] => last
  | l :: ls => l ++ x0a :: stream_of ls last
  end.

Definition all_lines (lines : list (list byte)) : bool :=
  forallb no_newline lines.

(** Number of lines with two structural separators. *)
Fixpoint successes (lines : list (list byte)) : nat :=
  match lines with
  | [] => O
  | l :: ls => ((if (2 <=? separators l)%nat then 1 else 0) + successes ls)%nat
  end.

(** Decimal rendering of a line number, as the producer prints it: the
    digits of a non-negative [int], at most ten of them. *)
Definition digit_byte (d : Z) : byte :=
  match d with
  | 0 => x30 | 1 => x31 | 2 => x32 | 3 => x33 | 4 => x34
  | 5 => x35 | 6 => x36 | 7 => x37 | 8 => x38 | _ => x39
  end.

Fixpoint render_digits (fuel : nat) (v : Z) (acc : list byte) : list byte :=
  match fuel with
  | O => acc
  | S fuel' =>
      let acc' := digit_byte (v mod 10) :: acc in
      if v / 10 =? 0 then acc' else render_digits fuel' (v / 10) acc'
  end.

Definition render_line (v : Z) : list byte := render_digits 10 v [].

(** The wire format of a record: [<filepath>SEP<line>SEP<description>\n]. *)
Definition serialize (path : list byte) (v : Z) (descr : list byte) : list byte :=
  path ++ x3a :: render_line v ++ x3a :: descr ++ [x0a].

(** ** Auxiliary definitions of the proofs *)

(** The inner loop over a list of characters instead of a repeated one. *)
Fixpoint append_list (w : list Z) (s : pstate) : pstate :=
  match w with
  | [] => s
  | c :: w' => append_list w' (append_one c s)
  end.

(** A field under construction seen as a pair: what has been written, and
    the part of the array still available.  [push1] is the inner loop
    iteration on that view. *)
Definition push1 (c : Z) (p : list Z * list Z) : list Z * list Z :=
  match p with
  | (pre, []) => (pre, [])
  | (pre, [_]) => (pre ++ [NUL], [])
  | (pre, _ :: suf) => (pre ++ [c], suf)
  end.

Definition push (w : list Z) (p : list Z * list Z) : list Z * list Z :=
  fold_left (fun p c => push1 c p) w p.

(** The parser state in which [buffer] points into array [a] after [p.1],
    with [p.2] available. *)
Definition with_field (a : array) (p : list Z * list Z) (s : pstate) : pstate :=
  set_buffer (a, length p.1)
    (set_buffer_avail (length p.2) (array_set a (p.1 ++ p.2) s)).

Definition fits (a : array) (p : list Z * list Z) : Prop :=
  length (p.1 ++ p.2) = sizeof a.

(** The array once the field is closed by [*buffer = '\0'], and the store
    that falls outside when nothing is available any more. *)
Definition finish (p : list Z * list Z) : list Z :=
  p.1 ++ match p.2 with [] => [] | _ :: t => NUL :: t end.

Definition spill (a : array) (p : list Z * list Z) : list (array * nat) :=
  match p.2 with [] => [(a, sizeof a)] | _ :: _ => [] end.

Definition add_overrun (l : list (array * nat)) (s : pstate) : pstate :=
  PState (m s) (line_num_buf s) (buffer s) (buffer_avail s) (state s)
         (overrun s ++ l).

(** A field read into an array whose content was [init]. *)
Definition field (n : list byte) (init : list Z) : list Z * list Z :=
  push (sanitize n) ([], init).

(** Characters that continue the current field in state [st]. *)
Definition plain (st : Z) (b : byte) : bool :=
  negb (code b =? NEWLINE) &&
  (negb (code b =? SEPARATOR) || (negb (st =? 0) && negb (st =? 1))).

(** The outer loop over a text without newline. *)
Fixpoint run (l : list byte) (s : pstate) : pstate :=
  match l with
  | [] => s
  | b :: l' =>
      match body (code b) s with
      | Continue s' => run l' s'
      | Break s' => s'
      end
  end.

(** The store after the loop iteration that consumes line [l], and after a
    sequence of lines. *)
Definition after_line (stack : list Z) (garbage : match_) (l : list byte)
  (s : store) : store :=
  let o := parse_next_match stack (l ++ [x0a]) (slot garbage s) in
  resize_matchv garbage (count_match (rc o) (put_slot (out_m o) s)).

Definition after_lines (stack : list Z) (garbage : match_)
  (lines : list (list byte)) (s : store) : store :=
  fold_left (fun s l => after_line stack garbage l s) lines s.

(** ** Sample memory and inputs

    Memory that has not been written yet holds arbitrary bytes; the samples
    fill it with the letter X. *)
Definition bytes (s : string) : list byte := list_byte_of_string s.

Definition dirty_stack : list Z := replicate LINE_NUM_BUF_LEN 88.

Definition dirty_match : match_ :=
  Match (replicate MATCH_PATH_LEN 88) 88 (replicate MATCH_DESCRIPTION_LEN 88).

(** * The rest of the program: definitions *)

(** ** Lines and records as text *)

(** The stream up to its first newline, and what follows that newline. *)
Fixpoint first_line (fp : list byte) : option (list byte * list byte) :=
  match fp with
  | [] => None
  | b :: fp' =>
      if code b =? NEWLINE then Some ([], fp')
      else match first_line fp' with
           | Some (l, rest) => Some (b :: l, rest)
           | None => None
           end
  end.

(** A text up to its first separator, and what follows that separator. *)
Fixpoint upto_separator (l : list byte) : list byte * option (list byte) :=
  match l with
  | [] => ([], None)
  | b :: l' =>
      if code b =? SEPARATOR then ([], Some l')
      else let '(f, t) := upto_separator l' in (b :: f, t)
  end.

(** The three fields of a line with two separators or more. *)
Definition fields (l : list byte) : option (list byte * list byte * list byte) :=
  match upto_separator l with
  | (f, Some t) =>
      match upto_separator t with
      | (n, Some d) => Some (f, n, d)
      | (_, None) => None
      end
  | (_, None) => None
  end.

(** The line a call of the parser reads: the stream up to its first
    newline and [true], or the whole stream and [false] when it holds no
    newline. *)
Definition current_line (fp : list byte) : list byte * bool :=
  match first_line fp with
  | Some (l, _) => (l, true)
  | None => (fp, false)
  end.

(** The fields the call closes by a store [*buffer = '\0'], with their
    arrays: the first field at the first separator, the second at the second
    separator, and the field being read at the newline.  The end of the
    stream closes nothing. *)
Definition closed_fields (fp : list byte) : list (array * list byte) :=
  let '(l, ended) := current_line fp in
  match upto_separator l with
  | (f, None) => if ended then [(Filepath, f)] else []
  | (f, Some t) =>
      (Filepath, f) ::
      match upto_separator t with
      | (n, None) => if ended then [(LineNumBuf, n)] else []
      | (n, Some d) =>
          (LineNumBuf, n) :: (if ended then [(Description, d)] else [])
      end
  end.


(** A record read the way the rest of the program reads it: its filepath
    and its description as C strings, and its line. *)
Definition text_of (r : match_) : list Z * Z * list Z :=
  (cstr (filepath r), line r, cstr (description r)).

(** What a line of three fields is parsed into. *)
Definition parsed_text (l : list byte) : option (list Z * Z * list Z) :=
  match fields l with
  | Some (f, n, d) =>
      Some (take (MATCH_PATH_LEN - 1) (sanitize f),
            to_int (strtol10 (take (LINE_NUM_BUF_LEN - 1) (sanitize n))),
            take (MATCH_DESCRIPTION_LEN - 1) (sanitize d))
  | None => None
  end.

(** The records of the store have arrays of the declared sizes. *)
Definition sized (r : match_) : Prop :=
  length (filepath r) = MATCH_PATH_LEN /\
  length (description r) = MATCH_DESCRIPTION_LEN.

(** ** Invariants of the parser and of the store *)

(** The rank of an array among the fields of a line. *)
Definition rank (a : array) : nat :=
  match a with
  | Filepath => 0
  | LineNumBuf => 1
  | Description => 2
  end.

(** The parser state between two characters: the pointer and the free
    bytes add up to the size of the array being filled, which is the array
    of the field the state stands for; every store logged in [overrun] went
    to the byte that follows an array, there is at most one per field closed
    so far, and they left arrays of fields before the current one, no two of
    them the same array. *)
Definition tidy (s : pstate) : Prop :=
  (snd (buffer s) + buffer_avail s = sizeof (fst (buffer s)))%nat /\
  Forall (fun p => snd p = sizeof (fst p)) (overrun s) /\
  0 <= state s <= 2 /\
  (length (overrun s) <= Z.to_nat (state s))%nat /\
  Z.of_nat (rank (fst (buffer s))) = state s /\
  Forall (fun p => (rank (fst p) < rank (fst (buffer s)))%nat) (overrun s) /\
  NoDup (map fst (overrun s)).

(** No step of the parser changes the size of an array. *)
Definition same_sizes (s1 s2 : pstate) : Prop :=
  forall a, length (array_get a s2) = length (array_get a s1).

(** The store before a call of the parser: the slot [matchv[matchc]] exists
    and every record has arrays of the declared sizes. *)
Definition store_ok (s : store) : Prop :=
  (matchc s < matcha s)%nat /\ length (matchv s) = matcha s /\
  Forall sized (matchv s).

(** The capacity is the first multiple of the chunk length above the
    count. *)
Definition chunked (s : store) : Prop :=
  exists k, matcha s = (MATCH_CHUNK_LEN * S k)%nat /\
            (MATCH_CHUNK_LEN * k <= matchc s < MATCH_CHUNK_LEN * S k)%nat.

(** ** Formatted output: the conversions of printf the program uses

    ["%zu"] for a [size_t], ["%u"] for an [int] passed where an [unsigned]
    is expected, ["%d"] for an [int]. *)
Definition render_size (v : Z) : list Z := map code (render_digits 20 v []).

Definition render_unsigned (v : Z) : list Z :=
  map code (render_digits 10 (v mod 2 ^ 32) []).

Definition render_int (v : Z) : list Z :=
  if v <? 0 then 45 :: map code (render_digits 10 (- v) [])
  else map code (render_digits 10 v []).

(** [snprintf(buf, size, ...)] when the formatted text is [text]: at most
    [size - 1] characters and a terminator are stored, and the length of
    the whole text is returned. *)
Definition snprintf (buf : list Z) (size : nat) (text : list Z) : list Z * Z :=
  (match size with
   | O => buf
   | S k => list_inserts 0 (take k text ++ [NUL]) buf
   end,
   Z.of_nat (length text)).

(** [memset(buf + off, c, n)] and [memcpy(buf + off, src, strlen(src))]. *)
Definition memset (buf : list Z) (off : nat) (c : Z) (n : nat) : list Z :=
  list_inserts off (replicate n c) buf.

Definition memcpy (buf : list Z) (off : nat) (src : list Z) : list Z :=
  list_inserts off src buf.

(** ** display_footer *)

Definition EXIT_HINT : list Z := map code (bytes "Hit 'q' to exit  ").

(** [sizeof(EXIT_HINT) - 1], a [size_t]. *)
Definition EXIT_HINT_LEN : Z := Z.of_nat (length EXIT_HINT).

Definition SIZE_MAX_PLUS_1 : Z := 2 ^ 64.

(** [cols] and [lines] are the globals [COLS] and [LINES] of curses, [frame]
    the indeterminate initial content of the array [footer], which has
    [COLS + 1] bytes.  The result is what [mvprintw] is asked to print: row,
    column and text; [None] when the function returns early.  The
    subtraction of [EXIT_HINT_LEN] is carried out in [size_t] and its result
    converted to [int]. *)
Definition display_footer (cols lines : Z) (frame : list Z) (match_count : Z)
  : option (Z * Z * list Z) :=
  let '(footer, len) :=
    snprintf frame (Z.to_nat (cols + 1))
      (render_size match_count ++ map code (bytes " matches")) in
  if len <? 1 then None
  else
    let l := to_int (((cols - len) mod SIZE_MAX_PLUS_1 - EXIT_HINT_LEN)
                     mod SIZE_MAX_PLUS_1) in
    if l <? 0 then None
    else
      let footer := memset footer (Z.to_nat len) 32 (Z.to_nat l) in
      let footer := memcpy footer (Z.to_nat (len + l)) EXIT_HINT in
      let footer := <[Z.to_nat cols := NUL]> footer in
      Some (lines - 1, 0, cstr footer).

(** ** seteditor and open_match *)

(** [env] is what [getenv("EDITOR")] returns, [None] for a null pointer. *)
Definition seteditor (env : option (list Z)) : list Z :=
  match env with
  | Some ed => ed
  | None => map code (bytes "vi")
  end.

(** The command [open_match] hands to [system]. *)
Definition open_match (editor : list Z) (r : match_) : list Z :=
  editor ++ map code (bytes " +") ++ render_unsigned (line r) ++
  [32] ++ cstr (filepath r).

(** ** The menu items of build_menu *)

Definition SLASH : Z := 47.

(** The part of a string after its last slash; the string itself when it
    has none. *)
Fixpoint after_last_slash (s : list Z) : list Z :=
  match s with
  | [] => []
  | c :: t =>
      if existsb (fun x => x =? SLASH) t then after_last_slash t
      else if c =? SLASH then t
      else s
  end.

(** A string without its trailing slashes. *)
Fixpoint strip_slashes (s : list Z) : list Z :=
  match s with
  | [] => []
  | c :: t =>
      match strip_slashes t with
      | [] => if c =? SLASH then [] else [c]
      | t' => c :: t'
      end
  end.

(** [basename] of [<libgen.h>], as the GNU C library implements it: the
    string it returns, and the array it was given, in which it cuts the
    trailing slashes of a path that has other characters too. *)
Definition basename (arr : list Z) : list Z * list Z :=
  let s := cstr arr in
  match s with
  | [] => ([46], arr)
  | _ :: _ =>
      if negb (List.last s 0 =? SLASH) then (after_last_slash s, arr)
      else
        match strip_slashes s with
        | [] => ([SLASH], arr)
        | stem => (after_last_slash stem, <[length stem := NUL]> arr)
        end
  end.

(** An [ITEM] of the menu library: its name (the string built by
    [asprintf]), its description (the string in the record) and its user
    pointer, null or the index in [matchv] of the record it stands for. *)
Record item := Item {
  item_name : list Z;
  item_description : list Z;
  item_userptr : option nat
}.

(** [new_item] of the menu library: no item (a null pointer) for a name that
    is empty or holds a character that is not printable; a description that
    is not printable is left out. *)
Definition new_item (name description : list Z) : option item :=
  match name with
  | [] => None
  | _ :: _ =>
      if forallb isprint name
      then Some (Item name
                      (if forallb isprint description then description else [])
                      None)
      else None
  end.

Definition set_item_userptr (it : item) (i : nat) : item :=
  Item (item_name it) (item_description it) (Some i).

(** One iteration of the loop at lines 273-277: the item of record [r] of
    index [i], and the record as [basename] leaves it; [None] when
    [new_item] returns a null pointer, on which [mensure] ends the
    program. *)
Definition make_item (i : nat) (r : match_) : option (item * match_) :=
  let '(base, path) := basename (filepath r) in
  let name :=
    base ++ map code (bytes " [") ++ render_int (line r) ++ map code (bytes "]") in
  match new_item name (cstr (description r)) with
  | None => None
  | Some it => Some (set_item_userptr it i, Match path (line r) (description r))
  end.

(** The loop from index [i] on: the array [items], without the null pointer
    that ends it, and the records afterwards. *)
Fixpoint make_items_from (i : nat) (rs : list match_)
  : option (list item * list match_) :=
  match rs with
  | [] => Some ([], [])
  | r :: rs' =>
      match make_item i r with
      | None => None
      | Some (it, r') =>
          match make_items_from (S i) rs' with
          | None => None
          | Some (its, rs'') => Some (it :: its, r' :: rs'')
          end
      end
  end.

Definition make_items (rs : list match_) : option (list item * list match_) :=
  make_items_from 0 rs.

(** ** event_loop *)

Definition KEY_DOWN : Z := 258.
Definition KEY_UP : Z := 259.
Definition KEY_NPAGE : Z := 338.
Definition KEY_PPAGE : Z := 339.
Definition ENTER : Z := 10.
Definition ESCAPE : Z := 27.

Inductive request := REQ_DOWN_ITEM | REQ_UP_ITEM | REQ_SCR_DPAGE | REQ_SCR_UPAGE.

(** What the loop does to the terminal and to the system, in order. *)
Inductive event :=
| Endwin
| System (command : list Z)
| Refresh
| PosMenuCursor
| CleanupCurses
| InternalError.

(** How a run of the loop over a sequence of keys ends: by the quit
    transition, by [exit(EXIT_FAILURE)] on an item without record, or blocked
    in [getch] once the keys are used up. *)
Inductive ending := Finished | Failure | Blocked.

Section EventLoop.

(** The menu library: the menu, what [menu_driver] makes of a request, and
    the record [item_userptr(current_item(menu))] points to, if any.  The
    editor is the global [editor]. *)
Variable menu : Type.
Variable menu_driver : menu -> request -> menu.
Variable current_entry : menu -> option match_.
Variable editor : list Z.

(** The body of the [switch]: the value of [c] after it, the menu and the
    trace; [None] when the program exits inside it. *)
Definition on_key (key : Z) (mn : menu) (trace : list event)
  : option (Z * menu * list event) :=
  if (key =? 106) || (key =? KEY_DOWN) then
    Some (key, menu_driver mn REQ_DOWN_ITEM, trace)
  else if (key =? 107) || (key =? KEY_UP) then
    Some (key, menu_driver mn REQ_UP_ITEM, trace)
  else if key =? KEY_NPAGE then Some (key, menu_driver mn REQ_SCR_DPAGE, trace)
  else if key =? KEY_PPAGE then Some (key, menu_driver mn REQ_SCR_UPAGE, trace)
  else if key =? ENTER then
    match current_entry mn with
    | None => None
    | Some entry =>
        Some (key, mn,
              trace ++ [Endwin; System (open_match editor entry); Refresh;
                        PosMenuCursor])
    end
  else if (key =? ESCAPE) || (key =? 113) then Some (0, mn, trace)
  else Some (key, mn, trace).

(** [for (int c = 1; c; ) switch (c = getch()) ...], then
    [cleanup_curses()]. *)
Fixpoint event_loop (keys : list Z) (mn : menu) (trace : list event)
  : ending * menu * list event :=
  match keys with
  | [] => (Blocked, mn, trace)
  | key :: keys' =>
      match on_key key mn trace with
      | None => (Failure, mn, trace ++ [Endwin; CleanupCurses; InternalError])
      | Some (c, mn', trace') =>
          if c =? 0 then (Finished, mn', trace' ++ [CleanupCurses])
          else event_loop keys' mn' trace'
      end
  end.

End EventLoop.

Arguments on_key {menu} menu_driver current_entry editor key mn trace.
Arguments event_loop {menu} menu_driver current_entry editor keys mn trace.

(** ** Vocabulary of the statements about the screen and the editor *)

(** The text ["%zu matches"] of the footer. *)
Definition footer_count (match_count : Z) : list Z :=
  render_size match_count ++ map code (bytes " matches").

(** A path as [basename] leaves it in the record: without its trailing
    slashes, unless it is made of slashes only. *)
Definition trimmed (p : list Z) : list Z :=
  match strip_slashes p with
  | [] => p
  | stem => stem
  end.

(** What the loop does around one run of the editor, and what it does last
    for each way of ending. *)
Definition session (command : list Z) : list event :=
  [Endwin; System command; Refresh; PosMenuCursor].

Definition closing (e : ending) : list event :=
  match e with
  | Finished => [CleanupCurses]
  | Failure => [Endwin; CleanupCurses; InternalError]
  | Blocked => []
  end.

(** The keys the [switch] has a case for, and the value 0 that ends the
    loop. *)
Definition bound_keys : list Z :=
  [106; KEY_DOWN; 107; KEY_UP; KEY_NPAGE; KEY_PPAGE; ENTER; ESCAPE; 113; 0].

(** ** main *)

(** How the program ends: with the usage line and [exit(2)]; in
    [build_menu], on a stream without record; in [mensure], on a null
    pointer; or in the event loop, with the footer [build_menu] has
    displayed and the trace of the loop. *)
Inductive program_end :=
| Usage (program : option (list Z))
| NoMenu (status : Z) (stderr : list message)
| OutOfMemory
| Browsed (footer : option (Z * Z * list Z)) (e : ending) (trace : list event).

(** The exit status of the program, [None] while it waits for a key; a
    [main] that reaches its end returns 0. *)
Definition exit_status (r : program_end) : option Z :=
  match r with
  | Usage _ => Some 2
  | NoMenu status _ => Some status
  | OutOfMemory => Some EXIT_FAILURE
  | Browsed _ Finished _ => Some 0
  | Browsed _ Failure _ => Some EXIT_FAILURE
  | Browsed _ Blocked _ => None
  end.

(** [(struct match * )item_userptr(it)] for the item [current_item] returns;
    the user pointer of a null item is null. *)
Definition entry_of (rs : list match_) (it : option item) : option match_ :=
  match it with
  | Some it' =>
      match item_userptr it' with
      | Some i => rs !! i
      | None => None
      end
  | None => None
  end.

Section Main.

(** Indeterminate memory, the menu library and the screen: [new_menu] with
    the settings and [post_menu] that follow it, [menu_driver],
    [current_item], and the globals [COLS] and [LINES] with what the array
    [footer] of [display_footer] holds at first. *)
Variable stack : list Z.
Variable garbage : match_.
Variable menu : Type.
Variable new_menu : list item -> menu.
Variable menu_driver : menu -> request -> menu.
Variable current_item : menu -> option item.
Variables cols lines : Z.
Variable frame : list Z.

(** [argv] are the arguments, [env] the value of [EDITOR], [child] what the
    spawned program writes to its standard output, [waited] what [wait]
    yields and [keys] what [getch] returns, call after call. *)
Definition main (argv : list (list Z)) (env : option (list Z))
  (child : list byte) (waited : option Z) (keys : list Z) : option program_end :=
  if (length argv <? 2)%nat then Some (Usage (head argv))
  else
    let editor := seteditor env in
    match build_menu stack garbage child waited with
    | None => None
    | Some (Exit status stderr) => Some (NoMenu status stderr)
    | Some (Menu s) =>
        match make_items (records s) with
        | None => Some OutOfMemory
        | Some (items, rs) =>
            let footer :=
              display_footer cols lines frame (Z.of_nat (matchc s)) in
            let '(e, _, trace) :=
              event_loop menu_driver (fun mn => entry_of rs (current_item mn))
                         editor keys (new_menu items) [] in
            Some (Browsed footer e trace)
        end
    end.

End Main.

Arguments main stack garbage {menu} new_menu menu_driver current_item
  cols lines frame argv env child waited keys.

(** The command of the editor for a record of text [t]. *)
Definition command (editor : list Z) (t : list Z * Z * list Z) : list Z :=
  editor ++ map code (bytes " +") ++ render_unsigned (snd (fst t)) ++
  [32] ++ trimmed (fst (fst t)).

(** ** More samples

    A menu that is the index of its current item, moved by the requests, and
    a second block of memory, filled with zeros. *)
Definition sample_driver (mn : nat) (q : request) : nat :=
  match q with
  | REQ_DOWN_ITEM => S mn
  | REQ_UP_ITEM => pred mn
  | REQ_SCR_DPAGE => (mn + 10)%nat
  | REQ_SCR_UPAGE => (mn - 10)%nat
  end.

Definition zero_stack : list Z := replicate LINE_NUM_BUF_LEN 0.

Definition zero_match : match_ :=
  Match (replicate MATCH_PATH_LEN 0) 0 (replicate MATCH_DESCRIPTION_LEN 0).

(** * Properties *)

(** ** Bytes *)

Lemma code_range b : 0 <= code b < 256.
Proof.
  unfold code. pose proof (Byte.to_N_bounded b) as H. lia.
Qed.

Lemma code_not_EOF b : (code b =? EOF) = false.
Proof. pose proof (code_range b). unfold EOF. lia. Qed.

Lemma forallb_weaken {A} (p q : A -> bool) l :
  (forall x, p x = true -> q x = true) ->
  forallb p l = true -> forallb q l = true.
Proof.
  intros Hpq. induction l as [|x l IH]; simpl; [reflexivity|].
  intros H. apply andb_prop in H as [Hx Hl].
  now rewrite (Hpq x Hx), IH.
Qed.

Lemma forallb_map_compose {A B} (p : B -> bool) (f : A -> B) l :
  forallb p (map f l) = forallb (fun x => p (f x)) l.
Proof. induction l as [|x l IH]; simpl; [reflexivity|now rewrite IH]. Qed.

Lemma field_text_no_newline l : field_text l = true -> no_newline l = true.
Proof.
  apply forallb_weaken. intros b H. now apply andb_prop in H as [_ ->].
Qed.

Lemma printable_field_text l : printable_text l = true -> field_text l = true.
Proof.
  apply forallb_weaken. intros b H. apply andb_prop in H as [Hp ->].
  unfold isprint in Hp. unfold NEWLINE.
  destruct (Z.eqb_spec (code b) 10) as [E|E]; [rewrite E in Hp; discriminate|reflexivity].
Qed.

Lemma field_text_plain st l : field_text l = true -> forallb (plain st) l = true.
Proof.
  apply forallb_weaken. intros b H. unfold plain.
  apply andb_prop in H as [H1 H2]. now rewrite H1, H2.
Qed.

Lemma no_newline_plain l : no_newline l = true -> forallb (plain 2) l = true.
Proof.
  apply forallb_weaken. intros b H. unfold plain.
  rewrite H. simpl. apply orb_true_r.
Qed.

(** ** [state] only changes on a structural separator *)

Lemma state_poke v s : state (poke v s) = state s.
Proof.
  unfold poke. destruct (buffer s) as [a i].
  destruct (i <? sizeof a)%nat; [destruct a|]; reflexivity.
Qed.

Lemma state_bump s : state (bump s) = state s.
Proof. unfold bump. destruct (buffer s). reflexivity. Qed.

Lemma state_append_one ch s : state (append_one ch s) = state s.
Proof.
  unfold append_one.
  destruct (buffer_avail s =? 0)%nat; [reflexivity|].
  destruct (buffer_avail _ =? 0)%nat; now rewrite state_bump, state_poke.
Qed.

Lemma state_append n ch s : state (append n ch s) = state s.
Proof.
  revert s. induction n as [|n IH]; intros s; simpl; [reflexivity|].
  now rewrite IH, state_append_one.
Qed.

Lemma state_switch a s : state (switch a s) = state s + 1.
Proof.
  unfold switch. cbn [state set_state]. rewrite state_poke. cbn.
  now rewrite state_poke.
Qed.

Lemma state_with_field a p base : state (with_field a p base) = state base.
Proof. destruct a; reflexivity. Qed.

Lemma body_sep_0 s :
  state s = 0 -> body SEPARATOR s = Continue (switch LineNumBuf s).
Proof. intros H. unfold body. now rewrite H. Qed.

Lemma body_sep_1 s :
  state s = 1 -> body SEPARATOR s = Continue (switch Description s).
Proof. intros H. unfold body. now rewrite H. Qed.

Lemma body_newline s : body NEWLINE s = Break (poke NUL s).
Proof. reflexivity. Qed.

Lemma body_other ch s :
  ch <> NEWLINE ->
  exists s', body ch s = Continue s' /\
    state s' = if (ch =? SEPARATOR) && ((state s =? 0) || (state s =? 1))
               then state s + 1 else state s.
Proof.
  intros Hnl. unfold body.
  destruct (Z.eqb_spec ch SEPARATOR) as [->|Hsep]; cbn [andb].
  - destruct (state s =? 0); cbn [orb].
    { eexists; split; [reflexivity|apply state_switch]. }
    destruct (state s =? 1).
    { eexists; split; [reflexivity|apply state_switch]. }
    eexists; split; [reflexivity|apply state_append].
  - destruct (Z.eqb_spec ch NEWLINE); [contradiction|].
    destruct (negb (isprint ch)); [destruct (ch =? TAB)|];
      (eexists; split; [reflexivity|apply state_append]).
Qed.

Lemma body_plain b s :
  plain (state s) b = true ->
  body (code b) s = Continue (append_list (expand (code b)) s).
Proof.
  unfold plain, body, expand. intros H.
  apply andb_prop in H as [Hnl Hsep].
  destruct (Z.eqb_spec (code b) SEPARATOR) as [E|E].
  - rewrite E. simpl in Hsep. apply andb_prop in Hsep as [H0 H1].
    destruct (state s =? 0); [discriminate|].
    destruct (state s =? 1); [discriminate|]. reflexivity.
  - destruct (code b =? NEWLINE); [discriminate|].
    destruct (isprint (code b)); simpl; [reflexivity|].
    destruct (code b =? TAB); reflexivity.
Qed.

(** ** The inner loop on the field view *)

Lemma append_replicate n ch s : append n ch s = append_list (replicate n ch) s.
Proof. revert s. induction n as [|n IH]; intros s; simpl; [reflexivity|apply IH]. Qed.

Lemma insert_at_length {A} (pre : list A) x v suf :
  <[length pre := v]> (pre ++ x :: suf) = pre ++ v :: suf.
Proof. induction pre as [|y pre IH]; simpl; [reflexivity|]. now rewrite IH. Qed.

Lemma fits_push1 a c p : fits a p -> fits a (push1 c p).
Proof.
  destruct p as [pre [|x [|y suf]]]; unfold fits; simpl; intros H; try assumption;
    rewrite ?length_app in *; simpl in *; rewrite ?length_app; simpl; lia.
Qed.

Lemma fits_push a w p : fits a p -> fits a (push w p).
Proof.
  revert p. induction w as [|c w IH]; intros p H; simpl; [assumption|].
  apply IH. now apply fits_push1.
Qed.

Lemma fits_reset a arr : length arr = sizeof a -> fits a ([], NUL :: tail arr).
Proof.
  unfold fits. destruct arr as [|x arr]; simpl; [destruct a; discriminate|trivial].
Qed.

Lemma push_app w1 w2 p : push (w1 ++ w2) p = push w2 (push w1 p).
Proof. unfold push. apply fold_left_app. Qed.

Lemma append_one_with_field a c p base :
  fits a p ->
  append_one c (with_field a p base) = with_field a (push1 c p) base.
Proof.
  destruct p as [pre suf]. unfold fits. simpl. intros Hfit.
  rewrite length_app in Hfit.
  destruct base as [[fp ln d] lnb buf k st ov].
  destruct suf as [|x [|y suf]]; simpl in Hfit.
  - reflexivity.
  - unfold append_one, with_field, poke, bump, set_buffer, set_buffer_avail. simpl.
    assert (Hlt : (length pre <? sizeof a)%nat = true) by (apply Nat.ltb_lt; lia).
    rewrite Hlt.
    destruct a; simpl; rewrite insert_at_length, length_app, app_nil_r; simpl;
      repeat f_equal; lia.
  - unfold append_one, with_field, poke, bump, set_buffer, set_buffer_avail. simpl.
    assert (Hlt : (length pre <? sizeof a)%nat = true) by (apply Nat.ltb_lt; lia).
    rewrite Hlt.
    destruct a; simpl; rewrite insert_at_length, length_app, <- app_assoc; simpl;
      repeat f_equal; lia.
Qed.

Lemma append_list_with_field a w p base :
  fits a p ->
  append_list w (with_field a p base) = with_field a (push w p) base.
Proof.
  revert p. induction w as [|c w IH]; intros p Hfit; simpl; [reflexivity|].
  rewrite append_one_with_field by assumption.
  apply IH. now apply fits_push1.
Qed.

(** Closed form of the inner loop: either everything is written and bytes
    remain available, or the text is cut one byte short of the end of the
    array and a [NUL] takes the last byte. *)
Lemma push_closed w pre suf :
  push w (pre, suf) =
  if (length w <? length suf)%nat then (pre ++ w, drop (length w) suf)
  else match suf with
       | [] => (pre, [])
       | _ :: _ => (pre ++ take (length suf - 1) w ++ [NUL], [])
       end.
Proof.
  revert pre suf. induction w as [|c w IH]; intros pre suf.
  - simpl. destruct suf; simpl; [reflexivity|]. now rewrite app_nil_r.
  - unfold push. simpl. fold (push w (push1 c (pre, suf))).
    destruct suf as [|x [|y suf]]; simpl.
    + rewrite IH. reflexivity.
    + rewrite IH. reflexivity.
    + rewrite IH. simpl length.
      replace (S (length w) <? S (S (length suf)))%nat
        with (length w <? S (length suf))%nat
        by (destruct (Nat.ltb_spec (length w) (S (length suf))),
                     (Nat.ltb_spec (S (length w)) (S (S (length suf))));
            (reflexivity || lia)).
      destruct (length w <? S (length suf))%nat.
      * now rewrite <- app_assoc.
      * rewrite <- app_assoc. simpl. rewrite Nat.sub_0_r. reflexivity.
Qed.

Lemma poke_with_field a p base :
  fits a p ->
  poke NUL (with_field a p base) =
  set_buffer (a, length p.1)
    (set_buffer_avail (length p.2)
       (array_set a (finish p) (add_overrun (spill a p) base))).
Proof.
  destruct p as [pre suf]. unfold fits, finish, spill. simpl. intros Hfit.
  rewrite length_app in Hfit.
  destruct base as [[fp ln d] lnb buf k st ov].
  unfold poke, with_field, set_buffer, set_buffer_avail, add_overrun, log_overrun.
  destruct suf as [|x suf]; simpl in *.
  - assert (Hlt : (length pre <? sizeof a)%nat = false) by (apply Nat.ltb_ge; lia).
    rewrite Hlt. replace (length pre) with (sizeof a) by lia.
    destruct a; simpl; rewrite ?app_nil_r; reflexivity.
  - assert (Hlt : (length pre <? sizeof a)%nat = true) by (apply Nat.ltb_lt; lia).
    rewrite Hlt. destruct a; simpl; rewrite insert_at_length, app_nil_r; reflexivity.
Qed.

Lemma switch_eq a s :
  length (array_get a (poke NUL s)) = sizeof a ->
  switch a s =
  with_field a ([], NUL :: tail (array_get a (poke NUL s)))
    (set_state (state s + 1) (poke NUL s)).
Proof.
  unfold switch. rewrite <- (state_poke NUL s).
  generalize (poke NUL s). intros [[fp ln d] lnb buf k st ov] Hlen.
  unfold poke, with_field, set_buffer, set_buffer_avail, set_state.
  destruct a; simpl in *.
  - destruct fp; [discriminate|]. simpl in *. now rewrite Hlen.
  - destruct lnb; [discriminate|]. simpl in *. now rewrite Hlen.
  - destruct d; [discriminate|]. simpl in *. now rewrite Hlen.
Qed.

(** Any state whose pointer and counter agree with the array is such a view. *)
Lemma as_with_field s a i :
  buffer s = (a, i) ->
  (i + buffer_avail s)%nat = sizeof a ->
  length (array_get a s) = sizeof a ->
  s = with_field a (take i (array_get a s), drop i (array_get a s)) s /\
  fits a (take i (array_get a s), drop i (array_get a s)).
Proof.
  intros Hb Hk Hlen. unfold fits, with_field. cbn [fst snd].
  rewrite take_drop, length_take, length_drop, Hlen.
  replace (i `min` sizeof a)%nat with i by lia.
  replace (sizeof a - i)%nat with (buffer_avail s) by lia.
  split; [|reflexivity].
  destruct s as [[fp ln d] lnb buf k st ov]. simpl in *. subst buf.
  destruct a; reflexivity.
Qed.

(** ** The outer loop over one field, and over a complete line *)

Lemma scan_run a l rest p base :
  fits a p ->
  forallb (plain (state base)) l = true ->
  scan (l ++ rest) (with_field a p base) =
  scan rest (with_field a (push (sanitize l) p) base).
Proof.
  revert p. induction l as [|b l IH]; intros p Hfit Hl; [reflexivity|].
  simpl in Hl. apply andb_prop in Hl as [Hb Hl].
  cbn [app scan]. rewrite code_not_EOF.
  rewrite body_plain by (now rewrite state_with_field).
  rewrite append_list_with_field by assumption.
  rewrite IH by (try apply fits_push; assumption).
  unfold sanitize. cbn [flat_map]. now rewrite push_app.
Qed.

Lemma entry_as_field stack m0 :
  length (filepath m0) = MATCH_PATH_LEN ->
  entry_state stack m0 =
  with_field Filepath ([], filepath m0) (entry_state stack m0).
Proof.
  intros Hfp. destruct m0 as [fp ln de].
  unfold with_field, entry_state, set_buffer, set_buffer_avail.
  simpl in *. rewrite Hfp. reflexivity.
Qed.

(** The next byte of the stream is a separator, or the newline. *)
Ltac at_separator :=
  cbn [app scan]; rewrite code_not_EOF; change (code x3a) with SEPARATOR.

Ltac at_newline :=
  cbn [app scan]; rewrite code_not_EOF; change (code x0a) with NEWLINE;
  rewrite body_newline.

(** The outcome of a call on a line with two structural separators. *)
Lemma parse_line stack m0 f n d rest :
  well_formed stack m0 ->
  field_text f = true -> field_text n = true -> no_newline d = true ->
  parse_next_match stack (f ++ x3a :: n ++ x3a :: d ++ x0a :: rest) m0 =
  Outcome SUCCESS
    (Match (finish (field f (filepath m0)))
           (atoi (finish (field n (NUL :: tail stack))))
           (finish (field d (NUL :: tail (description m0)))))
    (finish (field n (NUL :: tail stack)))
    rest
    (spill Filepath (field f (filepath m0)) ++
     spill LineNumBuf (field n (NUL :: tail stack)) ++
     spill Description (field d (NUL :: tail (description m0)))).
Proof.
  intros (Hfp & Hst & Hd) Hf Hn Hdd.
  unfold parse_next_match. rewrite (entry_as_field stack m0 Hfp).
  rewrite scan_run; [|exact Hfp|now apply field_text_plain].
  fold (field f (filepath m0)).
  assert (F1 : fits Filepath (field f (filepath m0))) by (apply fits_push; exact Hfp).
  at_separator.
  rewrite body_sep_0 by (now rewrite state_with_field).
  rewrite switch_eq; rewrite poke_with_field by assumption;
    [|destruct m0; simpl in *; exact Hst].
  match goal with |- context [with_field LineNumBuf ([], NUL :: tail ?x) ?b] =>
    replace x with stack by (destruct m0; reflexivity); set (base1 := b) end.
  assert (S1 : state base1 = 1) by (destruct m0; reflexivity).
  rewrite scan_run; [|now apply fits_reset|now apply field_text_plain].
  fold (field n (NUL :: tail stack)).
  assert (F2 : fits LineNumBuf (field n (NUL :: tail stack))).
  { apply fits_push. now apply fits_reset. }
  at_separator.
  rewrite body_sep_1 by (now rewrite state_with_field).
  rewrite switch_eq; rewrite poke_with_field by assumption;
    [|destruct m0; simpl in *; exact Hd].
  match goal with |- context [with_field Description ([], NUL :: tail ?x) ?b] =>
    replace x with (description m0) by (destruct m0; reflexivity); set (base2 := b) end.
  assert (S2 : state base2 = 2) by (destruct m0; reflexivity).
  rewrite scan_run; [|now apply fits_reset|rewrite S2; now apply no_newline_plain].
  fold (field d (NUL :: tail (description m0))).
  assert (F3 : fits Description (field d (NUL :: tail (description m0)))).
  { apply fits_push. now apply fits_reset. }
  at_newline.
  rewrite poke_with_field by assumption.
  subst base2 base1. destruct m0 as [fp ln de]. cbn. rewrite <- app_assoc. reflexivity.
Qed.



(** ** What a closed field holds *)

Lemma finish_field n init :
  init <> [] ->
  finish (field n init) =
  if (length (sanitize n) <? length init)%nat
  then sanitize n ++ NUL :: drop (S (length (sanitize n))) init
  else take (length init - 1) (sanitize n) ++ [NUL].
Proof.
  intros Hne. unfold field, finish. rewrite push_closed.
  destruct (Nat.ltb_spec (length (sanitize n)) (length init)) as [Hlt|Hge]; cbn [fst snd app].
  - destruct (lookup_lt_is_Some_2 init (length (sanitize n)) Hlt) as [x Hx].
    now rewrite (drop_S _ _ _ Hx).
  - destruct init; [contradiction|]. cbn [fst snd]. now rewrite app_nil_r.
Qed.

Lemma spill_field a n init :
  init <> [] ->
  spill a (field n init) =
  if (length (sanitize n) <? length init)%nat then [] else [(a, sizeof a)].
Proof.
  intros Hne. unfold field, spill. rewrite push_closed.
  destruct (Nat.ltb_spec (length (sanitize n)) (length init)) as [Hlt|Hge]; cbn [fst snd].
  - destruct (lookup_lt_is_Some_2 init (length (sanitize n)) Hlt) as [x Hx].
    now rewrite (drop_S _ _ _ Hx).
  - destruct init; [contradiction|]. reflexivity.
Qed.

Lemma expand_nonzero ch : Forall (fun c => c <> NUL) (expand ch).
Proof.
  unfold expand, NUL. destruct (isprint ch) eqn:E.
  - constructor; [|constructor]. unfold isprint in E. lia.
  - destruct (ch =? TAB); repeat constructor; discriminate.
Qed.

Lemma sanitize_nonzero l : Forall (fun c => c <> NUL) (sanitize l).
Proof.
  unfold sanitize. induction l as [|b l IH]; cbn [flat_map]; [constructor|].
  apply Forall_app. split; [apply expand_nonzero|assumption].
Qed.

Lemma cstr_app_NUL w t : Forall (fun c => c <> NUL) w -> cstr (w ++ NUL :: t) = w.
Proof.
  induction 1 as [|c w Hc Hw IH]; cbn [app cstr].
  - reflexivity.
  - destruct (Z.eqb_spec c NUL); [contradiction|]. now rewrite IH.
Qed.

(** Read as a C string, a closed field is the sanitized text cut one byte
    short of the size of the array. *)
Lemma cstr_finish_field n init :
  init <> [] ->
  cstr (finish (field n init)) = take (length init - 1) (sanitize n).
Proof.
  intros Hne. rewrite finish_field by assumption.
  destruct (Nat.ltb_spec (length (sanitize n)) (length init)) as [Hlt|Hge].
  - rewrite cstr_app_NUL by apply sanitize_nonzero.
    now rewrite take_ge by lia.
  - rewrite cstr_app_NUL; [reflexivity|].
    apply Forall_take, sanitize_nonzero.
Qed.



(** ** The return value *)

Lemma not_newline_code b :
  negb (code b =? NEWLINE) = true -> code b <> NEWLINE.
Proof. intros H E. rewrite E in H. discriminate. Qed.

Lemma scan_newline l rest s :
  no_newline l = true ->
  scan (l ++ x0a :: rest) s = (NEWLINE, poke NUL (run l s), rest).
Proof.
  revert s. induction l as [|b l IH]; intros s H.
  - reflexivity.
  - simpl in H. apply andb_prop in H as [Hb Hl].
    cbn [app scan run]. rewrite code_not_EOF.
    destruct (body_other (code b) s (not_newline_code b Hb)) as (s' & -> & _).
    now apply IH.
Qed.

Lemma scan_eof l s :
  no_newline l = true -> scan l s = (EOF, run l s, []).
Proof.
  revert s. induction l as [|b l IH]; intros s H.
  - reflexivity.
  - simpl in H. apply andb_prop in H as [Hb Hl].
    cbn [scan run]. rewrite code_not_EOF.
    destruct (body_other (code b) s (not_newline_code b Hb)) as (s' & -> & _).
    now apply IH.
Qed.

(** [state] counts the separators of the line, up to two. *)
Lemma state_run l s :
  no_newline l = true -> 0 <= state s <= 2 ->
  state (run l s) = Z.min 2 (state s + Z.of_nat (separators l)).
Proof.
  revert s. induction l as [|b l IH]; intros s H Hs.
  - simpl. lia.
  - simpl in H. apply andb_prop in H as [Hb Hl].
    cbn [run separators].
    destruct (body_other (code b) s (not_newline_code b Hb)) as (s' & -> & Hs').
    destruct (Z.eqb_spec (code b) SEPARATOR) as [E|E]; simpl in Hs'.
    + destruct (Z.eqb_spec (state s) 0), (Z.eqb_spec (state s) 1); simpl in Hs';
        rewrite IH by (assumption || lia); lia.
    + rewrite IH by (assumption || lia). lia.
Qed.

Lemma rc_newline stack l rest m0 :
  no_newline l = true ->
  rc (parse_next_match stack (l ++ x0a :: rest) m0) =
    (if (2 <=? separators l)%nat then SUCCESS else MALFORMED) /\
  out_fp (parse_next_match stack (l ++ x0a :: rest) m0) = rest.
Proof.
  intros H. unfold parse_next_match. rewrite scan_newline by assumption.
  rewrite state_poke, state_run by (assumption || (simpl; lia)).
  cbn [entry_state state].
  destruct (Nat.leb_spec 2 (separators l)).
  - replace (Z.min 2 (0 + Z.of_nat (separators l))) with 2 by lia.
    split; reflexivity.
  - destruct (Z.eqb_spec (Z.min 2 (0 + Z.of_nat (separators l))) 2); [lia|].
    split; reflexivity.
Qed.

Lemma rc_eof stack l m0 :
  no_newline l = true ->
  rc (parse_next_match stack l m0) = EOF /\
  out_fp (parse_next_match stack l m0) = [].
Proof.
  intros H. unfold parse_next_match. rewrite scan_eof by assumption.
  destruct (state _ =? 2); split; reflexivity.
Qed.

(** What a call does with a line does not depend on what follows it. *)
Lemma parse_newline_local stack l rest m0 :
  no_newline l = true ->
  parse_next_match stack (l ++ x0a :: rest) m0 =
  let o := parse_next_match stack (l ++ [x0a]) m0 in
  Outcome (rc o) (out_m o) (out_line_num_buf o) rest (out_overrun o).
Proof.
  intros H. unfold parse_next_match. rewrite !scan_newline by assumption.
  destruct (state _ =? 2); reflexivity.
Qed.

(** A call that does not return [EOF] has consumed at least one byte. *)
Lemma scan_consumes fp s ch s' fp' :
  scan fp s = (ch, s', fp') -> ch <> EOF -> (length fp' < length fp)%nat.
Proof.
  revert s. induction fp as [|b fp IH]; intros s H Hch; cbn [scan] in H.
  - inversion H. congruence.
  - rewrite code_not_EOF in H.
    destruct (body (code b) s) as [s1|s1].
    + apply IH in H; [simpl; lia|assumption].
    + inversion H. simpl. lia.
Qed.

Lemma parse_consumes stack fp m0 :
  rc (parse_next_match stack fp m0) <> EOF ->
  (length (out_fp (parse_next_match stack fp m0)) < length fp)%nat.
Proof.
  unfold parse_next_match.
  destruct (scan fp (entry_state stack m0)) as [[ch s] fp'] eqn:E.
  intros H.
  assert (Hfp : out_fp (if state s =? 2
                        then Outcome (if ch =? EOF then EOF else SUCCESS)
                               (Match (filepath (m s)) (atoi (line_num_buf s))
                                  (description (m s)))
                               (line_num_buf s) fp' (overrun s)
                        else Outcome (if ch =? EOF then EOF else MALFORMED) (m s)
                               (line_num_buf s) fp' (overrun s)) = fp')
    by (destruct (state s =? 2); reflexivity).
  rewrite Hfp. apply (scan_consumes _ _ _ _ _ E).
  intros ->. apply H. destruct (state s =? 2); reflexivity.
Qed.

(** ** The loop of [build_menu] *)

Lemma parse_loop_enough stack garbage fuel fp s :
  (length fp < fuel)%nat -> is_Some (parse_loop stack garbage fuel fp s).
Proof.
  revert fp s. induction fuel as [|fuel IH]; intros fp s Hlen; [lia|].
  cbn [parse_loop].
  destruct (Z.eqb_spec (rc (parse_next_match stack fp (slot garbage s))) EOF) as [E|E].
  - eexists; reflexivity.
  - apply IH. pose proof (parse_consumes _ _ _ E). lia.
Qed.

Lemma parse_loop_line stack garbage fuel l rest s :
  no_newline l = true ->
  parse_loop stack garbage (S fuel) (l ++ x0a :: rest) s =
  parse_loop stack garbage fuel rest (after_line stack garbage l s).
Proof.
  intros H. cbn [parse_loop].
  destruct (rc_newline stack l rest (slot garbage s) H) as [Hrc Hfp].
  rewrite Hrc, Hfp.
  rewrite (parse_newline_local stack l rest) in * by assumption.
  cbn [rc out_m] in *. unfold after_line.
  destruct (2 <=? separators l)%nat; rewrite Hrc; reflexivity.
Qed.

Lemma parse_loop_last stack garbage fuel l s :
  no_newline l = true ->
  parse_loop stack garbage (S fuel) l s =
  Some (put_slot (out_m (parse_next_match stack l (slot garbage s))) s).
Proof.
  intros H. cbn [parse_loop].
  destruct (rc_eof stack l (slot garbage s) H) as [-> _]. reflexivity.
Qed.

Lemma matchc_after_line stack garbage l s :
  no_newline l = true ->
  matchc (after_line stack garbage l s) =
  (matchc s + if (2 <=? separators l)%nat then 1 else 0)%nat.
Proof.
  intros H. unfold after_line.
  destruct (rc_newline stack l [] (slot garbage s) H) as [-> _].
  unfold resize_matchv, count_match, put_slot. cbn [matchc matcha matchv].
  destruct (_ =? _)%nat; cbn [matchc]; destruct (2 <=? separators l)%nat; reflexivity.
Qed.

Lemma matchc_after_lines stack garbage lines s :
  all_lines lines = true ->
  matchc (after_lines stack garbage lines s) = (matchc s + successes lines)%nat.
Proof.
  unfold after_lines. revert s.
  induction lines as [|l lines IH]; intros s H; cbn [fold_left successes].
  - lia.
  - simpl in H. apply andb_prop in H as [Hl H].
    rewrite IH, matchc_after_line by assumption. lia.
Qed.

Lemma records_put_slot r s : records (put_slot r s) = records s.
Proof. unfold records, put_slot. cbn [matchc matchv]. now rewrite take_insert_ge. Qed.

(** The loop on a stream of lines: every complete line is one iteration, the
    last call returns [EOF]. *)
Lemma parse_loop_stream stack garbage lines last fuel s :
  all_lines lines = true -> no_newline last = true ->
  (length lines < fuel)%nat ->
  parse_loop stack garbage fuel (stream_of lines last) s =
  Some (put_slot
          (out_m (parse_next_match stack last
                    (slot garbage (after_lines stack garbage lines s))))
          (after_lines stack garbage lines s)).
Proof.
  revert fuel s. induction lines as [|l lines IH]; intros fuel s H Hlast Hfuel.
  - destruct fuel; [simpl in Hfuel; lia|]. now apply parse_loop_last.
  - simpl in H. apply andb_prop in H as [Hl H].
    destruct fuel; [simpl in Hfuel; lia|].
    cbn [stream_of]. rewrite parse_loop_line by assumption.
    rewrite IH by (try assumption; simpl in Hfuel; lia). reflexivity.
Qed.

Lemma length_stream_of lines last :
  (length lines <= length (stream_of lines last))%nat.
Proof.
  induction lines as [|l lines IH]; cbn [stream_of]; simpl; [lia|].
  rewrite length_app. simpl. lia.
Qed.

Lemma parse_all_stream stack garbage lines last :
  all_lines lines = true -> no_newline last = true ->
  parse_all stack garbage (stream_of lines last) =
  let s := after_lines stack garbage lines (init_matchv garbage) in
  Some (put_slot (out_m (parse_next_match stack last (slot garbage s))) s).
Proof.
  intros H Hlast. unfold parse_all.
  apply parse_loop_stream; try assumption.
  pose proof (length_stream_of lines last). lia.
Qed.

(** ** The store between two calls of the parser *)

Lemma reachable_bounds stack garbage p s :
  reachable stack garbage p s ->
  (matchc s <= matcha s)%nat /\
  length (matchv s) = matcha s /\
  (p <> AtResize -> (matchc s < matcha s)%nat).
Proof.
  induction 1 as [|s Hs IH|s fp Hs IH Hrc|s fp Hs IH Hrc].
  - repeat split; simpl; try lia. congruence.
  - destruct IH as (Hle & Hlen & _). unfold resize_matchv.
    destruct (Nat.eqb_spec (matchc s) (matcha s)) as [E|E]; cbn [matchc matcha matchv].
    + rewrite length_app, length_replicate. unfold MATCH_CHUNK_LEN. lia.
    + repeat split; lia.
  - destruct IH as (Hle & Hlen & Hlt). specialize (Hlt ltac:(discriminate)).
    unfold count_match, put_slot. cbn [matchc matcha matchv].
    rewrite length_insert.
    destruct (_ =? 0); repeat split; try lia; congruence.
  - destruct IH as (Hle & Hlen & Hlt). specialize (Hlt ltac:(discriminate)).
    unfold put_slot. cbn [matchc matcha matchv]. rewrite length_insert.
    repeat split; lia.
Qed.

Lemma parse_loop_reachable stack garbage fuel fp s s' :
  reachable stack garbage AtParse s ->
  parse_loop stack garbage fuel fp s = Some s' ->
  reachable stack garbage AfterLoop s'.
Proof.
  revert fp s. induction fuel as [|fuel IH]; intros fp s Hs H; [discriminate|].
  cbn [parse_loop] in H.
  destruct (Z.eqb_spec (rc (parse_next_match stack fp (slot garbage s))) EOF) as [E|E].
  - inversion H. now apply reach_end.
  - eapply IH; [|exact H]. apply reach_resize. now apply reach_body.
Qed.

(** ** Decimal digits and [atoi] *)

Lemma code_digit_byte d : 0 <= d < 10 -> code (digit_byte d) = 48 + d.
Proof.
  intros H.
  assert (d = 0 \/ d = 1 \/ d = 2 \/ d = 3 \/ d = 4 \/
          d = 5 \/ d = 6 \/ d = 7 \/ d = 8 \/ d = 9) as E by lia.
  repeat (destruct E as [-> | E]; [reflexivity|]). subst. reflexivity.
Qed.

Lemma accumulate_render fuel v acc :
  0 <= v < 10 ^ Z.of_nat fuel ->
  accumulate (map code (render_digits fuel v acc)) 0 = accumulate (map code acc) v.
Proof.
  revert v acc. induction fuel as [|fuel IH]; intros v acc Hv.
  - simpl in Hv. assert (v = 0) by lia. subst. reflexivity.
  - cbn [render_digits].
    assert (Hd : 0 <= v mod 10 < 10) by (apply Z.mod_pos_bound; lia).
    assert (Hdiv : v = 10 * (v / 10) + v mod 10) by (apply Z.div_mod; lia).
    assert (Hdigit : isdigit (48 + v mod 10) = true) by (unfold isdigit; lia).
    destruct (Z.eqb_spec (v / 10) 0) as [E|E].
    + cbn [map accumulate]. rewrite code_digit_byte, Hdigit by assumption.
      f_equal. lia.
    + rewrite IH.
      * cbn [map accumulate]. rewrite code_digit_byte, Hdigit by assumption.
        f_equal. lia.
      * rewrite Nat2Z.inj_succ, Z.pow_succ_r in Hv by lia.
        split; [apply Z.div_pos; lia|]. apply Z.div_lt_upper_bound; lia.
Qed.

Lemma length_render_digits fuel v acc :
  (length (render_digits fuel v acc) <= fuel + length acc)%nat.
Proof.
  revert v acc. induction fuel as [|fuel IH]; intros v acc; cbn [render_digits].
  - lia.
  - destruct (v / 10 =? 0); [simpl; lia|].
    etransitivity; [apply IH|]. simpl. lia.
Qed.

Lemma render_digits_digits fuel v acc :
  forallb (fun b => isdigit (code b)) acc = true ->
  forallb (fun b => isdigit (code b)) (render_digits fuel v acc) = true.
Proof.
  revert v acc. induction fuel as [|fuel IH]; intros v acc Hacc; cbn [render_digits].
  - assumption.
  - assert (Hd : 0 <= v mod 10 < 10) by (apply Z.mod_pos_bound; lia).
    assert (Hb : isdigit (code (digit_byte (v mod 10))) = true).
    { rewrite code_digit_byte by assumption. unfold isdigit. lia. }
    destruct (v / 10 =? 0); [|apply IH]; cbn [forallb]; now rewrite Hb.
Qed.

Lemma render_digits_nonempty fuel v acc :
  acc <> [] \/ fuel <> O -> render_digits fuel v acc <> [].
Proof.
  revert v acc. induction fuel as [|fuel IH]; intros v acc H; cbn [render_digits].
  - destruct H; [assumption|contradiction].
  - destruct (v / 10 =? 0); [discriminate|]. apply IH. left. discriminate.
Qed.

Lemma render_line_printable v : printable_text (render_line v) = true.
Proof.
  unfold printable_text, render_line.
  apply (forallb_weaken (fun b => isdigit (code b))).
  - intros b H. unfold isdigit in H. unfold isprint, SEPARATOR. lia.
  - now apply render_digits_digits.
Qed.

Lemma accumulate_nonneg s acc : 0 <= acc -> 0 <= accumulate s acc.
Proof.
  revert acc. induction s as [|c s IH]; intros acc H; cbn [accumulate]; [assumption|].
  destruct (isdigit c) eqn:E; [|assumption].
  apply IH. unfold isdigit in E. lia.
Qed.

Lemma magnitude_nonneg s : 0 <= magnitude s.
Proof.
  unfold magnitude.
  destruct (skip_space s) as [|c t]; [simpl; lia|].
  destruct c as [|p|p]; try (apply accumulate_nonneg; lia).
  do 6 (destruct p; try (apply accumulate_nonneg; lia)).
Qed.

Lemma strtol10_digits s :
  s <> [] -> forallb isdigit s = true ->
  strtol10 s = Z.max LONG_MIN (Z.min LONG_MAX (accumulate s 0)).
Proof.
  intros Hne Hs. unfold strtol10, negative, magnitude.
  destruct s as [|c s]; [contradiction|].
  cbn [forallb] in Hs. apply andb_prop in Hs as [Hc Hs].
  assert (Hrange : 48 <= c <= 57) by (unfold isdigit in Hc; lia).
  assert (Hsp : isspace c = false) by (unfold isspace; lia).
  cbn [skip_space]. rewrite Hsp.
  destruct c as [|p|p]; try reflexivity.
  do 6 (destruct p; try reflexivity); lia.
Qed.

Lemma atoi_render v :
  0 <= v <= INT_MAX ->
  to_int (strtol10 (map code (render_line v))) = v.
Proof.
  intros Hv. unfold INT_MAX in Hv.
  rewrite strtol10_digits.
  - unfold render_line. rewrite accumulate_render by (simpl; lia).
    cbn [map accumulate]. unfold LONG_MIN, LONG_MAX, to_int.
    rewrite Z.min_r, Z.max_r by lia.
    rewrite Z.mod_small by lia. lia.
  - intros E. apply map_eq_nil in E. revert E.
    apply render_digits_nonempty. right. discriminate.
  - rewrite forallb_map_compose. apply (render_digits_digits 10 v []). reflexivity.
Qed.

Lemma sanitize_printable l :
  forallb (fun b => isprint (code b)) l = true -> sanitize l = map code l.
Proof.
  unfold sanitize. induction l as [|b l IH]; cbn [forallb flat_map map]; [reflexivity|].
  intros H. apply andb_prop in H as [Hb Hl].
  rewrite IH by assumption. unfold expand. now rewrite Hb.
Qed.

Lemma printable_text_isprint l :
  printable_text l = true -> forallb (fun b => isprint (code b)) l = true.
Proof. apply forallb_weaken. intros b H. now apply andb_prop in H as [-> _]. Qed.

Lemma length_sanitize_printable l :
  printable_text l = true -> length (sanitize l) = length l.
Proof.
  intros H. rewrite sanitize_printable by now apply printable_text_isprint.
  apply length_map.
Qed.

(** ** Every stream is a sequence of lines *)

Lemma code_inj b1 b2 : code b1 = code b2 -> b1 = b2.
Proof.
  unfold code. intros H. apply N2Z.inj in H.
  pose proof (Byte.of_to_N b1) as H1. pose proof (Byte.of_to_N b2) as H2.
  rewrite H in H1. congruence.
Qed.

Lemma code_newline b : code b = NEWLINE -> b = x0a.
Proof. intros H. now apply code_inj. Qed.

Lemma code_separator b : code b = SEPARATOR -> b = x3a.
Proof. intros H. now apply code_inj. Qed.

Lemma stream_lines fp :
  exists lines last,
    fp = stream_of lines last /\ all_lines lines = true /\ no_newline last = true.
Proof.
  induction fp as [|b fp (lines & last & -> & Hl & Hlast)].
  - exists [], []. repeat split.
  - destruct (Z.eqb_spec (code b) NEWLINE) as [E|E].
    + apply code_newline in E. subst b.
      exists ([] :: lines), last. repeat split; assumption.
    + destruct lines as [|l lines].
      * exists [], (b :: last). repeat split. cbn [no_newline forallb].
        fold (no_newline last). rewrite Hlast.
        destruct (Z.eqb_spec (code b) NEWLINE); [contradiction|reflexivity].
      * exists ((b :: l) :: lines), last. repeat split; [|assumption].
        cbn [all_lines forallb] in *. apply andb_prop in Hl as [Hl Hls].
        rewrite Hls, andb_true_r. cbn [no_newline forallb].
        fold (no_newline l). rewrite Hl.
        destruct (Z.eqb_spec (code b) NEWLINE); [contradiction|reflexivity].
Qed.

(** A line with a separator splits at its first separator. *)
Lemma first_separator l :
  no_newline l = true -> (1 <= separators l)%nat ->
  exists f t, l = f ++ x3a :: t /\ field_text f = true /\
              no_newline t = true /\ separators l = S (separators t).
Proof.
  induction l as [|b l IH]; intros Hnl Hsep; [simpl in Hsep; lia|].
  cbn [no_newline forallb] in Hnl. apply andb_prop in Hnl as [Hb Hl].
  cbn [separators] in *.
  destruct (Z.eqb_spec (code b) SEPARATOR) as [E|E].
  - apply code_separator in E. subst b.
    exists [], l. repeat split. exact Hl.
  - destruct (IH Hl ltac:(lia)) as (f & t & -> & Hf & Ht & Hs).
    exists (b :: f), t. repeat split; try assumption.
    cbn [field_text forallb]. fold (field_text f). rewrite Hf, Hb.
    destruct (Z.eqb_spec (code b) SEPARATOR); [contradiction|reflexivity].
Qed.

(** The calls that return [SUCCESS] are the calls on a stream that starts
    with a line of three fields. *)
Lemma success_shape stack fp m0 :
  rc (parse_next_match stack fp m0) = SUCCESS ->
  exists f n d rest,
    fp = f ++ x3a :: n ++ x3a :: d ++ x0a :: rest /\
    field_text f = true /\ field_text n = true /\ no_newline d = true.
Proof.
  intros Hrc.
  destruct (stream_lines fp) as (lines & last & -> & Hl & Hlast).
  destruct lines as [|l lines].
  - cbn [stream_of] in Hrc. destruct (rc_eof stack last m0 Hlast) as [E _].
    rewrite E in Hrc. discriminate.
  - cbn [stream_of all_lines forallb] in *. apply andb_prop in Hl as [Hl _].
    destruct (rc_newline stack l (stream_of lines last) m0 Hl) as [E _].
    rewrite E in Hrc.
    destruct (Nat.leb_spec 2 (separators l)) as [H2|H2]; [|discriminate].
    destruct (first_separator l Hl ltac:(lia)) as (f & t & -> & Hf & Ht & Hs).
    destruct (first_separator t Ht ltac:(lia)) as (n & d & -> & Hn & Hd & _).
    exists f, n, d, (stream_of lines last). repeat split; try assumption.
    rewrite <- !app_assoc. cbn [app]. rewrite <- app_assoc. reflexivity.
Qed.



(** ** A line of three fields, in terms of its text *)

Lemma length_reset arr : arr <> [] -> length (NUL :: tail arr) = length arr.
Proof. destruct arr; [contradiction|reflexivity]. Qed.

Lemma nonempty_of_length {A} (l : list A) n : length l = S n -> l <> [].
Proof. destruct l; [discriminate|discriminate]. Qed.

Lemma parse_line_text stack m0 f n d rest :
  well_formed stack m0 ->
  field_text f = true -> field_text n = true -> no_newline d = true ->
  let o := parse_next_match stack (f ++ x3a :: n ++ x3a :: d ++ x0a :: rest) m0 in
  rc o = SUCCESS /\ out_fp o = rest /\
  cstr (filepath (out_m o)) = take (MATCH_PATH_LEN - 1) (sanitize f) /\
  cstr (out_line_num_buf o) = take (LINE_NUM_BUF_LEN - 1) (sanitize n) /\
  cstr (description (out_m o)) = take (MATCH_DESCRIPTION_LEN - 1) (sanitize d) /\
  line (out_m o) = to_int (strtol10 (take (LINE_NUM_BUF_LEN - 1) (sanitize n))) /\
  out_overrun o =
    (if (length (sanitize f) <? MATCH_PATH_LEN)%nat then []
     else [(Filepath, MATCH_PATH_LEN)]) ++
    (if (length (sanitize n) <? LINE_NUM_BUF_LEN)%nat then []
     else [(LineNumBuf, LINE_NUM_BUF_LEN)]) ++
    (if (length (sanitize d) <? MATCH_DESCRIPTION_LEN)%nat then []
     else [(Description, MATCH_DESCRIPTION_LEN)]).
Proof.
  intros Hwf Hf Hn Hd o. subst o. rewrite parse_line by assumption.
  destruct Hwf as (Hfp & Hst & Hde). cbn [rc out_fp out_m out_line_num_buf
    out_overrun filepath line description].
  assert (N1 : filepath m0 <> []) by exact (nonempty_of_length _ _ Hfp).
  assert (N2 : stack <> []) by exact (nonempty_of_length _ _ Hst).
  assert (N3 : description m0 <> []) by exact (nonempty_of_length _ _ Hde).
  assert (R2 : length (NUL :: tail stack) = LINE_NUM_BUF_LEN)
    by (now rewrite length_reset).
  assert (R3 : length (NUL :: tail (description m0)) = MATCH_DESCRIPTION_LEN)
    by (now rewrite length_reset).
  unfold atoi.
  rewrite !cstr_finish_field, !spill_field by (assumption || discriminate).
  rewrite Hfp, R2, R3. repeat split; reflexivity.
Qed.

Lemma dirty_well_formed : well_formed dirty_stack dirty_match.
Proof. repeat split. Qed.

(** The scenarios of the specification. *)
Example scenario_success :
  let o := parse_next_match dirty_stack (bytes "/a/b.c:10:hello world" ++ [x0a])
             dirty_match in
  rc o = SUCCESS /\
  cstr (filepath (out_m o)) = map code (bytes "/a/b.c") /\
  line (out_m o) = 10 /\
  cstr (description (out_m o)) = map code (bytes "hello world").
Proof. vm_compute. repeat split. Qed.

Example scenario_malformed :
  rc (parse_next_match dirty_stack (bytes "/a/b.c hello" ++ [x0a]) dirty_match)
    = MALFORMED /\
  matchc <$> parse_all dirty_stack dirty_match (bytes "/a/b.c hello" ++ [x0a])
    = Some O.
Proof. vm_compute. split; reflexivity. Qed.

(** ** The line a call reads and the fields it closes *)

Lemma first_line_some fp l rest :
  first_line fp = Some (l, rest) -> fp = l ++ x0a :: rest /\ no_newline l = true.
Proof.
  revert l rest. induction fp as [|b fp IH]; intros l rest H; [discriminate|].
  cbn [first_line] in H.
  destruct (Z.eqb_spec (code b) NEWLINE) as [E|E].
  - inversion H; subst. apply code_newline in E. subst b. split; reflexivity.
  - destruct (first_line fp) as [[l' rest']|]; [|discriminate].
    inversion H; subst. destruct (IH l' rest eq_refl) as [-> Hl].
    split; [reflexivity|]. cbn [no_newline forallb]. fold (no_newline l'). rewrite Hl.
    destruct (Z.eqb_spec (code b) NEWLINE); [contradiction|reflexivity].
Qed.

Lemma first_line_none fp : first_line fp = None -> no_newline fp = true.
Proof.
  induction fp as [|b fp IH]; intros H; [reflexivity|].
  cbn [first_line] in H.
  destruct (Z.eqb_spec (code b) NEWLINE) as [E|E]; [discriminate|].
  destruct (first_line fp) as [[l' rest']|]; [discriminate|].
  cbn [no_newline forallb]. fold (no_newline fp). rewrite IH by reflexivity.
  destruct (Z.eqb_spec (code b) NEWLINE); [contradiction|reflexivity].
Qed.








(** * The claims *)

(** ** C1: bounds and termination of the field buffers *)



(** The fields closed on the stream [a:5:x], with and without a newline
    at its end, and the store a filepath of 256 letters brings even when the
    stream ends right after the separator that closes it. *)
Example closed_fields_sample :
  closed_fields (bytes "a:5:x") =
    [(Filepath, bytes "a"); (LineNumBuf, bytes "5")] /\
  closed_fields (bytes "a:5:x" ++ [x0a] ++ bytes "b") =
    [(Filepath, bytes "a"); (LineNumBuf, bytes "5"); (Description, bytes "x")] /\
  closed_fields (bytes "a:5") = [(Filepath, bytes "a")] /\
  closed_fields (bytes "a") = [] /\
  out_overrun (parse_next_match dirty_stack (bytes "a:5:x") dirty_match) = [] /\
  out_overrun (parse_next_match dirty_stack
                 (replicate 300 x78 ++ bytes ":5:" ++ replicate 300 x78)
                 dirty_match)
    = [(Filepath, MATCH_PATH_LEN)].
Proof. vm_compute. repeat split. Qed.


(** ** C2: truncation of a field that is too long *)

(** Sanitizing never shortens a text: a field whose source text exceeds the
    bound has a sanitized text that exceeds it too. *)
Lemma length_sanitize_ge l : (length l <= length (sanitize l))%nat.
Proof.
  unfold sanitize. induction l as [|b l IH]; cbn [flat_map]; [reflexivity|].
  rewrite length_app. cbn [length].
  assert (1 <= length (expand (code b)))%nat; [|lia].
  unfold expand. destruct (isprint (code b)); [reflexivity|].
  destruct (code b =? TAB); simpl; lia.
Qed.

(** C2: on a line of three fields, a field whose sanitized text does not fit
    is stored as its first [bound - 1] characters followed by a terminator
    in the last byte of the array, the excess is dropped; the store that
    closes the field then lands one byte past the end of the array.  The
    claim of no overflow fails on every such line. *)
Theorem long_field_overrun stack m0 f n d rest :
  well_formed stack m0 ->
  field_text f = true -> field_text n = true -> no_newline d = true ->
  let o := parse_next_match stack (f ++ x3a :: n ++ x3a :: d ++ x0a :: rest) m0 in
  ((MATCH_PATH_LEN <= length (sanitize f))%nat ->
   filepath (out_m o) = take (MATCH_PATH_LEN - 1) (sanitize f) ++ [NUL] /\
   In (Filepath, MATCH_PATH_LEN) (out_overrun o)) /\
  ((LINE_NUM_BUF_LEN <= length (sanitize n))%nat ->
   out_line_num_buf o = take (LINE_NUM_BUF_LEN - 1) (sanitize n) ++ [NUL] /\
   In (LineNumBuf, LINE_NUM_BUF_LEN) (out_overrun o)) /\
  ((MATCH_DESCRIPTION_LEN <= length (sanitize d))%nat ->
   description (out_m o) = take (MATCH_DESCRIPTION_LEN - 1) (sanitize d) ++ [NUL] /\
   In (Description, MATCH_DESCRIPTION_LEN) (out_overrun o)).
Proof.
  intros Hwf Hf Hn Hd o.
  destruct (parse_line_text stack m0 f n d rest Hwf Hf Hn Hd)
    as (_ & _ & _ & _ & _ & _ & Hov).
  fold o in Hov. rewrite Hov. clear Hov.
  subst o. rewrite parse_line by assumption.
  destruct Hwf as (Hfp & Hst & Hde).
  cbn [out_m out_line_num_buf filepath description].
  assert (N1 : filepath m0 <> []) by exact (nonempty_of_length _ _ Hfp).
  assert (N2 : stack <> []) by exact (nonempty_of_length _ _ Hst).
  assert (N3 : description m0 <> []) by exact (nonempty_of_length _ _ Hde).
  assert (R2 : length (NUL :: tail stack) = LINE_NUM_BUF_LEN)
    by (now rewrite length_reset).
  assert (R3 : length (NUL :: tail (description m0)) = MATCH_DESCRIPTION_LEN)
    by (now rewrite length_reset).
  rewrite !finish_field by (assumption || discriminate).
  rewrite Hfp, R2, R3.
  split; [|split]; intros L; apply Nat.ltb_ge in L; rewrite L;
    (split; [reflexivity|]); rewrite !in_app_iff; simpl; tauto.
Qed.

Lemma long_field_overrun_witness :
  well_formed dirty_stack dirty_match /\
  field_text (bytes "a") = true /\ field_text (bytes "1") = true /\
  no_newline (replicate 257 x78) = true /\
  (MATCH_DESCRIPTION_LEN <= length (sanitize (replicate 257 x78)))%nat /\
  let o := parse_next_match dirty_stack
             (bytes "a" ++ x3a :: bytes "1" ++ x3a :: replicate 257 x78 ++ x0a :: [])
             dirty_match in
  description (out_m o) =
    take (MATCH_DESCRIPTION_LEN - 1) (sanitize (replicate 257 x78)) ++ [NUL] /\
  In (Description, MATCH_DESCRIPTION_LEN) (out_overrun o).
Proof.
  assert (L : (MATCH_DESCRIPTION_LEN <= length (sanitize (replicate 257 x78)))%nat)
    by (apply Nat.leb_le; vm_compute; reflexivity).
  split; [exact dirty_well_formed|].
  split; [reflexivity|]. split; [reflexivity|]. split; [reflexivity|].
  split; [exact L|].
  exact (proj2 (proj2 (long_field_overrun dirty_stack dirty_match
                         (bytes "a") (bytes "1") (replicate 257 x78) []
                         dirty_well_formed eq_refl eq_refl eq_refl)) L).
Defined.

(** The shortest such lines: 256 letters without separator close the
    filepath one byte past its end, and a description of 256 letters does
    the same to the description. *)
Example overrun_at_256 :
  out_overrun (parse_next_match dirty_stack (replicate 256 x61 ++ [x0a]) dirty_match)
    = [(Filepath, 256%nat)] /\
  out_overrun (parse_next_match dirty_stack
                 (bytes "a:1:" ++ replicate 256 x78 ++ [x0a]) dirty_match)
    = [(Description, 256%nat)] /\
  out_overrun (parse_next_match dirty_stack
                 (bytes "a:1:" ++ replicate 255 x78 ++ [x0a]) dirty_match)
    = [].
Proof. vm_compute. repeat split. Qed.

(** ** C3: a malformed line is skipped *)

(** C3: a line with fewer than two separators before its newline makes the
    parser return [MALFORMED] with the stream positioned after the newline;
    the loop of [build_menu] goes on with the rest of the stream from a
    store whose count is unchanged, and over a whole stream such a line
    adds nothing to the count while the lines after it are still counted. *)
Theorem malformed_line_skipped stack garbage l rest :
  no_newline l = true -> (separators l < 2)%nat ->
  (forall m0,
     rc (parse_next_match stack (l ++ x0a :: rest) m0) = MALFORMED /\
     out_fp (parse_next_match stack (l ++ x0a :: rest) m0) = rest) /\
  (forall fuel s,
     parse_loop stack garbage (S fuel) (l ++ x0a :: rest) s =
     parse_loop stack garbage fuel rest (after_line stack garbage l s) /\
     matchc (after_line stack garbage l s) = matchc s) /\
  (forall before after last,
     all_lines before = true -> all_lines after = true ->
     no_newline last = true ->
     exists s,
       parse_all stack garbage (stream_of (before ++ l :: after) last) = Some s /\
       matchc s = (successes before + successes after)%nat).
Proof.
  intros Hl Hsep.
  assert (Hlt : (2 <=? separators l)%nat = false) by (apply Nat.leb_gt; lia).
  split; [|split].
  - intros m0. destruct (rc_newline stack l rest m0 Hl) as [Hrc Hfp].
    rewrite Hrc, Hfp, Hlt. split; reflexivity.
  - intros fuel s. split; [now apply parse_loop_line|].
    rewrite matchc_after_line, Hlt by assumption. lia.
  - intros before after last Hb Ha Hlast.
    assert (Hall : all_lines (before ++ l :: after) = true).
    { unfold all_lines in *. rewrite forallb_app. cbn [forallb].
      now rewrite Hb, Hl, Ha. }
    rewrite parse_all_stream by assumption. cbv zeta.
    eexists; split; [reflexivity|].
    unfold put_slot. cbn [matchc].
    rewrite matchc_after_lines by assumption.
    assert (Hs : forall xs, successes (xs ++ l :: after) =
                            (successes xs + successes after)%nat).
    { induction xs as [|x xs IH]; cbn [app successes].
      - now rewrite Hlt.
      - rewrite IH. lia. }
    rewrite Hs. reflexivity.
Qed.

Lemma malformed_line_skipped_witness :
  no_newline (bytes "/a/b.c hello") = true /\
  (separators (bytes "/a/b.c hello") < 2)%nat /\
  forall m0,
    rc (parse_next_match dirty_stack (bytes "/a/b.c hello" ++ x0a :: bytes "a:1:b")
          m0) = MALFORMED /\
    out_fp (parse_next_match dirty_stack (bytes "/a/b.c hello" ++ x0a :: bytes "a:1:b")
              m0) = bytes "a:1:b".
Proof.
  split; [reflexivity|]. split; [vm_compute; lia|].
  apply (malformed_line_skipped dirty_stack dirty_match
           (bytes "/a/b.c hello") (bytes "a:1:b")); [reflexivity|vm_compute; lia].
Defined.

(** ** C4: the exit status when no record was parsed *)

Lemma parse_all_count stack garbage lines last :
  all_lines lines = true -> no_newline last = true ->
  exists s,
    parse_all stack garbage (stream_of lines last) = Some s /\
    matchc s = successes lines.
Proof.
  intros H Hlast. rewrite parse_all_stream by assumption. cbv zeta.
  eexists; split; [reflexivity|].
  unfold put_slot. cbn [matchc]. rewrite matchc_after_lines by assumption.
  unfold init_matchv, resize_matchv. reflexivity.
Qed.

(** C4: when no line of the stream yields a record, [build_menu] leaves the
    program with the exit status of the producer: status 1 with the message
    that there are no matches when the producer exited 1, status 0 with the
    message about the numbering option when it exited 0, and the producer's
    status without any message otherwise. *)
Theorem zero_matches_exit stack garbage lines last status :
  all_lines lines = true -> no_newline last = true ->
  successes lines = O ->
  exists stderr,
    build_menu stack garbage (stream_of lines last) (Some status) =
      Some (Exit (WEXITSTATUS status) stderr) /\
    (WEXITSTATUS status = 1 -> stderr = [NoMatches]) /\
    (WEXITSTATUS status = 0 -> stderr = [UnableToParse]) /\
    (WEXITSTATUS status <> 0 -> WEXITSTATUS status <> 1 -> stderr = []).
Proof.
  intros H Hlast Hzero.
  destruct (parse_all_count stack garbage lines last H Hlast) as (s & Hs & Hc).
  unfold build_menu. rewrite Hs, Hc, Hzero. cbn [Nat.eqb].
  eexists; split; [reflexivity|].
  destruct (Z.eqb_spec (WEXITSTATUS status) 0) as [E0|E0];
    [|destruct (Z.eqb_spec (WEXITSTATUS status) 1) as [E1|E1]];
    repeat split; intros; try reflexivity; congruence.
Qed.

Lemma zero_matches_exit_witness :
  all_lines [bytes "/a/b.c hello"] = true /\ no_newline [] = true /\
  successes [bytes "/a/b.c hello"] = O /\
  exists stderr,
    build_menu dirty_stack dirty_match (stream_of [bytes "/a/b.c hello"] [])
      (Some 256) = Some (Exit (WEXITSTATUS 256) stderr) /\
    (WEXITSTATUS 256 = 1 -> stderr = [NoMatches]) /\
    (WEXITSTATUS 256 = 0 -> stderr = [UnableToParse]) /\
    (WEXITSTATUS 256 <> 0 -> WEXITSTATUS 256 <> 1 -> stderr = []).
Proof.
  split; [reflexivity|]. split; [reflexivity|]. split; [reflexivity|].
  apply (zero_matches_exit dirty_stack dirty_match [bytes "/a/b.c hello"] [] 256);
    reflexivity.
Defined.

(** The two scenarios of the specification: a producer that found nothing,
    and a producer whose output does not parse. *)
Example scenario_no_matches :
  build_menu dirty_stack dirty_match [] (Some 256) = Some (Exit 1 [NoMatches]).
Proof. reflexivity. Qed.

Example scenario_unable_to_parse :
  build_menu dirty_stack dirty_match (bytes "/a/b.c hello" ++ [x0a]) (Some 0)
  = Some (Exit 0 [UnableToParse]).
Proof. vm_compute. reflexivity. Qed.

(** ** C5: replacement of non-printable characters *)

(** C5, as stated, does not hold: the newline is a non-printable character
    other than the tab, and the loop body does not hand a placeholder to the
    inner loop for it; it closes the buffer and leaves the loop. *)
Lemma newline_is_not_replaced :
  ~ (forall ch s, 0 <= ch < 256 -> isprint ch = false -> ch <> TAB ->
       body ch s = Continue (append 1 NONPRINT_REPL s)).
Proof.
  intros H.
  specialize (H NEWLINE (entry_state dirty_stack dirty_match)).
  rewrite body_newline in H.
  discriminate H; [unfold NEWLINE; lia|reflexivity|discriminate].
Qed.

Lemma array_get_with_field a p s : array_get a (with_field a p s) = p.1 ++ p.2.
Proof. destruct a; reflexivity. Qed.

Lemma buffer_with_field a p s : buffer (with_field a p s) = (a, length p.1).
Proof. destruct a; reflexivity. Qed.

Lemma buffer_avail_with_field a p s : buffer_avail (with_field a p s) = length p.2.
Proof. destruct a; reflexivity. Qed.

(** The inner loop when the characters fit and leave the last byte of the
    array free: they are written at the pointer, which moves past them. *)
Lemma append_room n c s a i :
  buffer s = (a, i) ->
  (i + buffer_avail s)%nat = sizeof a ->
  length (array_get a s) = sizeof a ->
  (n < buffer_avail s)%nat ->
  array_get a (append n c s) =
    take i (array_get a s) ++ replicate n c ++ drop (i + n) (array_get a s) /\
  buffer (append n c s) = (a, (i + n)%nat) /\
  buffer_avail (append n c s) = (buffer_avail s - n)%nat.
Proof.
  intros Hb Hk Hlen Hn.
  destruct (as_with_field s a i Hb Hk Hlen) as [Hs Hfit].
  set (arr := array_get a s) in *.
  assert (E : append n c s =
              with_field a (take i arr ++ replicate n c, drop (i + n) arr) s).
  { rewrite append_replicate.
    transitivity (append_list (replicate n c) (with_field a (take i arr, drop i arr) s)).
    - now rewrite <- Hs.
    - rewrite append_list_with_field by assumption.
      rewrite push_closed, length_replicate, length_drop.
      fold arr in Hlen. rewrite Hlen.
      assert (Hlt : (n <? sizeof a - i)%nat = true) by (apply Nat.ltb_lt; lia).
      rewrite Hlt, drop_drop. reflexivity. }
  rewrite E, array_get_with_field, buffer_with_field, buffer_avail_with_field.
  cbn [fst snd]. rewrite <- app_assoc, length_app, length_take, length_replicate,
    length_drop.
  fold arr in Hlen. rewrite Hlen.
  split; [reflexivity|]. split; [f_equal; lia|lia].
Qed.

(** C5, amended: for every non-printable character other than the tab and
    the newline the loop body hands exactly one placeholder to the inner
    loop, and for a tab exactly [TAB_STOP] blanks; capacity permitting, that
    is when they leave the last byte of the buffer free, they are appended
    to the current field buffer as they are. *)
Theorem nonprintable_replaced ch s a i :
  isprint ch = false -> ch <> NEWLINE ->
  buffer s = (a, i) ->
  (i + buffer_avail s)%nat = sizeof a ->
  length (array_get a s) = sizeof a ->
  let count := if ch =? TAB then TAB_STOP else 1%nat in
  let repl := if ch =? TAB then TAB_REPL else NONPRINT_REPL in
  body ch s = Continue (append count repl s) /\
  ((count < buffer_avail s)%nat ->
   array_get a (append count repl s) =
     take i (array_get a s) ++ replicate count repl ++
     drop (i + count) (array_get a s) /\
   buffer (append count repl s) = (a, (i + count)%nat) /\
   buffer_avail (append count repl s) = (buffer_avail s - count)%nat).
Proof.
  intros Hp Hnl Hb Hk Hlen count repl. split.
  - unfold body, count, repl.
    destruct (Z.eqb_spec ch SEPARATOR) as [E|_];
      [rewrite E in Hp; discriminate|].
    destruct (Z.eqb_spec ch NEWLINE) as [E|_]; [contradiction|].
    rewrite Hp. cbn [negb]. destruct (ch =? TAB); reflexivity.
  - intros Hroom. now apply append_room.
Qed.

Lemma nonprintable_replaced_witness :
  isprint 7 = false /\ 7 <> NEWLINE /\
  buffer (entry_state dirty_stack dirty_match) = (Filepath, O) /\
  (0 + buffer_avail (entry_state dirty_stack dirty_match))%nat = sizeof Filepath /\
  length (array_get Filepath (entry_state dirty_stack dirty_match)) = sizeof Filepath /\
  body 7 (entry_state dirty_stack dirty_match) =
    Continue (append 1 NONPRINT_REPL (entry_state dirty_stack dirty_match)) /\
  isprint TAB = false /\ TAB <> NEWLINE /\
  body TAB (entry_state dirty_stack dirty_match) =
    Continue (append TAB_STOP TAB_REPL (entry_state dirty_stack dirty_match)).
Proof.
  split; [reflexivity|]. split; [discriminate|].
  split; [reflexivity|]. split; [reflexivity|]. split; [reflexivity|].
  split.
  - apply (nonprintable_replaced 7 (entry_state dirty_stack dirty_match) Filepath O);
      [reflexivity|discriminate|reflexivity|reflexivity|reflexivity].
  - split; [reflexivity|]. split; [discriminate|].
    apply (nonprintable_replaced TAB (entry_state dirty_stack dirty_match) Filepath O);
      [reflexivity|discriminate|reflexivity|reflexivity|reflexivity].
Defined.

(** A bell character and a tab in a description. *)
Example scenario_sanitized :
  cstr (description (out_m (parse_next_match dirty_stack
          (bytes "a:1:x" ++ [x07; x09] ++ bytes "y" ++ [x0a]) dirty_match)))
  = map code (bytes "x.    y").
Proof. vm_compute. reflexivity. Qed.

(** ** C6: round trip through the wire format *)

(** C6: a record whose filepath and description are printable, free of the
    separator and shorter than their bounds, and whose line number is a
    non-negative [int] rendered in decimal digits, is read back from its
    wire format with [SUCCESS] and with exactly its filepath, line number
    and description; the stream is left after the newline and every store
    stays inside its buffer. *)
Theorem roundtrip stack m0 path v descr rest :
  well_formed stack m0 ->
  printable_text path = true -> printable_text descr = true ->
  (length path < MATCH_PATH_LEN)%nat ->
  (length descr < MATCH_DESCRIPTION_LEN)%nat ->
  0 <= v <= INT_MAX ->
  let o := parse_next_match stack (serialize path v descr ++ rest) m0 in
  rc o = SUCCESS /\
  cstr (filepath (out_m o)) = map code path /\
  line (out_m o) = v /\
  cstr (description (out_m o)) = map code descr /\
  out_fp o = rest /\
  out_overrun o = [].
Proof.
  intros Hwf Hp Hd Lp Ld Hv o.
  assert (E : serialize path v descr ++ rest =
              path ++ x3a :: render_line v ++ x3a :: descr ++ x0a :: rest).
  { unfold serialize. rewrite <- !app_assoc. cbn [app].
    rewrite <- !app_assoc. cbn [app]. rewrite <- !app_assoc. reflexivity. }
  pose proof (render_line_printable v) as Hr.
  pose proof (length_render_digits 10 v []) as Lr. fold (render_line v) in Lr.
  simpl in Lr.
  destruct (parse_line_text stack m0 path (render_line v) descr rest Hwf)
    as (Hrc & Hfp & Hf & _ & Hde & Hline & Hov);
    [now apply printable_field_text | now apply printable_field_text
    |now apply field_text_no_newline, printable_field_text|].
  subst o. rewrite E.
  rewrite Hrc, Hfp, Hf, Hde, Hline, Hov.
  rewrite !length_sanitize_printable by assumption.
  rewrite !sanitize_printable by now apply printable_text_isprint.
  unfold MATCH_PATH_LEN, MATCH_DESCRIPTION_LEN, LINE_NUM_BUF_LEN in *.
  rewrite !take_ge by (rewrite length_map; lia).
  rewrite atoi_render by assumption.
  assert (L1 : (length path <? 256)%nat = true) by (apply Nat.ltb_lt; lia).
  assert (L2 : (length (render_line v) <? 32)%nat = true) by (apply Nat.ltb_lt; lia).
  assert (L3 : (length descr <? 256)%nat = true) by (apply Nat.ltb_lt; lia).
  rewrite L1, L2, L3. repeat split; reflexivity.
Qed.

Lemma roundtrip_witness :
  well_formed dirty_stack dirty_match /\
  printable_text (bytes "/a/b.c") = true /\
  printable_text (bytes "hello world") = true /\
  (length (bytes "/a/b.c") < MATCH_PATH_LEN)%nat /\
  (length (bytes "hello world") < MATCH_DESCRIPTION_LEN)%nat /\
  0 <= 10 <= INT_MAX /\
  let o := parse_next_match dirty_stack
             (serialize (bytes "/a/b.c") 10 (bytes "hello world") ++ [])
             dirty_match in
  rc o = SUCCESS /\
  cstr (filepath (out_m o)) = map code (bytes "/a/b.c") /\
  line (out_m o) = 10 /\
  cstr (description (out_m o)) = map code (bytes "hello world") /\
  out_fp o = [] /\
  out_overrun o = [].
Proof.
  assert (L1 : (length (bytes "/a/b.c") < MATCH_PATH_LEN)%nat)
    by (apply Nat.ltb_lt; reflexivity).
  assert (L2 : (length (bytes "hello world") < MATCH_DESCRIPTION_LEN)%nat)
    by (apply Nat.ltb_lt; reflexivity).
  assert (V : 0 <= 10 <= INT_MAX) by (unfold INT_MAX; lia).
  split; [exact dirty_well_formed|].
  split; [reflexivity|]. split; [reflexivity|].
  split; [exact L1|]. split; [exact L2|]. split; [exact V|].
  exact (roundtrip dirty_stack dirty_match (bytes "/a/b.c") 10
           (bytes "hello world") [] dirty_well_formed eq_refl eq_refl L1 L2 V).
Defined.

Example serialize_sample :
  serialize (bytes "/a/b.c") 10 (bytes "hello world")
  = bytes "/a/b.c:10:hello world" ++ [x0a].
Proof. reflexivity. Qed.

(** ** C7: separators inside the description *)

Lemma sanitize_app l1 l2 : sanitize (l1 ++ l2) = sanitize l1 ++ sanitize l2.
Proof. unfold sanitize. apply flat_map_app. Qed.

(** C7, as stated, does not hold for every line: the inner loop guards the
    capacity of the description, and a separator that arrives when 255
    characters are stored is dropped like any other character. *)
Lemma separator_dropped_when_full :
  ~ (forall stack m0 f n d1 d2 rest,
       well_formed stack m0 ->
       field_text f = true -> field_text n = true ->
       no_newline d1 = true -> no_newline d2 = true ->
       exists t,
         cstr (description (out_m (parse_next_match stack
                 (f ++ x3a :: n ++ x3a :: (d1 ++ x3a :: d2) ++ x0a :: rest) m0)))
         = sanitize d1 ++ SEPARATOR :: t).
Proof.
  intros H.
  destruct (H dirty_stack dirty_match (bytes "a") (bytes "1")
              (replicate 255 x78) [] [] dirty_well_formed
              eq_refl eq_refl eq_refl eq_refl) as [t Ht].
  apply (f_equal length) in Ht. vm_compute in Ht.
  revert Ht. generalize (length t). intros k Hk.
  apply (f_equal (fun x => Nat.leb x 255)) in Hk. vm_compute in Hk. discriminate.
Qed.

(** C7, amended: only the first two separators of a line are structural.
    Whatever separators the third field holds, the call returns [SUCCESS] at
    the newline and the filepath and the line-number text are the first two
    fields; in state 2 the loop body hands a separator to the inner loop as
    it is, like any printable character, so that the description is the
    sanitized third field with its separators, cut at 255 characters: all
    of them are in it when the field fits. *)
Theorem separators_in_description stack m0 f n d rest :
  well_formed stack m0 ->
  field_text f = true -> field_text n = true -> no_newline d = true ->
  let o := parse_next_match stack (f ++ x3a :: n ++ x3a :: d ++ x0a :: rest) m0 in
  rc o = SUCCESS /\ out_fp o = rest /\
  cstr (filepath (out_m o)) = take (MATCH_PATH_LEN - 1) (sanitize f) /\
  cstr (out_line_num_buf o) = take (LINE_NUM_BUF_LEN - 1) (sanitize n) /\
  cstr (description (out_m o)) = take (MATCH_DESCRIPTION_LEN - 1) (sanitize d) /\
  ((length (sanitize d) < MATCH_DESCRIPTION_LEN)%nat ->
   cstr (description (out_m o)) = sanitize d) /\
  (forall d1 d2, d = d1 ++ x3a :: d2 ->
     sanitize d = sanitize d1 ++ SEPARATOR :: sanitize d2) /\
  (forall s, state s = 2 -> body SEPARATOR s = Continue (append 1 SEPARATOR s)).
Proof.
  intros Hwf Hf Hn Hd o.
  destruct (parse_line_text stack m0 f n d rest Hwf Hf Hn Hd)
    as (Hrc & Hfp & Hf' & Hn' & Hd' & _ & _).
  fold o in Hrc, Hfp, Hf', Hn', Hd'.
  repeat split; try assumption.
  - intros L. rewrite Hd'. apply take_ge. unfold MATCH_DESCRIPTION_LEN in *. lia.
  - intros d1 d2 ->. now rewrite sanitize_app.
  - intros s Hs. unfold body. now rewrite Hs.
Qed.

Lemma separators_in_description_witness :
  well_formed dirty_stack dirty_match /\
  field_text (bytes "a") = true /\ field_text (bytes "1") = true /\
  no_newline (bytes "x:y::z") = true /\
  let o := parse_next_match dirty_stack
             (bytes "a" ++ x3a :: bytes "1" ++ x3a :: bytes "x:y::z" ++ x0a :: [])
             dirty_match in
  rc o = SUCCESS /\ out_fp o = [] /\
  cstr (filepath (out_m o)) = take (MATCH_PATH_LEN - 1) (sanitize (bytes "a")) /\
  cstr (out_line_num_buf o) = take (LINE_NUM_BUF_LEN - 1) (sanitize (bytes "1")) /\
  cstr (description (out_m o)) =
    take (MATCH_DESCRIPTION_LEN - 1) (sanitize (bytes "x:y::z")).
Proof.
  split; [exact dirty_well_formed|].
  split; [reflexivity|]. split; [reflexivity|]. split; [reflexivity|].
  destruct (separators_in_description dirty_stack dirty_match
              (bytes "a") (bytes "1") (bytes "x:y::z") []
              dirty_well_formed eq_refl eq_refl eq_refl)
    as (H1 & H2 & H3 & H4 & H5 & _).
  exact (conj H1 (conj H2 (conj H3 (conj H4 H5)))).
Defined.

Example scenario_separators :
  cstr (description (out_m (parse_next_match dirty_stack
          (bytes "a:1:x:y::z" ++ [x0a]) dirty_match)))
  = map code (bytes "x:y::z").
Proof. vm_compute. reflexivity. Qed.

(** ** C8: the sign of the line number *)

(** C8, as stated, does not hold: the line number is whatever [atoi] makes
    of the second field, and the line [a:-5:x] is parsed with [SUCCESS] into
    a record whose line is -5. *)
Lemma negative_line_parsed :
  ~ (forall stack fp m0,
       rc (parse_next_match stack fp m0) = SUCCESS ->
       0 <= line (out_m (parse_next_match stack fp m0))).
Proof.
  intros H.
  specialize (H dirty_stack (bytes "a:-5:x" ++ [x0a]) dirty_match).
  vm_compute in H. apply H; reflexivity.
Qed.

(** A line number beyond [INT_MAX] wraps around, with the C library the
    model follows. *)
Example overflowing_line_parsed :
  line (out_m (parse_next_match dirty_stack (bytes "a:2147483648:x" ++ [x0a])
                 dirty_match)) = -2147483648.
Proof. vm_compute. reflexivity. Qed.

Lemma to_int_small v : 0 <= v <= INT_MAX -> to_int v = v.
Proof.
  unfold INT_MAX, to_int. intros H. rewrite Z.mod_small by lia. lia.
Qed.

(** C8, amended: the line of a record produced by a [SUCCESS] parse is
    [atoi] of the line-number buffer, which holds the sanitized second field
    cut at its bound; it is not negative when that text, after leading
    blanks, carries no minus sign and the number it starts with is at most
    [INT_MAX]. *)
Theorem line_sign stack fp m0 :
  rc (parse_next_match stack fp m0) = SUCCESS ->
  let o := parse_next_match stack fp m0 in
  line (out_m o) = atoi (out_line_num_buf o) /\
  (negative (cstr (out_line_num_buf o)) = false ->
   magnitude (cstr (out_line_num_buf o)) <= INT_MAX ->
   0 <= line (out_m o)) /\
  (well_formed stack m0 ->
   forall f n d rest,
     fp = f ++ x3a :: n ++ x3a :: d ++ x0a :: rest ->
     field_text f = true -> field_text n = true -> no_newline d = true ->
     cstr (out_line_num_buf o) = take (LINE_NUM_BUF_LEN - 1) (sanitize n)).
Proof.
  intros Hrc o.
  assert (Hline : line (out_m o) = atoi (out_line_num_buf o)).
  { subst o. revert Hrc. unfold parse_next_match.
    destruct (scan fp (entry_state stack m0)) as [[ch s] fp'].
    destruct (state s =? 2); cbn [rc out_m out_line_num_buf line]; [reflexivity|].
    destruct (ch =? EOF); discriminate. }
  split; [exact Hline|]. split.
  - intros Hneg Hmag. rewrite Hline. unfold atoi, strtol10. rewrite Hneg.
    pose proof (magnitude_nonneg (cstr (out_line_num_buf o))) as H0.
    unfold INT_MAX, LONG_MIN, LONG_MAX in *.
    rewrite Z.min_r, Z.max_r by lia.
    rewrite to_int_small by (unfold INT_MAX; lia). exact H0.
  - intros Hwf f n d rest -> Hf Hn Hd.
    now destruct (parse_line_text stack m0 f n d rest Hwf Hf Hn Hd)
      as (_ & _ & _ & H & _).
Qed.

Lemma line_sign_witness :
  rc (parse_next_match dirty_stack (bytes "/a/b.c:10:hello world" ++ [x0a])
        dirty_match) = SUCCESS /\
  let o := parse_next_match dirty_stack (bytes "/a/b.c:10:hello world" ++ [x0a])
             dirty_match in
  line (out_m o) = atoi (out_line_num_buf o) /\
  (negative (cstr (out_line_num_buf o)) = false ->
   magnitude (cstr (out_line_num_buf o)) <= INT_MAX ->
   0 <= line (out_m o)).
Proof.
  assert (Hrc : rc (parse_next_match dirty_stack
                      (bytes "/a/b.c:10:hello world" ++ [x0a]) dirty_match) = SUCCESS)
    by (vm_compute; reflexivity).
  split; [exact Hrc|].
  destruct (line_sign dirty_stack (bytes "/a/b.c:10:hello world" ++ [x0a])
              dirty_match Hrc) as (H1 & H2 & _).
  exact (conj H1 H2).
Defined.

(** ** C9: count and capacity of the store *)

(** C9: in every store the loop of [build_menu] passes through, from the
    empty store [init_matchv] starts from to the store it leaves behind, the
    count is at most the capacity, which is the length of the array, and the
    count is below the capacity whenever the parser is called;
    [resize_matchv] adds [MATCH_CHUNK_LEN] to the capacity exactly when
    the count equals it, leaves it alone otherwise, and never changes the
    count; every run of the loop ends, in such a store. *)
Theorem store_capacity stack garbage :
  (forall p s, reachable stack garbage p s ->
     (matchc s <= matcha s)%nat /\ length (matchv s) = matcha s /\
     (p = AtParse -> (matchc s < matcha s)%nat)) /\
  (forall s,
     matcha (resize_matchv garbage s) =
       (if (matchc s =? matcha s)%nat then matcha s + MATCH_CHUNK_LEN
        else matcha s)%nat /\
     matchc (resize_matchv garbage s) = matchc s) /\
  (forall fp, exists s,
     parse_all stack garbage fp = Some s /\
     reachable stack garbage AfterLoop s).
Proof.
  split; [|split].
  - intros p s H. destruct (reachable_bounds _ _ _ _ H) as (H1 & H2 & H3).
    repeat split; try assumption. intros ->. apply H3. discriminate.
  - intros s. unfold resize_matchv.
    destruct (matchc s =? matcha s)%nat; split; reflexivity.
  - intros fp. unfold parse_all.
    destruct (parse_loop_enough stack garbage (S (length fp)) fp
                (init_matchv garbage)) as [s Hs]; [lia|].
    exists s. split; [exact Hs|].
    eapply parse_loop_reachable; [|exact Hs].
    apply reach_resize, reach_start.
Qed.

Example init_matchv_sample :
  matchc (init_matchv dirty_match) = O /\
  matcha (init_matchv dirty_match) = MATCH_CHUNK_LEN.
Proof. split; reflexivity. Qed.

(** ** C10: a last line without newline *)

(** C10: on a last line that no newline ends the parser returns [EOF],
    whatever the line holds, even two structural separators, with which it
    would have returned [SUCCESS] had the newline been there; the loop ends
    there, and the store holds the same count and the same records as for
    the stream without that line. *)
Theorem unterminated_line_dropped stack garbage lines last :
  all_lines lines = true -> no_newline last = true ->
  (2 <= separators last)%nat ->
  (forall m0,
     rc (parse_next_match stack last m0) = EOF /\
     rc (parse_next_match stack (last ++ [x0a]) m0) = SUCCESS) /\
  exists s1 s2,
    parse_all stack garbage (stream_of lines last) = Some s1 /\
    parse_all stack garbage (stream_of lines []) = Some s2 /\
    matchc s1 = matchc s2 /\ records s1 = records s2 /\
    matchc s1 = successes lines.
Proof.
  intros Hl Hlast Hsep. split.
  - intros m0. split; [apply rc_eof; assumption|].
    destruct (rc_newline stack last [] m0 Hlast) as [-> _].
    destruct (Nat.leb_spec 2 (separators last)); [reflexivity|lia].
  - rewrite !parse_all_stream by (assumption || reflexivity). cbv zeta.
    do 2 eexists. split; [reflexivity|]. split; [reflexivity|].
    rewrite !records_put_slot. unfold put_slot. cbn [matchc].
    rewrite matchc_after_lines by assumption.
    repeat split.
Qed.

Lemma unterminated_line_dropped_witness :
  all_lines [bytes "a:1:b"] = true /\ no_newline (bytes "c:2:d") = true /\
  (2 <= separators (bytes "c:2:d"))%nat /\
  (forall m0,
     rc (parse_next_match dirty_stack (bytes "c:2:d") m0) = EOF /\
     rc (parse_next_match dirty_stack (bytes "c:2:d" ++ [x0a]) m0) = SUCCESS) /\
  exists s1 s2,
    parse_all dirty_stack dirty_match (stream_of [bytes "a:1:b"] (bytes "c:2:d"))
      = Some s1 /\
    parse_all dirty_stack dirty_match (stream_of [bytes "a:1:b"] []) = Some s2 /\
    matchc s1 = matchc s2 /\ records s1 = records s2 /\
    matchc s1 = successes [bytes "a:1:b"].
Proof.
  assert (L : (2 <= separators (bytes "c:2:d"))%nat)
    by (apply Nat.leb_le; reflexivity).
  split; [reflexivity|]. split; [reflexivity|]. split; [exact L|].
  exact (unterminated_line_dropped dirty_stack dirty_match
           [bytes "a:1:b"] (bytes "c:2:d") eq_refl eq_refl L).
Defined.

Example scenario_last_line :
  matchc <$> parse_all dirty_stack dirty_match (bytes "a:1:b" ++ [x0a] ++ bytes "c:2:d")
  = Some 1%nat.
Proof. vm_compute. reflexivity. Qed.

(** * The rest of the program: properties *)

(** ** The return value and the first line of the stream *)

(** X1: the return value of [parse_next_match] is decided by the stream
    up to its first newline alone: [EOF] when there is no newline, with the
    whole stream consumed; otherwise [SUCCESS] when the line holds two
    separators or more and [MALFORMED] when it holds fewer, with the stream
    left just after that newline.  Neither the record nor the content of the
    local buffer plays a part. *)
Theorem rc_classification stack fp m0 :
  let o := parse_next_match stack fp m0 in
  match first_line fp with
  | None => rc o = EOF /\ out_fp o = []
  | Some (l, rest) =>
      rc o = (if (2 <=? separators l)%nat then SUCCESS else MALFORMED) /\
      out_fp o = rest
  end.
Proof.
  intros o. subst o. destruct (first_line fp) as [[l rest]|] eqn:E.
  - destruct (first_line_some _ _ _ E) as [-> Hl]. now apply rc_newline.
  - apply rc_eof. now apply first_line_none.
Qed.

(** ** Indeterminate memory, lines without number *)

(** X2: the result of [parse_next_match] does not depend on what the
    memory it writes to held before: for two records and two local buffers
    of the declared sizes the return value and the rest of the stream are
    the same, and after [SUCCESS] so are the filepath, the line and the
    description the program reads. *)
Theorem result_independent_of_memory stack stack' m0 m0' fp :
  well_formed stack m0 -> well_formed stack' m0' ->
  let o := parse_next_match stack fp m0 in
  let o' := parse_next_match stack' fp m0' in
  rc o = rc o' /\ out_fp o = out_fp o' /\
  (rc o = SUCCESS -> text_of (out_m o) = text_of (out_m o')).
Proof.
  intros Hwf Hwf' o o'. subst o o'.
  assert (H : rc (parse_next_match stack fp m0) = rc (parse_next_match stack' fp m0') /\
              out_fp (parse_next_match stack fp m0) =
              out_fp (parse_next_match stack' fp m0')).
  { destruct (first_line fp) as [[l rest]|] eqn:E.
    - destruct (first_line_some _ _ _ E) as [-> Hl].
      destruct (rc_newline stack l rest m0 Hl) as [-> ->].
      destruct (rc_newline stack' l rest m0' Hl) as [-> ->]. now split.
    - pose proof (first_line_none _ E) as Hl.
      destruct (rc_eof stack fp m0 Hl) as [-> ->].
      destruct (rc_eof stack' fp m0' Hl) as [-> ->]. now split. }
  destruct H as [H1 H2]. split; [exact H1|]. split; [exact H2|].
  intros Hrc.
  destruct (success_shape _ _ _ Hrc) as (f & n & d & rest & -> & Hf & Hn & Hd).
  destruct (parse_line_text stack m0 f n d rest Hwf Hf Hn Hd)
    as (_ & _ & E1 & _ & E2 & E3 & _).
  destruct (parse_line_text stack' m0' f n d rest Hwf' Hf Hn Hd)
    as (_ & _ & E1' & _ & E2' & E3' & _).
  unfold text_of. now rewrite E1, E2, E3, E1', E2', E3'.
Qed.

Lemma result_independent_of_memory_witness :
  well_formed dirty_stack dirty_match /\ well_formed zero_stack zero_match /\
  let o := parse_next_match dirty_stack (bytes "a:1:b" ++ [x0a]) dirty_match in
  let o' := parse_next_match zero_stack (bytes "a:1:b" ++ [x0a]) zero_match in
  rc o = rc o' /\ out_fp o = out_fp o' /\
  (rc o = SUCCESS -> text_of (out_m o) = text_of (out_m o')).
Proof.
  assert (Z0 : well_formed zero_stack zero_match) by (repeat split).
  split; [exact dirty_well_formed|]. split; [exact Z0|].
  exact (result_independent_of_memory dirty_stack zero_stack dirty_match
           zero_match (bytes "a:1:b" ++ [x0a]) dirty_well_formed Z0).
Defined.

Lemma expand_no_digit c :
  isdigit c = false -> Forall (fun x => isdigit x = false) (expand c).
Proof.
  intros H. unfold expand. destruct (isprint c).
  - now repeat constructor.
  - destruct (c =? TAB); repeat constructor.
Qed.

Lemma sanitize_no_digit n :
  forallb (fun b => negb (isdigit (code b))) n = true ->
  Forall (fun x => isdigit x = false) (sanitize n).
Proof.
  unfold sanitize. induction n as [|b n IH]; cbn [forallb flat_map].
  - constructor.
  - intros [Hb Hn]%andb_prop. apply Forall_app. split; [|now apply IH].
    apply expand_no_digit. now apply negb_true_iff.
Qed.

Lemma accumulate_no_digit s :
  Forall (fun x => isdigit x = false) s -> accumulate s 0 = 0.
Proof. intros [|c t Hc _]; [reflexivity|]. cbn [accumulate]. now rewrite Hc. Qed.

Lemma skip_space_no_digit s :
  Forall (fun x => isdigit x = false) s ->
  Forall (fun x => isdigit x = false) (skip_space s).
Proof.
  induction 1 as [|c t Hc Ht IH]; cbn [skip_space]; [constructor|].
  destruct (isspace c); [exact IH | now constructor].
Qed.

Lemma strtol10_no_digit s :
  Forall (fun x => isdigit x = false) s -> strtol10 s = 0.
Proof.
  intros H%skip_space_no_digit. unfold strtol10, negative, magnitude.
  assert (E : match skip_space s with
              | 45 :: rest => accumulate rest 0
              | 43 :: rest => accumulate rest 0
              | s1 => accumulate s1 0
              end = 0).
  { destruct (skip_space s) as [|c t]; [reflexivity|].
    pose proof (accumulate_no_digit _ H) as H0.
    apply Forall_cons in H as [_ Ht]. pose proof (accumulate_no_digit _ Ht) as Ht0.
    destruct c as [|p|p]; try exact H0.
    do 6 (destruct p as [p|p|]; try exact H0); exact Ht0. }
  rewrite E. now destruct (match skip_space s with 45 :: _ => true | _ => false end).
Qed.

(** X3: a line whose second field holds no digit at all is still parsed
    with [SUCCESS], and its line number is 0: the field is never checked to
    be a number. *)
Theorem line_without_digits stack m0 f n d rest :
  well_formed stack m0 ->
  field_text f = true -> field_text n = true -> no_newline d = true ->
  forallb (fun b => negb (isdigit (code b))) n = true ->
  let o := parse_next_match stack (f ++ x3a :: n ++ x3a :: d ++ x0a :: rest) m0 in
  rc o = SUCCESS /\ line (out_m o) = 0.
Proof.
  intros Hwf Hf Hn Hd Hnd o.
  destruct (parse_line_text stack m0 f n d rest Hwf Hf Hn Hd)
    as (Hrc & _ & _ & _ & _ & Hl & _).
  split; [exact Hrc|]. subst o. rewrite Hl.
  rewrite strtol10_no_digit; [reflexivity|].
  apply Forall_take. now apply sanitize_no_digit.
Qed.

Lemma line_without_digits_witness :
  well_formed dirty_stack dirty_match /\
  field_text (bytes "a") = true /\ field_text (bytes "-x y") = true /\
  no_newline (bytes "b") = true /\
  forallb (fun b => negb (isdigit (code b))) (bytes "-x y") = true /\
  let o := parse_next_match dirty_stack
             (bytes "a" ++ x3a :: bytes "-x y" ++ x3a :: bytes "b" ++ x0a :: [])
             dirty_match in
  rc o = SUCCESS /\ line (out_m o) = 0.
Proof.
  split; [exact dirty_well_formed|].
  split; [reflexivity|]. split; [reflexivity|]. split; [reflexivity|].
  split; [reflexivity|].
  exact (line_without_digits dirty_stack dirty_match (bytes "a") (bytes "-x y")
           (bytes "b") [] dirty_well_formed eq_refl eq_refl eq_refl eq_refl).
Defined.

(** ** Stores outside the arrays *)

Lemma poke_shape v s :
  buffer (poke v s) = buffer s /\ buffer_avail (poke v s) = buffer_avail s /\
  state (poke v s) = state s /\
  overrun (poke v s) =
    if (snd (buffer s) <? sizeof (fst (buffer s)))%nat then overrun s
    else overrun s ++ [buffer s].
Proof.
  unfold poke. destruct (buffer s) as [a i] eqn:E. cbn [fst snd].
  destruct (i <? sizeof a)%nat; [destruct a|]; simpl; rewrite ?E; repeat split.
Qed.

Lemma tidy_append_one ch s : tidy s -> tidy (append_one ch s).
Proof.
  intros H. pose proof H as (Hb & Hov & Hst & Hlen & Hrk & Hlt & Hnd).
  unfold append_one.
  destruct (Nat.eqb_spec (buffer_avail s) 0) as [E|E]; [exact H|].
  cbn [buffer_avail set_buffer_avail].
  set (s1 := set_buffer_avail (buffer_avail s - 1) s).
  assert (H1 : buffer s1 = buffer s /\ overrun s1 = overrun s /\ state s1 = state s)
    by (repeat split).
  destruct H1 as (B1 & O1 & S1).
  assert (Hin : (snd (buffer s1) <? sizeof (fst (buffer s1)))%nat = true)
    by (rewrite B1; apply Nat.ltb_lt; lia).
  assert (T : forall v, tidy (bump (poke v s1))).
  { intros v. destruct (poke_shape v s1) as (Pb & Pk & Ps & Po).
    rewrite Hin in Po. unfold tidy, bump. rewrite Pb, B1.
    destruct (buffer s) as [a i] eqn:Eb.
    cbn [buffer buffer_avail overrun state set_buffer fst snd] in *.
    rewrite Pk, Po, Ps, O1, S1. unfold s1. cbn [buffer_avail set_buffer_avail].
    repeat split; try assumption; lia. }
  destruct (_ =? 0)%nat; apply T.
Qed.

Lemma tidy_append n ch s : tidy s -> tidy (append n ch s).
Proof.
  revert s. induction n as [|n IH]; intros s H; [exact H|].
  cbn [append]. apply IH. now apply tidy_append_one.
Qed.

(** The store that closes a field: if it leaves the array, it is the first
    one past that array. *)
Lemma poke_closes v s :
  tidy s ->
  Forall (fun p => snd p = sizeof (fst p)) (overrun (poke v s)) /\
  (length (overrun (poke v s)) <= S (Z.to_nat (state s)))%nat /\
  Forall (fun p => (rank (fst p) <= rank (fst (buffer s)))%nat)
         (overrun (poke v s)) /\
  NoDup (map fst (overrun (poke v s))).
Proof.
  intros (Hb & Hov & Hst & Hlen & Hrk & Hlt & Hnd).
  assert (Hle : Forall (fun p => (rank (fst p) <= rank (fst (buffer s)))%nat)
                       (overrun s)).
  { eapply Forall_impl; [exact Hlt|]. intros p Hp. cbn beta in Hp. lia. }
  destruct (poke_shape v s) as (_ & _ & _ & ->).
  destruct (Nat.ltb_spec (snd (buffer s)) (sizeof (fst (buffer s)))) as [H|H].
  - split; [assumption|]. split; [lia|]. split; assumption.
  - split; [|split; [|split]].
    + apply Forall_app. split; [assumption|]. repeat constructor. lia.
    + rewrite length_app. simpl. lia.
    + apply Forall_app. split; [assumption|]. repeat constructor.
    + rewrite map_app. cbn [map]. apply NoDup_app. split; [exact Hnd|].
      split; [|apply NoDup_singleton].
      intros a Ha Hin. apply list_elem_of_singleton in Hin. subst a.
      apply list_elem_of_fmap in Ha as (p & Hp & Hin).
      rewrite Forall_forall in Hlt. apply Hlt in Hin. rewrite Hp in Hin. lia.
Qed.

Lemma tidy_switch a s :
  tidy s -> state s < 2 -> Z.of_nat (rank a) = state s + 1 -> tidy (switch a s).
Proof.
  intros H Hs Ha. pose proof H as (Hb & Hov & Hst & Hlen & Hrk & Hlt & Hnd).
  destruct (poke_closes NUL s H) as (Hf & Hl & Hle & Hno).
  destruct (poke_shape NUL s) as (_ & _ & Ps & _).
  unfold switch.
  set (s3 := set_buffer_avail (sizeof a) (set_buffer (a, O) (poke NUL s))).
  assert (H3 : buffer s3 = (a, O) /\ buffer_avail s3 = sizeof a /\
               overrun s3 = overrun (poke NUL s) /\ state s3 = state s)
    by (repeat split; exact Ps).
  destruct H3 as (B3 & K3 & O3 & S3).
  destruct (poke_shape NUL s3) as (Pb & Pk & Pst & Po).
  rewrite B3 in Po. cbn [fst snd] in Po.
  assert (Hpos : (0 <? sizeof a)%nat = true) by (destruct a; reflexivity).
  rewrite Hpos in Po.
  unfold tidy. cbn [buffer buffer_avail overrun state set_state].
  rewrite Pb, Pk, Po, Pst, B3, K3, O3, S3. cbn [fst snd].
  split; [reflexivity|]. split; [exact Hf|]. split; [lia|]. split; [lia|].
  split; [lia|]. split; [|exact Hno].
  eapply Forall_impl; [exact Hle|]. intros p Hp. cbn beta in Hp. lia.
Qed.

Lemma Continue_inj s1 s2 : Continue s1 = Continue s2 -> s1 = s2.
Proof. congruence. Qed.

Lemma tidy_body ch s s' : tidy s -> body ch s = Continue s' -> tidy s'.
Proof.
  intros H. pose proof H as (_ & _ & Hst & _). unfold body.
  destruct (ch =? SEPARATOR).
  - destruct (Z.eqb_spec (state s) 0) as [E0|E0];
      [intros E; apply Continue_inj in E; subst s';
       apply tidy_switch; [assumption | lia | rewrite E0; reflexivity]|].
    destruct (Z.eqb_spec (state s) 1) as [E1|E1];
      [intros E; apply Continue_inj in E; subst s';
       apply tidy_switch; [assumption | lia | rewrite E1; reflexivity]|].
    intros E; apply Continue_inj in E; subst s'. now apply tidy_append.
  - destruct (ch =? NEWLINE); [discriminate|].
    destruct (negb (isprint ch)); [destruct (ch =? TAB)|];
      intros E; apply Continue_inj in E; subst s'; now apply tidy_append.
Qed.

Lemma body_break ch s s' : body ch s = Break s' -> s' = poke NUL s.
Proof.
  unfold body. destruct (ch =? SEPARATOR).
  - destruct (state s =? 0); [discriminate|]. destruct (state s =? 1); discriminate.
  - destruct (ch =? NEWLINE); [congruence|].
    destruct (negb (isprint ch)); [destruct (ch =? TAB)|]; discriminate.
Qed.

Lemma scan_overrun fp s ch s' fp' :
  tidy s -> scan fp s = (ch, s', fp') ->
  Forall (fun p => snd p = sizeof (fst p)) (overrun s') /\
  NoDup (map fst (overrun s')) /\
  (length (overrun s') <= 3)%nat.
Proof.
  revert s. induction fp as [|b fp IH]; intros s H E; cbn [scan] in E.
  - inversion E; subst. destruct H as (_ & Hov & Hst & Hlen & _ & _ & Hnd).
    split; [assumption|]. split; [assumption|lia].
  - rewrite code_not_EOF in E.
    destruct (body (code b) s) as [s1|s1] eqn:Eb.
    + eapply IH; [|exact E]. eapply tidy_body; eassumption.
    + inversion E; subst. apply body_break in Eb. subst s'.
      destruct (poke_closes NUL s H) as (Hf & Hl & _ & Hnd).
      destruct H as (_ & _ & Hst & _).
      split; [assumption|]. split; [assumption|lia].
Qed.

(** X4: whatever the stream and the memory, every store of
    [parse_next_match] that leaves an array goes to the byte that follows
    the array, index [sizeof], never further; no two of them leave the same
    array, so that a call makes at most three of them, one per field. *)
Theorem overrun_one_past_end stack fp m0 :
  Forall (fun p => snd p = sizeof (fst p))
    (out_overrun (parse_next_match stack fp m0)) /\
  NoDup (map fst (out_overrun (parse_next_match stack fp m0))) /\
  (length (out_overrun (parse_next_match stack fp m0)) <= 3)%nat.
Proof.
  unfold parse_next_match.
  destruct (scan fp (entry_state stack m0)) as [[ch s] fp'] eqn:E.
  assert (T : tidy (entry_state stack m0)).
  { unfold tidy, entry_state. cbn.
    repeat split; try lia; constructor. }
  destruct (scan_overrun _ _ _ _ _ T E) as (Hf & Hn & Hl).
  destruct (state s =? 2); cbn [out_overrun]; repeat split; assumption.
Qed.

(** ** The sizes of the arrays *)

Lemma sizes_poke v s : same_sizes s (poke v s).
Proof.
  unfold poke. destruct (buffer s) as [a i].
  destruct (i <? sizeof a)%nat; intros b; [|reflexivity].
  destruct a, b; cbn [array_get array_set m filepath description line_num_buf];
    rewrite ?length_insert; reflexivity.
Qed.

Lemma sizes_bump s : same_sizes s (bump s).
Proof. unfold bump. destruct (buffer s). intros b. reflexivity. Qed.

Lemma sizes_trans s1 s2 s3 : same_sizes s1 s2 -> same_sizes s2 s3 -> same_sizes s1 s3.
Proof. intros H1 H2 a. now rewrite H2, H1. Qed.

Lemma sizes_append_one ch s : same_sizes s (append_one ch s).
Proof.
  unfold append_one. destruct (buffer_avail s =? 0)%nat; [intros a; reflexivity|].
  assert (H : forall v, same_sizes s (bump (poke v (set_buffer_avail (buffer_avail s - 1) s)))).
  { intros v. eapply sizes_trans; [|apply sizes_bump].
    eapply sizes_trans; [|apply sizes_poke]. intros a. reflexivity. }
  destruct (_ =? 0)%nat; apply H.
Qed.

Lemma sizes_append n ch s : same_sizes s (append n ch s).
Proof.
  revert s. induction n as [|n IH]; intros s; [intros a; reflexivity|].
  cbn [append]. eapply sizes_trans; [apply sizes_append_one|apply IH].
Qed.

Lemma sizes_switch a s : same_sizes s (switch a s).
Proof.
  unfold switch.
  eapply sizes_trans; [apply (sizes_poke NUL)|].
  eapply sizes_trans; [|intros b; reflexivity].
  eapply sizes_trans; [|apply sizes_poke]. intros b. reflexivity.
Qed.

Lemma sizes_body ch s :
  match body ch s with Continue s' | Break s' => same_sizes s s' end.
Proof.
  unfold body.
  destruct (ch =? SEPARATOR).
  - destruct (state s =? 0); [apply sizes_switch|].
    destruct (state s =? 1); [apply sizes_switch|]. apply sizes_append.
  - destruct (ch =? NEWLINE); [apply sizes_poke|].
    destruct (negb (isprint ch)); [destruct (ch =? TAB)|]; apply sizes_append.
Qed.

Lemma sizes_scan fp s ch s' fp' : scan fp s = (ch, s', fp') -> same_sizes s s'.
Proof.
  revert s. induction fp as [|b fp IH]; intros s E; cbn [scan] in E.
  - inversion E; subst. intros a. reflexivity.
  - rewrite code_not_EOF in E. pose proof (sizes_body (code b) s) as Hb.
    destruct (body (code b) s) as [s1|s1].
    + eapply sizes_trans; [exact Hb|]. now apply IH.
    + inversion E; subst. exact Hb.
Qed.

Lemma parse_sized stack fp m0 : sized m0 -> sized (out_m (parse_next_match stack fp m0)).
Proof.
  intros [Hf Hd]. unfold parse_next_match.
  destruct (scan fp (entry_state stack m0)) as [[ch s] fp'] eqn:E.
  pose proof (sizes_scan _ _ _ _ _ E) as H.
  pose proof (H Filepath) as H1. pose proof (H Description) as H2.
  cbn [array_get entry_state m] in H1, H2.
  destruct (state s =? 2); cbn [out_m]; split; cbn [filepath description]; congruence.
Qed.

(** ** The fields of a line *)

Lemma upto_separator_some l f t :
  upto_separator l = (f, Some t) ->
  l = f ++ x3a :: t /\
  forallb (fun b => negb (code b =? SEPARATOR)) f = true /\
  separators l = S (separators t).
Proof.
  revert f t. induction l as [|b l IH]; intros f t H; cbn [upto_separator] in H.
  - discriminate.
  - cbn [separators]. destruct (Z.eqb_spec (code b) SEPARATOR) as [E|E].
    + inversion H; subst. apply code_separator in E. subst b. repeat split.
    + destruct (upto_separator l) as [f' t'] eqn:El. inversion H; subst.
      destruct (IH f' t eq_refl) as (-> & Hf & Hs).
      repeat split; [|exact Hs]. cbn [forallb]. rewrite Hf.
      destruct (Z.eqb_spec (code b) SEPARATOR); [contradiction|reflexivity].
Qed.

Lemma upto_separator_none l f :
  upto_separator l = (f, None) -> separators l = O.
Proof.
  revert f. induction l as [|b l IH]; intros f H; cbn [upto_separator] in H.
  - reflexivity.
  - cbn [separators]. destruct (Z.eqb_spec (code b) SEPARATOR) as [E|E]; [discriminate|].
    destruct (upto_separator l) as [f' t'] eqn:El. inversion H; subst.
    now rewrite (IH f' eq_refl).
Qed.

Lemma no_newline_app l1 l2 :
  no_newline (l1 ++ l2) = no_newline l1 && no_newline l2.
Proof. apply forallb_app. Qed.

Lemma field_text_intro f :
  no_newline f = true ->
  forallb (fun b => negb (code b =? SEPARATOR)) f = true ->
  field_text f = true.
Proof.
  induction f as [|b f IH]; [reflexivity|].
  cbn [no_newline field_text forallb]. intros H1 H2.
  apply andb_prop in H1 as [-> H1]. apply andb_prop in H2 as [-> H2].
  now apply IH.
Qed.

Lemma fields_some l f n d :
  no_newline l = true -> fields l = Some (f, n, d) ->
  l = f ++ x3a :: n ++ x3a :: d /\
  field_text f = true /\ field_text n = true /\ no_newline d = true /\
  (2 <= separators l)%nat.
Proof.
  intros Hl. unfold fields.
  destruct (upto_separator l) as [f' [t|]] eqn:E1; [|discriminate].
  destruct (upto_separator t) as [n' [d'|]] eqn:E2; [|discriminate].
  intros [= -> -> ->].
  destruct (upto_separator_some _ _ _ E1) as (-> & Hf & Hs1).
  destruct (upto_separator_some _ _ _ E2) as (-> & Hn & Hs2).
  rewrite no_newline_app in Hl. apply andb_prop in Hl as [Hlf Hl].
  cbn [no_newline forallb] in Hl. apply andb_prop in Hl as [_ Hl].
  fold (no_newline (n ++ x3a :: d)) in Hl.
  rewrite no_newline_app in Hl. apply andb_prop in Hl as [Hln Hl].
  cbn [no_newline forallb] in Hl. apply andb_prop in Hl as [_ Hld].
  repeat split; try (now apply field_text_intro); try assumption. lia.
Qed.

Lemma fields_none l : fields l = None -> (separators l < 2)%nat.
Proof.
  unfold fields.
  destruct (upto_separator l) as [f' [t|]] eqn:E1.
  - destruct (upto_separator t) as [n' [d'|]] eqn:E2; [discriminate|].
    intros _. destruct (upto_separator_some _ _ _ E1) as (_ & _ & ->).
    rewrite (upto_separator_none _ _ E2). lia.
  - intros _. rewrite (upto_separator_none _ _ E1). lia.
Qed.

(** ** The store after the loop *)

Lemma take_S_insert {A} (l : list A) i x :
  (i < length l)%nat -> take (S i) (<[i := x]> l) = take i l ++ [x].
Proof.
  intros H. rewrite (take_S_r _ _ x) by (now apply list_lookup_insert_eq).
  now rewrite take_insert_ge.
Qed.

Lemma after_line_ok stack garbage l s :
  length stack = LINE_NUM_BUF_LEN -> sized garbage ->
  no_newline l = true -> store_ok s ->
  store_ok (after_line stack garbage l s) /\
  map text_of (records (after_line stack garbage l s)) =
  map text_of (records s) ++
  match parsed_text l with Some t => [t] | None => [] end.
Proof.
  intros Hst Hg Hl (Hlt & Hlen & Hall).
  destruct (lookup_lt_is_Some_2 (matchv s) (matchc s)) as [r Hr]; [lia|].
  assert (Hslot : slot garbage s = r) by (unfold slot; now rewrite Hr).
  assert (Hr_sized : sized r) by (eapply Forall_lookup_1; eassumption).
  assert (Hwf : well_formed stack r) by (destruct Hr_sized; repeat split; assumption).
  unfold after_line. rewrite Hslot.
  set (o := parse_next_match stack (l ++ [x0a]) r).
  assert (Ho : sized (out_m o)) by (now apply parse_sized).
  destruct (rc_newline stack l [] r Hl) as [Hrc _]. fold o in Hrc.
  assert (Hall' : Forall sized (<[matchc s := out_m o]> (matchv s)))
    by (now apply Forall_insert).
  unfold parsed_text. destruct (fields l) as [[[f n] d]|] eqn:Ef.
  - destruct (fields_some _ _ _ _ Hl Ef) as (-> & Hf & Hn & Hd & Hsep).
    assert (Ht : text_of (out_m o) =
                 (take (MATCH_PATH_LEN - 1) (sanitize f),
                  to_int (strtol10 (take (LINE_NUM_BUF_LEN - 1) (sanitize n))),
                  take (MATCH_DESCRIPTION_LEN - 1) (sanitize d))).
    { destruct (parse_line_text stack r f n d [] Hwf Hf Hn Hd)
        as (_ & _ & H1 & _ & H3 & H2 & _).
      unfold text_of, o. rewrite <- !app_assoc. cbn [app]. rewrite <- !app_assoc.
      cbn [app]. now rewrite H1, H2, H3. }
    apply Nat.leb_le in Hsep. rewrite Hsep in Hrc. rewrite Hrc.
    unfold resize_matchv, count_match, put_slot, SUCCESS, store_ok, records.
    cbn [matchc matcha matchv Z.eqb].
    destruct (Nat.eqb_spec (matchc s + 1) (matcha s)) as [E|E];
      cbn [matchc matcha matchv].
    + split.
      * repeat split; [unfold MATCH_CHUNK_LEN; lia| |].
        -- rewrite length_app, length_insert, length_replicate. lia.
        -- apply Forall_app. split; [assumption|]. now apply Forall_replicate.
      * rewrite take_app_le by (rewrite length_insert; lia).
        replace (matchc s + 1)%nat with (S (matchc s)) by lia.
        rewrite take_S_insert by lia. now rewrite map_app, <- Ht.
    + split.
      * repeat split; [lia| |assumption]. now rewrite length_insert.
      * replace (matchc s + 1)%nat with (S (matchc s)) by lia.
        rewrite take_S_insert by lia. now rewrite map_app, <- Ht.
  - apply fields_none in Ef.
    destruct (Nat.leb_spec 2 (separators l)); [lia|]. rewrite Hrc.
    unfold resize_matchv, count_match, put_slot, MALFORMED, store_ok, records.
    cbn [matchc matcha matchv Z.eqb]. rewrite Nat.add_0_r.
    destruct (Nat.eqb_spec (matchc s) (matcha s)) as [E|E]; [lia|].
    cbn [matchc matcha matchv]. rewrite app_nil_r, take_insert_ge by lia.
    split; [|reflexivity]. repeat split; [lia| |assumption]. now rewrite length_insert.
Qed.

Lemma omap_cons_eq {A B} (f : A -> option B) x l :
  omap f (x :: l) =
  match f x with Some y => y :: omap f l | None => omap f l end.
Proof. reflexivity. Qed.

Lemma after_lines_ok stack garbage lines s :
  length stack = LINE_NUM_BUF_LEN -> sized garbage ->
  all_lines lines = true -> store_ok s ->
  store_ok (after_lines stack garbage lines s) /\
  map text_of (records (after_lines stack garbage lines s)) =
  map text_of (records s) ++ omap parsed_text lines.
Proof.
  intros Hst Hg. unfold after_lines. revert s.
  induction lines as [|l lines IH]; intros s Hl Hs; cbn [fold_left omap].
  - now rewrite app_nil_r.
  - cbn [all_lines forallb] in Hl. apply andb_prop in Hl as [Hl Hls].
    destruct (after_line_ok stack garbage l s Hst Hg Hl Hs) as [Hs' Hr].
    destruct (IH _ Hls Hs') as [Hs'' Hr'].
    split; [exact Hs''|]. rewrite Hr', Hr, <- app_assoc. f_equal.
    rewrite omap_cons_eq. destruct (parsed_text l); reflexivity.
Qed.

Lemma init_matchv_ok garbage : sized garbage -> store_ok (init_matchv garbage).
Proof.
  intros Hg. unfold init_matchv, resize_matchv, store_ok.
  cbn [matchc matcha matchv Nat.eqb app Nat.add].
  split; [unfold MATCH_CHUNK_LEN; lia|].
  split; [apply length_replicate|now apply Forall_replicate].
Qed.

(** X5: after the loop of [build_menu] the store holds, in the order of
    the stream, one record per line with two separators or more, and what
    the rest of the program reads in it is the text of that line: the
    sanitized first and third fields cut at 255 characters, and [atoi] of
    the sanitized second field cut at 31.  Lines with fewer separators and
    the bytes after the last newline leave no record. *)
Theorem store_holds_parsed_lines stack garbage lines last :
  length stack = LINE_NUM_BUF_LEN -> sized garbage ->
  all_lines lines = true -> no_newline last = true ->
  exists s,
    parse_all stack garbage (stream_of lines last) = Some s /\
    map text_of (records s) = omap parsed_text lines.
Proof.
  intros Hst Hg Hl Hlast. rewrite parse_all_stream by assumption. cbv zeta.
  eexists; split; [reflexivity|]. rewrite records_put_slot.
  destruct (after_lines_ok stack garbage lines (init_matchv garbage) Hst Hg Hl
              (init_matchv_ok garbage Hg)) as [_ ->].
  reflexivity.
Qed.

Lemma store_holds_parsed_lines_witness :
  length dirty_stack = LINE_NUM_BUF_LEN /\ sized dirty_match /\
  all_lines [bytes "/a/b.c:10:hello"; bytes "garbage"] = true /\
  no_newline (bytes "c:2") = true /\
  exists s,
    parse_all dirty_stack dirty_match
      (stream_of [bytes "/a/b.c:10:hello"; bytes "garbage"] (bytes "c:2"))
      = Some s /\
    map text_of (records s) =
    omap parsed_text [bytes "/a/b.c:10:hello"; bytes "garbage"].
Proof.
  split; [reflexivity|]. split; [split; reflexivity|].
  split; [reflexivity|]. split; [reflexivity|].
  exact (store_holds_parsed_lines dirty_stack dirty_match
           [bytes "/a/b.c:10:hello"; bytes "garbage"] (bytes "c:2")
           eq_refl (conj eq_refl eq_refl) eq_refl eq_refl).
Defined.

Lemma reachable_chunked stack garbage p s :
  reachable stack garbage p s ->
  (p <> AtResize -> chunked s) /\
  (p = AtResize ->
   chunked s \/ (matchc s = matcha s /\ exists k, matcha s = (MATCH_CHUNK_LEN * k)%nat)).
Proof.
  unfold chunked.
  induction 1 as [|s Hs IH|s fp Hs IH Hrc|s fp Hs IH Hrc].
  - split; [congruence|]. intros _. right. split; [reflexivity|]. exists O. reflexivity.
  - split; [|discriminate]. intros _. destruct IH as [_ IH].
    unfold resize_matchv.
    destruct (IH eq_refl) as [(k & Ha & Hc)|(E & k & Ha)].
    + destruct (Nat.eqb_spec (matchc s) (matcha s)); [lia|]. exists k. split; assumption.
    + destruct (Nat.eqb_spec (matchc s) (matcha s)); [|contradiction].
      cbn [matchc matcha]. exists k. unfold MATCH_CHUNK_LEN in *. lia.
  - split; [congruence|]. intros _. destruct IH as [IH _].
    destruct (IH ltac:(discriminate)) as (k & Ha & Hc).
    unfold count_match, put_slot. cbn [matchc matcha].
    destruct (_ =? 0).
    + destruct (Nat.eq_dec (matchc s + 1)%nat (matcha s)) as [E|E].
      * right. split; [exact E|]. exists (S k). exact Ha.
      * left. exists k. split; [exact Ha|]. lia.
    + left. exists k. split; [exact Ha|]. lia.
  - split; [|discriminate]. intros _. destruct IH as [IH _].
    destruct (IH ltac:(discriminate)) as (k & Ha & Hc).
    exists k. split; assumption.
Qed.

(** X6: for every stream the loop of [build_menu] ends, and it ends with
    a capacity [matcha] that is a multiple of [MATCH_CHUNK_LEN], the first
    one above the count [matchc], and with [matchv] holding exactly [matcha]
    records: the store grows by one chunk at a time and never holds a spare
    chunk. *)
Theorem capacity_is_next_chunk stack garbage fp :
  exists s k,
    parse_all stack garbage fp = Some s /\
    matcha s = (MATCH_CHUNK_LEN * S k)%nat /\
    (MATCH_CHUNK_LEN * k <= matchc s < MATCH_CHUNK_LEN * S k)%nat /\
    length (matchv s) = matcha s.
Proof.
  unfold parse_all.
  destruct (parse_loop_enough stack garbage (S (length fp)) fp (init_matchv garbage))
    as [s Hs]; [lia|].
  assert (Hr : reachable stack garbage AfterLoop s).
  { eapply parse_loop_reachable; [|exact Hs]. apply reach_resize, reach_start. }
  destruct (reachable_chunked _ _ _ _ Hr) as [Hc _].
  destruct (Hc ltac:(discriminate)) as (k & Ha & Hk).
  destruct (reachable_bounds _ _ _ _ Hr) as (_ & Hlen & _).
  exists s, k. repeat split; try assumption; lia.
Qed.

(** ** display_footer *)

Lemma list_inserts_at {A} (pre old rest src : list A) :
  length src = length old ->
  list_inserts (length pre) src (pre ++ old ++ rest) = pre ++ src ++ rest.
Proof.
  intros H. rewrite <- (Nat.add_0_r (length pre)).
  rewrite list_inserts_app_r. now rewrite list_inserts_0_r.
Qed.

Lemma to_int_mod_size x : to_int (x mod SIZE_MAX_PLUS_1) = to_int x.
Proof.
  unfold to_int, SIZE_MAX_PLUS_1. f_equal.
  pose proof (Z.div_mod x (2 ^ 64) ltac:(lia)) as E.
  replace (x mod 2 ^ 64 + 2 ^ 31)
    with (x + 2 ^ 31 + (- (x / 2 ^ 64 * 2 ^ 32)) * 2 ^ 32) by lia.
  apply Z.mod_add. lia.
Qed.

Lemma to_int_exact v : - 2 ^ 31 <= v < 2 ^ 31 -> to_int v = v.
Proof. intros H. unfold to_int. rewrite Z.mod_small by lia. lia. Qed.

(** The gap between the count and the hint, as the function computes it. *)
Lemma footer_gap cols len :
  - 2 ^ 31 <= cols - len - EXIT_HINT_LEN < 2 ^ 31 ->
  to_int (((cols - len) mod SIZE_MAX_PLUS_1 - EXIT_HINT_LEN) mod SIZE_MAX_PLUS_1)
  = cols - len - EXIT_HINT_LEN.
Proof.
  intros H. rewrite to_int_mod_size.
  rewrite <- (to_int_mod_size (_ - _)), Zminus_mod_idemp_l, to_int_mod_size.
  now apply to_int_exact.
Qed.

Lemma Forall_digits fuel v :
  Forall (fun c => c <> NUL) (map code (render_digits fuel v [])).
Proof.
  pose proof (render_digits_digits fuel v [] eq_refl) as H.
  rewrite Forall_map. apply Forall_forall. intros b Hb.
  rewrite forallb_forall in H. apply list_elem_of_In in Hb.
  specialize (H b Hb). cbn. unfold isdigit, NUL in *. lia.
Qed.

Lemma footer_count_nonzero c : Forall (fun x => x <> NUL) (footer_count c).
Proof.
  unfold footer_count. apply Forall_app. split; [apply Forall_digits|].
  vm_compute. repeat constructor; discriminate.
Qed.

(** X7: on a screen wide enough for the count and the hint,
    [display_footer] prints on the last row, from column 0, the text
    ["<count> matches"], then blanks, then the exit hint, and this text is
    exactly [COLS] characters long, so that the hint ends at the right edge. *)
Theorem footer_fills_line cols lines frame match_count :
  0 <= cols <= INT_MAX ->
  length frame = Z.to_nat (cols + 1) ->
  Z.of_nat (length (footer_count match_count)) + EXIT_HINT_LEN <= cols ->
  let gap := Z.to_nat (cols - Z.of_nat (length (footer_count match_count))
                       - EXIT_HINT_LEN) in
  display_footer cols lines frame match_count =
    Some (lines - 1, 0,
          footer_count match_count ++ replicate gap 32 ++ EXIT_HINT) /\
  Z.of_nat (length (footer_count match_count ++ replicate gap 32 ++ EXIT_HINT))
    = cols.
Proof.
  intros Hcols Hframe Hroom gap. unfold INT_MAX in Hcols.
  set (text := footer_count match_count) in *.
  assert (Hhint : EXIT_HINT_LEN = 17) by reflexivity.
  assert (Hhl : length EXIT_HINT = 17%nat) by reflexivity.
  assert (Hgap : Z.of_nat gap = cols - Z.of_nat (length text) - 17)
    by (unfold gap; lia).
  split.
  2:{ rewrite !length_app, length_replicate, Hhl. lia. }
  unfold display_footer, snprintf. fold (footer_count match_count). fold text.
  replace (Z.to_nat (cols + 1)) with (S (length text + gap + 17)) by lia.
  assert (Hpos : (1 <= length text)%nat).
  { unfold text, footer_count. rewrite length_app. simpl. lia. }
  destruct (Z.ltb_spec (Z.of_nat (length text)) 1) as [?|_]; [lia|].
  rewrite footer_gap by lia. rewrite Hhint, <- Hgap, !Nat2Z.id.
  destruct (Z.ltb_spec (Z.of_nat gap) 0) as [?|_]; [lia|].
  rewrite take_ge by lia.
  replace (Z.to_nat (Z.of_nat (length text)))  with (length text) by lia.
  replace (Z.to_nat (Z.of_nat (length text) + Z.of_nat gap))
    with (length (text ++ replicate gap 32))
    by (rewrite length_app, length_replicate; lia).
  replace (Z.to_nat cols)
    with (length ((text ++ replicate gap 32) ++ EXIT_HINT))
    by (rewrite !length_app, length_replicate, Hhl; lia).
  (* the array in four parts *)
  assert (Hlen : length frame = (length text + gap + 17 + 1)%nat) by lia.
  rewrite <- (take_drop (length text + 1) frame).
  rewrite list_inserts_0_r by (rewrite length_app, length_take; simpl; lia).
  set (rest0 := drop (length text + 1) frame).
  assert (Hrest0 : length rest0 = (gap + 17)%nat)
    by (unfold rest0; rewrite length_drop; lia).
  unfold memset, memcpy. rewrite <- (app_assoc text [NUL] rest0).
  rewrite <- (take_drop gap ([NUL] ++ rest0)).
  rewrite list_inserts_at
    by (rewrite length_replicate, length_take, length_app; simpl; lia).
  set (rest1 := drop gap ([NUL] ++ rest0)).
  assert (Hrest1 : length rest1 = 18%nat)
    by (unfold rest1; rewrite length_drop, length_app; simpl; lia).
  rewrite (app_assoc text (replicate gap 32) rest1).
  rewrite <- (take_drop 17 rest1).
  rewrite list_inserts_at by (rewrite length_take; lia).
  destruct (drop 17 rest1) as [|z [|? ?]] eqn:Ez;
    try (apply (f_equal length) in Ez; rewrite length_drop in Ez; simpl in Ez; lia).
  rewrite (app_assoc (text ++ replicate gap 32) EXIT_HINT).
  rewrite insert_at_length.
  rewrite cstr_app_NUL.
  - now rewrite <- !app_assoc.
  - apply Forall_app; split; [apply Forall_app; split|].
    + apply footer_count_nonzero.
    + apply Forall_replicate. discriminate.
    + vm_compute. repeat constructor; discriminate.
Qed.

Lemma footer_fills_line_witness :
  0 <= 40 <= INT_MAX /\
  length (replicate 41 88) = Z.to_nat (40 + 1) /\
  Z.of_nat (length (footer_count 12)) + EXIT_HINT_LEN <= 40 /\
  let gap := Z.to_nat (40 - Z.of_nat (length (footer_count 12))
                       - EXIT_HINT_LEN) in
  display_footer 40 24 (replicate 41 88) 12 =
    Some (24 - 1, 0, footer_count 12 ++ replicate gap 32 ++ EXIT_HINT) /\
  Z.of_nat (length (footer_count 12 ++ replicate gap 32 ++ EXIT_HINT)) = 40.
Proof.
  assert (V : 0 <= 40 <= INT_MAX) by (unfold INT_MAX; lia).
  assert (W : Z.of_nat (length (footer_count 12)) + EXIT_HINT_LEN <= 40)
    by (apply Z.leb_le; reflexivity).
  split; [exact V|]. split; [reflexivity|]. split; [exact W|].
  exact (footer_fills_line 40 24 (replicate 41 88) 12 V eq_refl W).
Defined.

(** X8: on a screen too narrow for the count and the hint together,
    [display_footer] prints nothing at all. *)
Theorem footer_omitted cols lines frame match_count :
  0 <= cols <= INT_MAX ->
  cols < Z.of_nat (length (footer_count match_count)) + EXIT_HINT_LEN ->
  display_footer cols lines frame match_count = None.
Proof.
  intros Hcols Hroom. unfold INT_MAX in Hcols.
  assert (Hn : (length (footer_count match_count) <= 28)%nat).
  { unfold footer_count, render_size. rewrite length_app, length_map.
    pose proof (length_render_digits 20 match_count []) as Hr.
    cbn [length Nat.add] in Hr.
    change (length (map code (bytes " matches"))) with 8%nat. lia. }
  unfold display_footer, snprintf. fold (footer_count match_count).
  destruct (_ <? 1); [reflexivity|].
  assert (Hhint : EXIT_HINT_LEN = 17) by reflexivity.
  rewrite footer_gap by lia.
  destruct (Z.ltb_spec (cols - Z.of_nat (length (footer_count match_count))
                        - EXIT_HINT_LEN) 0); [reflexivity|lia].
Qed.

Lemma footer_omitted_witness :
  0 <= 25 <= INT_MAX /\
  25 < Z.of_nat (length (footer_count 12)) + EXIT_HINT_LEN /\
  display_footer 25 24 (replicate 26 88) 12 = None.
Proof.
  assert (V : 0 <= 25 <= INT_MAX) by (unfold INT_MAX; lia).
  assert (W : 25 < Z.of_nat (length (footer_count 12)) + EXIT_HINT_LEN)
    by (apply Z.ltb_lt; reflexivity).
  split; [exact V|]. split; [exact W|].
  exact (footer_omitted 25 24 (replicate 26 88) 12 V W).
Defined.

(** ** open_match *)

Lemma parse_serialized stack m0 path v descr rest :
  well_formed stack m0 ->
  printable_text path = true -> printable_text descr = true ->
  (length path < MATCH_PATH_LEN)%nat ->
  (length descr < MATCH_DESCRIPTION_LEN)%nat ->
  0 <= v <= INT_MAX ->
  let o := parse_next_match stack (serialize path v descr ++ rest) m0 in
  rc o = SUCCESS /\
  text_of (out_m o) = (map code path, v, map code descr).
Proof.
  intros Hwf Hp Hd Lp Ld Hv o.
  assert (E : serialize path v descr ++ rest =
              path ++ x3a :: render_line v ++ x3a :: descr ++ x0a :: rest).
  { unfold serialize. rewrite <- !app_assoc. cbn [app].
    rewrite <- !app_assoc. cbn [app]. rewrite <- !app_assoc. reflexivity. }
  pose proof (render_line_printable v) as Hr.
  pose proof (length_render_digits 10 v []) as Lr. fold (render_line v) in Lr.
  simpl in Lr.
  destruct (parse_line_text stack m0 path (render_line v) descr rest Hwf)
    as (Hrc & _ & Hf & _ & Hde & Hline & _);
    [now apply printable_field_text | now apply printable_field_text
    |now apply field_text_no_newline, printable_field_text|].
  subst o. rewrite E. unfold text_of.
  rewrite Hrc, Hf, Hde, Hline.
  rewrite !sanitize_printable by now apply printable_text_isprint.
  unfold MATCH_PATH_LEN, MATCH_DESCRIPTION_LEN, LINE_NUM_BUF_LEN in *.
  rewrite !take_ge by (rewrite length_map; lia).
  rewrite atoi_render by assumption. split; reflexivity.
Qed.

Lemma text_of_eq r p v d :
  text_of r = (p, v, d) ->
  cstr (filepath r) = p /\ line r = v /\ cstr (description r) = d.
Proof. unfold text_of. intros [= -> -> ->]. repeat split. Qed.

Lemma strtol10_minus s :
  strtol10 (45 :: s) = Z.max LONG_MIN (Z.min LONG_MAX (- accumulate s 0)).
Proof. reflexivity. Qed.

(** ** basename and the items *)

Lemma expand_isprint c : Forall (fun x => isprint x = true) (expand c).
Proof.
  unfold expand. destruct (isprint c) eqn:E.
  - repeat constructor. exact E.
  - destruct (c =? TAB); repeat constructor.
Qed.

Lemma sanitize_isprint l : Forall (fun x => isprint x = true) (sanitize l).
Proof.
  unfold sanitize. induction l as [|b l IH]; cbn [flat_map].
  - constructor.
  - apply Forall_app. split; [apply expand_isprint | exact IH].
Qed.

Lemma after_last_slash_suffix s : exists pre, s = pre ++ after_last_slash s.
Proof.
  induction s as [|c t IH]; cbn [after_last_slash].
  - now exists [].
  - destruct (existsb _ t).
    + destruct IH as [pre IH]. exists (c :: pre). cbn [app]. now f_equal.
    + destruct (c =? SLASH); [now exists [c] | now exists []].
Qed.

Lemma strip_slashes_prefix s : exists suf, s = strip_slashes s ++ suf.
Proof.
  induction s as [|c t IH]; cbn [strip_slashes].
  - now exists [].
  - destruct IH as [suf IH]. destruct (strip_slashes t) as [|x t'] eqn:E.
    + destruct (c =? SLASH); [now exists (c :: t)|].
      exists suf. cbn [app] in *. now f_equal.
    + exists suf. cbn [app] in *. now f_equal.
Qed.

Lemma basename_isprint arr :
  Forall (fun x => isprint x = true) (cstr arr) ->
  Forall (fun x => isprint x = true) (fst (basename arr)).
Proof.
  intros H. unfold basename.
  assert (Hs : forall s, Forall (fun x => isprint x = true) s ->
                         Forall (fun x => isprint x = true) (after_last_slash s)).
  { intros s Hs. destruct (after_last_slash_suffix s) as [pre E].
    rewrite E in Hs. now apply Forall_app in Hs as [_ Hs]. }
  destruct (cstr arr) as [|c t] eqn:E.
  - repeat constructor.
  - destruct (negb _); cbn [fst]; [now apply Hs|].
    destruct (strip_slashes_prefix (c :: t)) as [suf Es].
    destruct (strip_slashes (c :: t)) as [|x t'] eqn:E2; cbn [fst].
    + repeat constructor.
    + apply Hs. rewrite Es in H. now apply Forall_app in H as [H _].
Qed.

Lemma render_digits_isprint fuel v acc :
  Forall (fun x => isprint (code x) = true) acc ->
  Forall (fun x => isprint (code x) = true) (render_digits fuel v acc).
Proof.
  revert v acc. induction fuel as [|fuel IH]; intros v acc H; cbn [render_digits].
  - exact H.
  - assert (Hd : isprint (code (digit_byte (v mod 10))) = true).
    { pose proof (Z.mod_pos_bound v 10 ltac:(lia)) as Hm.
      rewrite code_digit_byte by lia. unfold isprint.
      apply andb_true_intro. split; lia. }
    destruct (v / 10 =? 0); [|apply IH]; constructor; assumption.
Qed.

Lemma render_int_isprint v : Forall (fun x => isprint x = true) (render_int v).
Proof.
  unfold render_int.
  assert (H : forall w, Forall (fun x => isprint x = true)
                          (map code (render_digits 10 w []))).
  { intros w. apply Forall_map. apply render_digits_isprint. constructor. }
  destruct (v <? 0); [constructor; [reflexivity|]|]; apply H.
Qed.

Lemma after_last_slash_plain s :
  forallb (fun x => negb (x =? SLASH)) s = true -> after_last_slash s = s.
Proof.
  induction s as [|c t IH]; [reflexivity|]. cbn [forallb after_last_slash].
  intros [Hc Ht]%andb_prop.
  assert (E : existsb (fun x => x =? SLASH) t = false).
  { clear -Ht. induction t as [|x t IH]; [reflexivity|].
    cbn [forallb existsb] in *. apply andb_prop in Ht as [Hx Ht].
    rewrite (IH Ht). now destruct (x =? SLASH). }
  rewrite E. now destruct (c =? SLASH).
Qed.

Lemma after_last_slash_dir d s :
  forallb (fun x => negb (x =? SLASH)) s = true ->
  after_last_slash (d ++ SLASH :: s) = s.
Proof.
  intros Hs. induction d as [|c d IH]; cbn [app after_last_slash].
  - assert (E : existsb (fun x => x =? SLASH) s = false).
    { clear -Hs. induction s as [|x t IH]; [reflexivity|].
      cbn [forallb existsb] in *. apply andb_prop in Hs as [Hx Ht].
      rewrite (IH Ht). now destruct (x =? SLASH). }
    now rewrite E.
  - assert (E : existsb (fun x => x =? SLASH) (d ++ SLASH :: s) = true).
    { rewrite existsb_app. cbn [existsb]. change (SLASH =? SLASH) with true.
      now rewrite orb_true_r. }
    now rewrite E.
Qed.

Lemma last_app_cons (pre : list Z) c s d :
  List.last (pre ++ c :: s) d = List.last (c :: s) d.
Proof.
  induction pre as [|x pre IH]; [reflexivity|].
  cbn [app]. rewrite <- IH. cbn [List.last].
  destruct (pre ++ c :: s) eqn:E; [now destruct pre|reflexivity].
Qed.

Lemma last_plain c s :
  forallb (fun x => negb (x =? SLASH)) (c :: s) = true ->
  (List.last (c :: s) 0 =? SLASH) = false.
Proof.
  revert c. induction s as [|x s IH]; intros c; cbn [forallb List.last].
  - intros [Hc _]%andb_prop. now apply negb_true_iff.
  - intros [_ H]%andb_prop. now apply IH.
Qed.

Lemma cstr_insert_NUL stem : forall arr suf,
  cstr arr = stem ++ suf -> suf <> [] ->
  cstr (<[length stem := NUL]> arr) = stem.
Proof.
  induction stem as [|x stem IH]; intros arr suf H Hs.
  - destruct arr as [|c rest]; [now destruct suf|]. reflexivity.
  - destruct arr as [|c rest]; [discriminate|]. cbn [cstr app] in H.
    destruct (c =? NUL) eqn:E; [discriminate|]. injection H as -> H.
    cbn [length]. change (<[S (length stem) := NUL]> (x :: rest))
      with (x :: <[length stem := NUL]> rest).
    cbn [cstr]. rewrite E. f_equal. now apply (IH rest suf).
Qed.

Lemma strip_slashes_last s x t :
  strip_slashes s = x :: t -> (List.last (x :: t) 0 =? SLASH) = false.
Proof.
  revert x t. induction s as [|c s IH]; intros x t; [discriminate|].
  cbn [strip_slashes]. destruct (strip_slashes s) as [|y u] eqn:E.
  - destruct (c =? SLASH) eqn:Ec; [discriminate|]. now intros [= <- <-].
  - intros [= <- <-]. now apply (IH y u).
Qed.

Lemma strip_slashes_plain s :
  s <> [] -> (List.last s 0 =? SLASH) = false -> strip_slashes s = s.
Proof.
  induction s as [|c s IH]; [contradiction|]. intros _ H.
  cbn [strip_slashes]. destruct s as [|y u].
  - cbn in *. now rewrite H.
  - rewrite IH by (discriminate || exact H). reflexivity.
Qed.

Lemma filepath_after_basename arr :
  cstr (snd (basename arr)) = trimmed (cstr arr).
Proof.
  unfold basename, trimmed. destruct (cstr arr) as [|c t] eqn:E; [exact E|].
  destruct (List.last (c :: t) 0 =? SLASH) eqn:El; cbn [negb snd].
  - destruct (strip_slashes_prefix (c :: t)) as [suf Es].
    destruct (strip_slashes (c :: t)) as [|x u] eqn:E2; cbn [snd]; [exact E|].
    apply cstr_insert_NUL with (suf := suf); [now rewrite E|].
    intros ->. rewrite app_nil_r in Es. rewrite Es in El.
    now rewrite (strip_slashes_last _ _ _ E2) in El.
  - rewrite strip_slashes_plain by (discriminate || exact El). exact E.
Qed.

Lemma forallb_Forall {A} (f : A -> bool) l :
  Forall (fun x => f x = true) l -> forallb f l = true.
Proof.
  induction 1 as [|x l Hx _ IH]; [reflexivity|]. cbn [forallb]. now rewrite Hx.
Qed.

Lemma printable_codes l :
  printable_text l = true -> Forall (fun c => isprint c = true) (map code l).
Proof.
  intros H%printable_text_isprint. apply Forall_map.
  induction l as [|b l IH]; [constructor|]. cbn [forallb] in H.
  apply andb_prop in H as [Hb Hl]. constructor; [exact Hb | now apply IH].
Qed.

Lemma make_item_printable i r :
  Forall (fun c => isprint c = true) (cstr (filepath r)) ->
  Forall (fun c => isprint c = true) (cstr (description r)) ->
  make_item i r =
  Some (Item (fst (basename (filepath r)) ++ map code (bytes " [") ++
              render_int (line r) ++ map code (bytes "]"))
             (cstr (description r)) (Some i),
        Match (snd (basename (filepath r))) (line r) (description r)).
Proof.
  intros Hf Hd. unfold make_item.
  pose proof (basename_isprint (filepath r) Hf) as Hb.
  destruct (basename (filepath r)) as [base path]. cbn [fst snd] in *.
  set (name := base ++ _).
  assert (Hn : forallb isprint name = true).
  { apply forallb_Forall. subst name. apply Forall_app. split; [exact Hb|].
    apply Forall_app. split; [repeat constructor|].
    apply Forall_app. split; [apply render_int_isprint | repeat constructor]. }
  assert (Hne : name <> []) by (subst name; destruct base; discriminate).
  unfold new_item. clearbody name. destruct name as [|c t]; [contradiction|].
  rewrite Hn, (forallb_Forall _ _ Hd). reflexivity.
Qed.

Lemma parsed_text_isprint l p v d :
  parsed_text l = Some (p, v, d) ->
  Forall (fun c => isprint c = true) p /\ Forall (fun c => isprint c = true) d.
Proof.
  unfold parsed_text. destruct (fields l) as [[[f n] d0]|]; [|discriminate].
  intros [= <- _ <-]. split; apply Forall_take, sanitize_isprint.
Qed.

(** X9: for every record a [SUCCESS] parse has produced, the loop of
    [build_menu] gets an item: [new_item] never refuses the name built from
    it, the description of the item is the whole description of the record,
    and the user pointer is the index of the record.  The record keeps its
    line, and its filepath loses at most its trailing slashes. *)
Theorem item_of_parsed_record stack m0 fp i :
  well_formed stack m0 ->
  rc (parse_next_match stack fp m0) = SUCCESS ->
  exists it r',
    make_item i (out_m (parse_next_match stack fp m0)) = Some (it, r') /\
    item_userptr it = Some i /\
    item_description it =
      cstr (description (out_m (parse_next_match stack fp m0))) /\
    line r' = line (out_m (parse_next_match stack fp m0)) /\
    cstr (filepath r') =
      trimmed (cstr (filepath (out_m (parse_next_match stack fp m0)))).
Proof.
  intros Hwf Hrc.
  destruct (success_shape _ _ _ Hrc) as (f & n & d & rest & -> & Hf & Hn & Hd).
  destruct (parse_line_text stack m0 f n d rest Hwf Hf Hn Hd)
    as (_ & _ & Ef & _ & Ed & _).
  set (r := out_m _) in *.
  eexists _, _. split.
  - apply make_item_printable.
    + rewrite Ef. apply Forall_take, sanitize_isprint.
    + rewrite Ed. apply Forall_take, sanitize_isprint.
  - cbn [item_userptr item_description line filepath].
    repeat split. apply filepath_after_basename.
Qed.

Lemma item_of_parsed_record_witness :
  well_formed dirty_stack dirty_match /\
  rc (parse_next_match dirty_stack (bytes "/a/b.c:10:hello" ++ [x0a])
        dirty_match) = SUCCESS /\
  exists it r',
    make_item 3
      (out_m (parse_next_match dirty_stack (bytes "/a/b.c:10:hello" ++ [x0a])
                dirty_match)) = Some (it, r') /\
    item_userptr it = Some 3%nat /\
    item_description it =
      cstr (description
              (out_m (parse_next_match dirty_stack
                        (bytes "/a/b.c:10:hello" ++ [x0a]) dirty_match))) /\
    line r' =
      line (out_m (parse_next_match dirty_stack
                     (bytes "/a/b.c:10:hello" ++ [x0a]) dirty_match)) /\
    cstr (filepath r') =
      trimmed (cstr (filepath
                       (out_m (parse_next_match dirty_stack
                                 (bytes "/a/b.c:10:hello" ++ [x0a])
                                 dirty_match)))).
Proof.
  assert (R : rc (parse_next_match dirty_stack
                    (bytes "/a/b.c:10:hello" ++ [x0a]) dirty_match) = SUCCESS)
    by (vm_compute; reflexivity).
  split; [exact dirty_well_formed|]. split; [exact R|].
  exact (item_of_parsed_record dirty_stack dirty_match
           (bytes "/a/b.c:10:hello" ++ [x0a]) 3 dirty_well_formed R).
Defined.

(** X10: the item of a line [dir/base:v:descr] written by the producer
    (printable fields that fit, a line number in the range of [int]) is
    named [base [v]], described by [descr] and points to its record, which
    [basename] leaves as the parser wrote it. *)
Theorem item_of_parsed_line stack m0 pre base v descr rest i :
  well_formed stack m0 ->
  pre = [] \/ (exists dir, pre = dir ++ [x2f]) ->
  base <> [] ->
  forallb (fun b => negb (code b =? SLASH)) base = true ->
  printable_text (pre ++ base) = true -> printable_text descr = true ->
  (length (pre ++ base) < MATCH_PATH_LEN)%nat ->
  (length descr < MATCH_DESCRIPTION_LEN)%nat ->
  0 <= v <= INT_MAX ->
  let r := out_m (parse_next_match stack
                    (serialize (pre ++ base) v descr ++ rest) m0) in
  make_item i r =
  Some (Item (map code base ++ map code (bytes " [") ++
              map code (render_line v) ++ map code (bytes "]"))
             (map code descr) (Some i),
        r).
Proof.
  intros Hwf Hpre Hne Hbase Hp Hd Lp Ld Hv r.
  destruct (parse_serialized stack m0 (pre ++ base) v descr rest Hwf Hp Hd Lp Ld Hv)
    as [_ Ht].
  fold r in Ht. apply text_of_eq in Ht as (Hf & Hl & Hde).
  assert (Hb : forallb (fun x => negb (x =? SLASH)) (map code base) = true).
  { clear -Hbase. induction base as [|b base IH]; [reflexivity|].
    cbn [map forallb] in *. apply andb_prop in Hbase as [-> H]. now apply IH. }
  assert (Hbn : basename (filepath r) = (map code base, filepath r)).
  { unfold basename. rewrite Hf, map_app.
    destruct base as [|b base]; [contradiction|]. cbn [map] in *.
    assert (Hlast : (List.last (map code pre ++ code b :: map code base) 0
                     =? SLASH) = false)
      by (rewrite last_app_cons; now apply last_plain).
    assert (Hafter : after_last_slash (map code pre ++ code b :: map code base)
                     = code b :: map code base).
    { destruct Hpre as [-> | [dir ->]].
      - now apply after_last_slash_plain.
      - rewrite map_app, <- app_assoc. cbn [map app].
        change (code x2f) with SLASH. now apply after_last_slash_dir. }
    destruct (map code pre ++ code b :: map code base) eqn:E;
      [now destruct (map code pre)|].
    rewrite Hlast. cbn [negb]. now rewrite Hafter. }
  pose proof (printable_codes _ Hp) as Pp.
  pose proof (printable_codes _ Hd) as Pd.
  rewrite make_item_printable by (rewrite ?Hf, ?Hde; assumption).
  rewrite Hbn, Hde. cbn [fst snd].
  clearbody r. destruct r as [a l c]. cbn [line filepath description] in *.
  subst l. unfold render_int. destruct (Z.ltb_spec v 0) as [?|_]; [lia|].
  reflexivity.
Qed.

Lemma item_of_parsed_line_witness :
  well_formed dirty_stack dirty_match /\
  (bytes "/a/" = [] \/ (exists dir, bytes "/a/" = dir ++ [x2f])) /\
  bytes "b.c" <> [] /\
  forallb (fun b => negb (code b =? SLASH)) (bytes "b.c") = true /\
  printable_text (bytes "/a/" ++ bytes "b.c") = true /\
  printable_text (bytes "hello") = true /\
  (length (bytes "/a/" ++ bytes "b.c") < MATCH_PATH_LEN)%nat /\
  (length (bytes "hello") < MATCH_DESCRIPTION_LEN)%nat /\
  0 <= 10 <= INT_MAX /\
  let r := out_m (parse_next_match dirty_stack
                    (serialize (bytes "/a/" ++ bytes "b.c") 10 (bytes "hello")
                     ++ []) dirty_match) in
  make_item 0 r =
  Some (Item (map code (bytes "b.c") ++ map code (bytes " [") ++
              map code (render_line 10) ++ map code (bytes "]"))
             (map code (bytes "hello")) (Some 0%nat),
        r).
Proof.
  assert (D : bytes "/a/" = [] \/ (exists dir, bytes "/a/" = dir ++ [x2f]))
    by (right; exists (bytes "/a"); reflexivity).
  assert (N : bytes "b.c" <> []) by discriminate.
  assert (L1 : (length (bytes "/a/" ++ bytes "b.c") < MATCH_PATH_LEN)%nat)
    by (apply Nat.ltb_lt; reflexivity).
  assert (L2 : (length (bytes "hello") < MATCH_DESCRIPTION_LEN)%nat)
    by (apply Nat.ltb_lt; reflexivity).
  assert (V : 0 <= 10 <= INT_MAX) by (unfold INT_MAX; lia).
  split; [exact dirty_well_formed|]. split; [exact D|]. split; [exact N|].
  split; [reflexivity|]. split; [reflexivity|]. split; [reflexivity|].
  split; [exact L1|]. split; [exact L2|]. split; [exact V|].
  exact (item_of_parsed_line dirty_stack dirty_match (bytes "/a/") (bytes "b.c")
           10 (bytes "hello") [] 0 dirty_well_formed D N eq_refl eq_refl eq_refl
           L1 L2 V).
Defined.

Lemma command_of_text editor r i :
  Forall (fun c => isprint c = true) (cstr (filepath r)) ->
  Forall (fun c => isprint c = true) (cstr (description r)) ->
  exists it r',
    make_item i r = Some (it, r') /\
    item_userptr it = Some i /\
    item_description it = snd (text_of r) /\
    open_match editor r' = command editor (text_of r).
Proof.
  intros Hf Hd. eexists _, _. split; [now apply make_item_printable|].
  cbn [item_userptr item_description]. split; [reflexivity|].
  split; [reflexivity|].
  unfold open_match, command, text_of. cbn [line filepath fst snd].
  now rewrite filepath_after_basename.
Qed.

(** X11: for a line [path:v:descr] written by the producer, the command
    [open_match] hands to [system] for the record, as the loop of
    [build_menu] has left it, is the editor, [" +"], the decimal digits of
    [v], a blank and the path without its trailing slashes ([basename] has
    cut them in the record). *)
Theorem editor_command_of_entry stack m0 editor path v descr rest i :
  well_formed stack m0 ->
  printable_text path = true -> printable_text descr = true ->
  (length path < MATCH_PATH_LEN)%nat ->
  (length descr < MATCH_DESCRIPTION_LEN)%nat ->
  0 <= v <= INT_MAX ->
  exists it r',
    make_item i
      (out_m (parse_next_match stack (serialize path v descr ++ rest) m0)) =
      Some (it, r') /\
    open_match editor r' =
      editor ++ map code (bytes " +") ++ map code (render_line v) ++
      [32] ++ trimmed (map code path).
Proof.
  intros Hwf Hp Hd Lp Ld Hv.
  destruct (parse_serialized stack m0 path v descr rest Hwf Hp Hd Lp Ld Hv)
    as [_ Ht].
  set (r := out_m _) in *.
  pose proof (text_of_eq _ _ _ _ Ht) as (Hf & Hl & Hde).
  destruct (command_of_text editor r i) as (it & r' & Hm & _ & _ & Hc).
  - rewrite Hf. now apply printable_codes.
  - rewrite Hde. now apply printable_codes.
  - exists it, r'. split; [exact Hm|]. rewrite Hc, Ht.
    unfold command, render_unsigned. cbn [fst snd]. unfold INT_MAX in Hv.
    rewrite Z.mod_small by lia. reflexivity.
Qed.

Lemma editor_command_of_entry_witness :
  well_formed dirty_stack dirty_match /\
  printable_text (bytes "src/") = true /\
  printable_text (bytes "hello") = true /\
  (length (bytes "src/") < MATCH_PATH_LEN)%nat /\
  (length (bytes "hello") < MATCH_DESCRIPTION_LEN)%nat /\
  0 <= 10 <= INT_MAX /\
  exists it r',
    make_item 0
      (out_m (parse_next_match dirty_stack
                (serialize (bytes "src/") 10 (bytes "hello") ++ [])
                dirty_match)) = Some (it, r') /\
    open_match (map code (bytes "vi")) r' =
      map code (bytes "vi") ++ map code (bytes " +") ++
      map code (render_line 10) ++ [32] ++ trimmed (map code (bytes "src/")).
Proof.
  assert (L1 : (length (bytes "src/") < MATCH_PATH_LEN)%nat)
    by (apply Nat.ltb_lt; reflexivity).
  assert (L2 : (length (bytes "hello") < MATCH_DESCRIPTION_LEN)%nat)
    by (apply Nat.ltb_lt; reflexivity).
  assert (V : 0 <= 10 <= INT_MAX) by (unfold INT_MAX; lia).
  split; [exact dirty_well_formed|].
  split; [reflexivity|]. split; [reflexivity|].
  split; [exact L1|]. split; [exact L2|]. split; [exact V|].
  exact (editor_command_of_entry dirty_stack dirty_match (map code (bytes "vi"))
           (bytes "src/") 10 (bytes "hello") [] 0 dirty_well_formed
           eq_refl eq_refl L1 L2 V).
Defined.

(** X12: a line whose second field is a minus sign and the digits of [v],
    with [v] between 1 and 2^31, is parsed with [SUCCESS] into the line
    [-v], and the command of the editor for it carries [+] followed by the
    digits of [2^32 - v]: [open_match] formats the [int] with ["%u"]. *)
Theorem negative_line_wraps stack m0 editor path v descr rest i :
  well_formed stack m0 ->
  printable_text path = true -> printable_text descr = true ->
  (length path < MATCH_PATH_LEN)%nat ->
  (length descr < MATCH_DESCRIPTION_LEN)%nat ->
  1 <= v <= 2 ^ 31 ->
  let o := parse_next_match stack
             (path ++ x3a :: (x2d :: render_line v) ++ x3a :: descr ++ x0a :: rest)
             m0 in
  rc o = SUCCESS /\ line (out_m o) = - v /\
  exists it r',
    make_item i (out_m o) = Some (it, r') /\
    open_match editor r' =
      editor ++ map code (bytes " +") ++
      map code (render_line (2 ^ 32 - v)) ++ [32] ++ trimmed (map code path).
Proof.
  intros Hwf Hp Hd Lp Ld Hv o.
  pose proof (render_line_printable v) as Hr.
  pose proof (length_render_digits 10 v []) as Lr. fold (render_line v) in Lr.
  simpl in Lr.
  assert (Hn : printable_text (x2d :: render_line v) = true)
    by (cbn [printable_text forallb]; fold (printable_text (render_line v));
        now rewrite Hr).
  destruct (parse_line_text stack m0 path (x2d :: render_line v) descr rest Hwf)
    as (Hrc & _ & Hf & _ & Hde & Hline & _);
    [now apply printable_field_text | now apply printable_field_text
    |now apply field_text_no_newline, printable_field_text|].
  fold o in Hrc, Hf, Hde, Hline.
  rewrite !sanitize_printable in * by now apply printable_text_isprint.
  unfold MATCH_PATH_LEN, MATCH_DESCRIPTION_LEN, LINE_NUM_BUF_LEN in *.
  rewrite !take_ge in * by (rewrite length_map; simpl; lia).
  assert (Hacc : accumulate (map code (render_line v)) 0 = v).
  { unfold render_line. rewrite accumulate_render by (simpl; lia). reflexivity. }
  assert (Hl : line (out_m o) = - v).
  { rewrite Hline. cbn [map]. change (code x2d) with 45.
    rewrite strtol10_minus, Hacc.
    unfold LONG_MIN, LONG_MAX, to_int.
    rewrite Z.min_r, Z.max_r by lia.
    rewrite Z.mod_small by lia. lia. }
  split; [exact Hrc|]. split; [exact Hl|].
  destruct (command_of_text editor (out_m o) i) as (it & r' & Hm & _ & _ & Hc).
  - rewrite Hf. now apply printable_codes.
  - rewrite Hde. now apply printable_codes.
  - exists it, r'. split; [exact Hm|]. rewrite Hc.
    unfold command, text_of. cbn [fst snd]. rewrite Hf, Hl.
    unfold render_unsigned.
    replace ((- v) mod 2 ^ 32) with (2 ^ 32 - v); [reflexivity|].
    apply Z.mod_unique with (q := -1); lia.
Qed.

Lemma negative_line_wraps_witness :
  well_formed dirty_stack dirty_match /\
  printable_text (bytes "/a/b.c") = true /\
  printable_text (bytes "hello") = true /\
  (length (bytes "/a/b.c") < MATCH_PATH_LEN)%nat /\
  (length (bytes "hello") < MATCH_DESCRIPTION_LEN)%nat /\
  1 <= 5 <= 2 ^ 31 /\
  let o := parse_next_match dirty_stack
             (bytes "/a/b.c" ++ x3a :: (x2d :: render_line 5) ++
              x3a :: bytes "hello" ++ x0a :: [])
             dirty_match in
  rc o = SUCCESS /\ line (out_m o) = - 5 /\
  exists it r',
    make_item 0 (out_m o) = Some (it, r') /\
    open_match (map code (bytes "vi")) r' =
      map code (bytes "vi") ++ map code (bytes " +") ++
      map code (render_line (2 ^ 32 - 5)) ++ [32] ++
      trimmed (map code (bytes "/a/b.c")).
Proof.
  assert (L1 : (length (bytes "/a/b.c") < MATCH_PATH_LEN)%nat)
    by (apply Nat.ltb_lt; reflexivity).
  assert (L2 : (length (bytes "hello") < MATCH_DESCRIPTION_LEN)%nat)
    by (apply Nat.ltb_lt; reflexivity).
  assert (V : 1 <= 5 <= 2 ^ 31) by lia.
  split; [exact dirty_well_formed|].
  split; [reflexivity|]. split; [reflexivity|].
  split; [exact L1|]. split; [exact L2|]. split; [exact V|].
  exact (negative_line_wraps dirty_stack dirty_match (map code (bytes "vi"))
           (bytes "/a/b.c") 5 (bytes "hello") [] 0 dirty_well_formed
           eq_refl eq_refl L1 L2 V).
Defined.

(** ** event_loop *)

Lemma event_loop_app {menu : Type} (menu_driver : menu -> request -> menu)
  (current_entry : menu -> option match_) (editor : list Z) keys more mn tr :
  event_loop menu_driver current_entry editor (keys ++ more) mn tr =
  match event_loop menu_driver current_entry editor keys mn tr with
  | (Blocked, mn', tr') =>
      event_loop menu_driver current_entry editor more mn' tr'
  | r => r
  end.
Proof.
  revert mn tr. induction keys as [|key keys IH]; intros mn tr; [reflexivity|].
  cbn [app event_loop].
  destruct (on_key _ _ _ key mn tr) as [[[c mn'] tr']|]; [|reflexivity].
  destruct (c =? 0); [reflexivity | apply IH].
Qed.

(** X13: the key [q], the escape key or a key code 0 ends [event_loop]:
    if the keys before it have not ended the loop already, the curses
    session is cleaned up once and the loop returns with the menu as those
    keys left it; the keys that follow are never read. *)
Theorem quit_key_ends_loop {menu : Type} (menu_driver : menu -> request -> menu)
  (current_entry : menu -> option match_) (editor : list Z)
  pre c rest mn tr :
  c = 113 \/ c = ESCAPE \/ c = 0 ->
  event_loop menu_driver current_entry editor (pre ++ c :: rest) mn tr =
  match event_loop menu_driver current_entry editor pre mn tr with
  | (Blocked, mn', tr') => (Finished, mn', tr' ++ [CleanupCurses])
  | r => r
  end.
Proof.
  intros Hc. rewrite event_loop_app.
  destruct (event_loop _ _ _ pre mn tr) as [[[] mn'] tr']; try reflexivity.
  destruct Hc as [-> | [-> | ->]]; reflexivity.
Qed.

Lemma quit_key_ends_loop_witness :
  (113 = 113 \/ 113 = ESCAPE \/ 113 = 0) /\
  event_loop sample_driver (fun _ => Some dirty_match) (map code (bytes "vi"))
    ([106; ENTER] ++ 113 :: [ENTER]) 0%nat [] =
  match event_loop sample_driver (fun _ => Some dirty_match)
          (map code (bytes "vi")) [106; ENTER] 0%nat [] with
  | (Blocked, mn', tr') => (Finished, mn', tr' ++ [CleanupCurses])
  | r => r
  end.
Proof.
  assert (Q : 113 = 113 \/ 113 = ESCAPE \/ 113 = 0) by (left; reflexivity).
  split; [exact Q|].
  exact (quit_key_ends_loop sample_driver (fun _ => Some dirty_match)
           (map code (bytes "vi")) [106; ENTER] 113 [ENTER] 0%nat [] Q).
Defined.

(** X14: a key the [switch] has no case for (the value [ERR] of a failed
    [getch] included) changes nothing: the run of [event_loop] is the same
    as without it. *)
Theorem unbound_key_ignored {menu : Type} (menu_driver : menu -> request -> menu)
  (current_entry : menu -> option match_) (editor : list Z)
  pre key rest mn tr :
  ~ In key bound_keys ->
  event_loop menu_driver current_entry editor (pre ++ key :: rest) mn tr =
  event_loop menu_driver current_entry editor (pre ++ rest) mn tr.
Proof.
  intros Hk. rewrite !event_loop_app.
  destruct (event_loop _ _ _ pre mn tr) as [[[] mn'] tr']; try reflexivity.
  cbn [event_loop]. unfold on_key.
  assert (E : forall k, In k bound_keys -> (key =? k) = false).
  { intros k Hin. apply Z.eqb_neq. now intros ->. }
  rewrite !E by (simpl; auto 20).
  cbn [orb]. rewrite (E 0) by (simpl; auto 20). reflexivity.
Qed.

Lemma unbound_key_ignored_witness :
  ~ In 120 bound_keys /\
  event_loop sample_driver (fun _ => Some dirty_match) (map code (bytes "vi"))
    ([106] ++ 120 :: [ENTER; 113]) 0%nat [] =
  event_loop sample_driver (fun _ => Some dirty_match) (map code (bytes "vi"))
    ([106] ++ [ENTER; 113]) 0%nat [].
Proof.
  assert (U : ~ In 120 bound_keys)
    by (intros H; cbv in H; intuition discriminate).
  split; [exact U|].
  exact (unbound_key_ignored sample_driver (fun _ => Some dirty_match)
           (map code (bytes "vi")) [106] 120 [ENTER; 113] 0%nat [] U).
Defined.

Lemma on_key_trace {menu : Type} (menu_driver : menu -> request -> menu)
  (current_entry : menu -> option match_) (editor : list Z)
  key mn tr c mn' tr' :
  on_key menu_driver current_entry editor key mn tr = Some (c, mn', tr') ->
  tr' = tr \/
  (key = ENTER /\ c = ENTER /\ mn' = mn /\
   exists r, current_entry mn = Some r /\
             tr' = tr ++ session (open_match editor r)).
Proof.
  unfold on_key.
  repeat (match goal with
          | |- context [if ?b then _ else _] => destruct b eqn:?
          end; try (intros [= <- <- <-]; now left)).
  destruct (current_entry mn) as [r|] eqn:E; [|discriminate].
  intros [= <- <- <-]. right. split; [lia|]. split; [lia|].
  split; [reflexivity|].
  now exists r.
Qed.

Lemma event_loop_trace {menu : Type} (menu_driver : menu -> request -> menu)
  (current_entry : menu -> option match_) (editor : list Z)
  keys mn tr :
  exists entries,
    snd (event_loop menu_driver current_entry editor keys mn tr) =
      tr ++ flat_map (fun r => session (open_match editor r)) entries ++
      closing (fst (fst (event_loop menu_driver current_entry editor keys mn tr)))
    /\ Forall (fun r => exists mn', current_entry mn' = Some r) entries
    /\ (length entries <= length (List.filter (fun k => (k =? ENTER)%Z) keys))%nat.
Proof.
  revert mn tr. induction keys as [|key keys IH]; intros mn tr.
  - exists []. cbn. rewrite app_nil_r.
    split; [reflexivity|]. split; [constructor | lia].
  - cbn [event_loop].
    destruct (on_key _ _ _ key mn tr) as [[[c mn'] tr']|] eqn:E.
    + apply on_key_trace in E as [-> | (-> & -> & -> & r & Hr & ->)].
      * destruct (c =? 0).
        -- exists []. cbn. split; [reflexivity|]. split; [constructor | lia].
        -- destruct (IH mn' tr) as (entries & H & P & L). exists entries.
           split; [exact H|]. split; [exact P|].
           cbn [List.filter]. destruct (key =? ENTER); cbn [length]; lia.
      * change (ENTER =? 0) with false. cbv iota. cbn [List.filter].
        change (ENTER =? ENTER) with true. cbn [length].
        destruct (IH mn (tr ++ session (open_match editor r)))
          as (entries & H & P & L).
        exists (r :: entries). split; [|split; [|cbn [length]; lia]].
        -- rewrite H. cbn [flat_map]. now rewrite <- !app_assoc.
        -- constructor; [now exists mn | exact P].
    + exists []. cbn. split; [reflexivity|]. split; [constructor | lia].
Qed.

(** X15: whatever the keys, what [event_loop] does to the terminal is a
    sequence of editor sessions, each of them [endwin], one [system] call
    with the command of [open_match] for a record the menu gave as its
    current entry, [refresh] and [pos_menu_cursor], followed by the cleanup
    of its ending; there are at most as many sessions as [ENTER] keys, and
    no other command is ever run. *)
Theorem editor_sessions_bracketed {menu : Type} (menu_driver : menu -> request -> menu)
  (current_entry : menu -> option match_) (editor : list Z)
  keys mn :
  exists entries,
    snd (event_loop menu_driver current_entry editor keys mn []) =
      flat_map (fun r => session (open_match editor r)) entries ++
      closing (fst (fst (event_loop menu_driver current_entry editor keys mn [])))
    /\ Forall (fun r => exists mn', current_entry mn' = Some r) entries
    /\ (length entries <= length (List.filter (fun k => (k =? ENTER)%Z) keys))%nat.
Proof.
  destruct (event_loop_trace menu_driver current_entry editor keys mn [])
    as (entries & Htrace & Hentries & Hlen).
  exists entries. split; [exact Htrace|]. split; [exact Hentries | exact Hlen].
Qed.

(** ** build_menu *)

Lemma length_parsed_lines lines :
  all_lines lines = true -> length (omap parsed_text lines) = successes lines.
Proof.
  unfold all_lines. induction lines as [|l lines IH]; [reflexivity|].
  cbn [forallb successes]. intros [Hl Hls]%andb_prop.
  rewrite omap_cons_eq. unfold parsed_text at 1.
  destruct (fields l) as [[[f n] d]|] eqn:E.
  - destruct (fields_some _ _ _ _ Hl E) as (_ & _ & _ & _ & H2).
    apply Nat.leb_le in H2. rewrite H2. cbn [length]. now rewrite IH.
  - apply fields_none in E.
    destruct (Nat.leb_spec 2 (separators l)); [lia|]. now rewrite IH.
Qed.

Lemma make_items_from_some rs : forall i,
  Forall (fun r => Forall (fun c => isprint c = true) (cstr (filepath r)) /\
                   Forall (fun c => isprint c = true) (cstr (description r))) rs ->
  exists items rs',
    make_items_from i rs = Some (items, rs') /\
    map (fun it => (item_userptr it, item_description it)) items =
      imap (fun k t => (Some (i + k)%nat, snd t)) (map text_of rs) /\
    Forall2 (fun r' r => forall editor,
               open_match editor r' = command editor (text_of r)) rs' rs.
Proof.
  induction rs as [|r rs IH]; intros i H.
  - exists [], []. repeat split. constructor.
  - apply Forall_cons in H as [[Hf Hd] H].
    destruct (command_of_text [] r i Hf Hd) as (it & r' & Hm & Hu & Hde & _).
    destruct (IH (S i) H) as (items & rs' & Hms & Hmap & Hall).
    exists (it :: items), (r' :: rs'). cbn [make_items_from].
    rewrite Hm, Hms. split; [reflexivity|]. split.
    + cbn [map imap]. rewrite Hu, Hde, Hmap, Nat.add_0_r. f_equal.
      apply imap_ext. intros; cbn; do 2 f_equal; lia.
    + constructor; [|exact Hall]. intros editor.
      destruct (command_of_text editor r i Hf Hd) as (it2 & r2 & Hm2 & _ & _ & Hc).
      rewrite Hm in Hm2. now injection Hm2 as <- <-.
Qed.

Lemma records_of_stream stack garbage lines last :
  length stack = LINE_NUM_BUF_LEN -> sized garbage ->
  all_lines lines = true -> no_newline last = true ->
  exists s,
    parse_all stack garbage (stream_of lines last) = Some s /\
    matchc s = successes lines /\
    map text_of (records s) = omap parsed_text lines.
Proof.
  intros Hst Hg Hl Hlast.
  destruct (parse_all_count stack garbage lines last Hl Hlast) as (s & Hs & Hc).
  exists s. split; [exact Hs|]. split; [exact Hc|].
  rewrite parse_all_stream in Hs by assumption. cbv zeta in Hs.
  injection Hs as <-. rewrite records_put_slot.
  now destruct (after_lines_ok stack garbage lines (init_matchv garbage) Hst Hg Hl
                  (init_matchv_ok garbage Hg)) as [_ ->].
Qed.

Lemma records_printable rs lines :
  map text_of rs = omap parsed_text lines ->
  Forall (fun r => Forall (fun c => isprint c = true) (cstr (filepath r)) /\
                   Forall (fun c => isprint c = true) (cstr (description r))) rs.
Proof.
  intros H. apply Forall_forall. intros r Hr.
  assert (Ht : text_of r ∈ omap parsed_text lines)
    by (rewrite <- H; now apply list_elem_of_fmap_2).
  apply list_elem_of_omap in Ht as (l & _ & Hl).
  unfold text_of in Hl. now apply parsed_text_isprint in Hl.
Qed.

(** X16: when the stream holds at least one line with two separators,
    [build_menu] does not call [wait] and builds the menu: one item per such
    line, in the order of the stream, the item of rank [i] pointing to the
    record of index [i] and described by the sanitized third field of its
    line; no call of [new_item] fails. *)
Theorem items_follow_lines stack garbage lines last waited :
  length stack = LINE_NUM_BUF_LEN -> sized garbage ->
  all_lines lines = true -> no_newline last = true ->
  successes lines <> O ->
  exists s items rs,
    build_menu stack garbage (stream_of lines last) waited = Some (Menu s) /\
    matchc s = successes lines /\
    make_items (records s) = Some (items, rs) /\
    map (fun it => (item_userptr it, item_description it)) items =
      imap (fun i t => (Some i, snd t)) (omap parsed_text lines).
Proof.
  intros Hst Hg Hl Hlast Hn.
  destruct (records_of_stream stack garbage lines last Hst Hg Hl Hlast)
    as (s & Hs & Hc & Ht).
  destruct (make_items_from_some (records s) 0 (records_printable _ _ Ht))
    as (items & rs & Hm & Hmap & _).
  exists s, items, rs. unfold build_menu. rewrite Hs.
  destruct (Nat.eqb_spec (matchc s) 0) as [E|_]; [congruence|].
  split; [reflexivity|]. split; [exact Hc|]. split; [exact Hm|].
  now rewrite Hmap, Ht.
Qed.

Lemma items_follow_lines_witness :
  length dirty_stack = LINE_NUM_BUF_LEN /\ sized dirty_match /\
  all_lines [bytes "/a/b.c:10:hello"; bytes "garbage"; bytes "c:2:d"] = true /\
  no_newline [] = true /\
  successes [bytes "/a/b.c:10:hello"; bytes "garbage"; bytes "c:2:d"] <> O /\
  exists s items rs,
    build_menu dirty_stack dirty_match
      (stream_of [bytes "/a/b.c:10:hello"; bytes "garbage"; bytes "c:2:d"] [])
      None = Some (Menu s) /\
    matchc s =
      successes [bytes "/a/b.c:10:hello"; bytes "garbage"; bytes "c:2:d"] /\
    make_items (records s) = Some (items, rs) /\
    map (fun it => (item_userptr it, item_description it)) items =
      imap (fun i t => (Some i, snd t))
           (omap parsed_text
              [bytes "/a/b.c:10:hello"; bytes "garbage"; bytes "c:2:d"]).
Proof.
  assert (N : successes [bytes "/a/b.c:10:hello"; bytes "garbage"; bytes "c:2:d"]
              <> O) by discriminate.
  split; [reflexivity|]. split; [split; reflexivity|].
  split; [reflexivity|]. split; [reflexivity|]. split; [exact N|].
  exact (items_follow_lines dirty_stack dirty_match
           [bytes "/a/b.c:10:hello"; bytes "garbage"; bytes "c:2:d"] [] None
           eq_refl (conj eq_refl eq_refl) eq_refl eq_refl N).
Defined.

(** X17: when no line of the stream yields a record and [wait] fails,
    [build_menu] reports that the exit status of the child cannot be read
    and leaves the program with [EXIT_FAILURE]. *)
Theorem wait_failure_exit stack garbage lines last :
  all_lines lines = true -> no_newline last = true ->
  successes lines = O ->
  build_menu stack garbage (stream_of lines last) None =
  Some (Exit EXIT_FAILURE [WaitFailed]).
Proof.
  intros Hl Hlast Hz.
  destruct (parse_all_count stack garbage lines last Hl Hlast) as (s & Hs & Hc).
  unfold build_menu. now rewrite Hs, Hc, Hz.
Qed.

Lemma wait_failure_exit_witness :
  all_lines [bytes "garbage"] = true /\ no_newline (bytes "a:1:b") = true /\
  successes [bytes "garbage"] = O /\
  build_menu dirty_stack dirty_match
    (stream_of [bytes "garbage"] (bytes "a:1:b")) None =
  Some (Exit EXIT_FAILURE [WaitFailed]).
Proof.
  split; [reflexivity|]. split; [reflexivity|]. split; [reflexivity|].
  exact (wait_failure_exit dirty_stack dirty_match [bytes "garbage"]
           (bytes "a:1:b") eq_refl eq_refl eq_refl).
Defined.

(** ** main *)

Lemma sessions_texts editor (P : list Z * Z * list Z -> Prop) entries :
  Forall (fun r => exists t, P t /\ open_match editor r = command editor t)
         entries ->
  exists texts,
    length texts = length entries /\ Forall P texts /\
    flat_map (fun r => session (open_match editor r)) entries =
    flat_map (fun t => session (command editor t)) texts.
Proof.
  induction 1 as [|r entries (t & Ht & Hc) _ (texts & L & HP & E)].
  - exists []. repeat split. constructor.
  - exists (t :: texts). cbn [length flat_map]. rewrite L, Hc, E.
    repeat split. now constructor.
Qed.

Lemma entry_of_elem rs it r : entry_of rs it = Some r -> r ∈ rs.
Proof.
  unfold entry_of. destruct it as [it|]; [|discriminate].
  destruct (item_userptr it) as [i|]; [|discriminate].
  apply list_elem_of_lookup_2.
Qed.

(** X18: the whole program, started with a command to run whose output
    holds at least one line with two separators: whatever that output, the
    value of [EDITOR], the menu library and the keys, it reaches the event
    loop with a footer for the number of such lines, and everything it then
    does is a sequence of editor sessions followed by the cleanup of its
    ending.  Each session runs one command, the editor on the path (without
    trailing slashes) and the line number of a line of the output, and there
    are at most as many sessions as [ENTER] keys. *)
Theorem browse_session stack garbage {menu : Type} (new_menu : list item -> menu)
  (menu_driver : menu -> request -> menu) (current_item : menu -> option item)
  cols rows frame argv env lines last waited keys :
  (2 <= length argv)%nat ->
  length stack = LINE_NUM_BUF_LEN -> sized garbage ->
  all_lines lines = true -> no_newline last = true ->
  successes lines <> O ->
  exists e texts,
    main stack garbage new_menu menu_driver current_item cols rows frame
         argv env (stream_of lines last) waited keys =
    Some (Browsed
            (display_footer cols rows frame (Z.of_nat (successes lines))) e
            (flat_map (fun t => session (command (seteditor env) t)) texts ++
             closing e)) /\
    Forall (fun t => In t (omap parsed_text lines)) texts /\
    (length texts <= length (List.filter (fun k => (k =? ENTER)%Z) keys))%nat.
Proof.
  intros Hargv Hst Hg Hl Hlast Hn.
  destruct (records_of_stream stack garbage lines last Hst Hg Hl Hlast)
    as (s & Hs & Hc & Ht).
  destruct (make_items_from_some (records s) 0 (records_printable _ _ Ht))
    as (items & rs & Hm & _ & Hall).
  unfold main. destruct (Nat.ltb_spec (length argv) 2) as [?|_]; [lia|].
  unfold build_menu. rewrite Hs.
  destruct (Nat.eqb_spec (matchc s) 0) as [E|_]; [congruence|].
  unfold make_items. rewrite Hm, Hc.
  destruct (event_loop_trace menu_driver
              (fun mn => entry_of rs (current_item mn)) (seteditor env)
              keys (new_menu items) []) as (entries & Htr & Hp & Hlen).
  destruct (event_loop _ _ _ keys (new_menu items) []) as [[e mn'] trace].
  cbn [fst snd app] in Htr. subst trace.
  destruct (sessions_texts (seteditor env)
              (fun t => In t (omap parsed_text lines)) entries)
    as (texts & L & HP & E).
  { apply Forall_forall. intros r Hr.
    rewrite Forall_forall in Hp. destruct (Hp r Hr) as [mn Hmn].
    apply entry_of_elem in Hmn.
    apply list_elem_of_lookup in Hmn as [i Hi].
    destruct (Forall2_lookup_l _ _ _ _ _ Hall Hi) as (r0 & Hr0 & Hcmd).
    exists (text_of r0). split; [|apply Hcmd].
    rewrite <- Ht. apply list_elem_of_In, list_elem_of_fmap_2.
    now apply list_elem_of_lookup_2 in Hr0. }
  exists e, texts. rewrite E. split; [reflexivity|]. split; [exact HP | lia].
Qed.

Lemma browse_session_witness :
  (2 <= length [map code (bytes "browse"); map code (bytes "grep")])%nat /\
  length dirty_stack = LINE_NUM_BUF_LEN /\ sized dirty_match /\
  all_lines [bytes "/a/b.c:10:hello"; bytes "garbage"] = true /\
  no_newline [] = true /\
  successes [bytes "/a/b.c:10:hello"; bytes "garbage"] <> O /\
  exists e texts,
    main dirty_stack dirty_match (fun _ => O) sample_driver
         (fun _ => Some (Item [120] [] (Some O))) 80 24 (replicate 81 88)
         [map code (bytes "browse"); map code (bytes "grep")] None
         (stream_of [bytes "/a/b.c:10:hello"; bytes "garbage"] []) None
         [106; ENTER; 113] =
    Some (Browsed
            (display_footer 80 24 (replicate 81 88)
               (Z.of_nat (successes [bytes "/a/b.c:10:hello"; bytes "garbage"])))
            e
            (flat_map (fun t => session (command (seteditor None) t)) texts ++
             closing e)) /\
    Forall (fun t => In t (omap parsed_text
                             [bytes "/a/b.c:10:hello"; bytes "garbage"])) texts /\
    (length texts <=
     length (List.filter (fun k => (k =? ENTER)%Z) [106; ENTER; 113]%Z))%nat.
Proof.
  assert (A : (2 <= length [map code (bytes "browse"); map code (bytes "grep")])%nat)
    by (apply Nat.leb_le; reflexivity).
  assert (N : successes [bytes "/a/b.c:10:hello"; bytes "garbage"] <> O)
    by discriminate.
  split; [exact A|]. split; [reflexivity|]. split; [split; reflexivity|].
  split; [reflexivity|]. split; [reflexivity|]. split; [exact N|].
  exact (browse_session dirty_stack dirty_match (fun _ => O) sample_driver
           (fun _ => Some (Item [120] [] (Some O))) 80 24 (replicate 81 88)
           [map code (bytes "browse"); map code (bytes "grep")] None
           [bytes "/a/b.c:10:hello"; bytes "garbage"] [] None [106; ENTER; 113]
           A eq_refl (conj eq_refl eq_refl) eq_refl eq_refl N).
Defined.

Lemma event_loop_no_enter {menu : Type} (menu_driver : menu -> request -> menu)
  (current_entry : menu -> option match_) (editor : list Z) keys : forall mn tr,
  ~ In ENTER keys ->
  exists mn',
    event_loop menu_driver current_entry editor keys mn tr = (Blocked, mn', tr) \/
    event_loop menu_driver current_entry editor keys mn tr =
      (Finished, mn', tr ++ [CleanupCurses]).
Proof.
  induction keys as [|key keys IH]; intros mn tr Hk.
  - exists mn. now left.
  - cbn [event_loop].
    assert (Hkey : (key =? ENTER) = false)
      by (apply Z.eqb_neq; intros ->; apply Hk; now left).
    assert (Hkeys : ~ In ENTER keys) by (intros H; apply Hk; now right).
    destruct (on_key _ _ _ key mn tr) as [[[c mn1] tr1]|] eqn:E.
    + apply on_key_trace in E as [-> | (-> & _)]; [|discriminate].
      destruct (c =? 0); [exists mn1; now right | now apply IH].
    + unfold on_key in E. rewrite Hkey in E.
      repeat (match type of E with
              | context [if ?b then _ else _] => destruct b
              end; try discriminate).
Qed.

(** X19: the whole program again, when the user leaves (the key [q], the
    escape key or a key code 0) without having pressed [ENTER]: no command
    is run, the only thing the loop does to the terminal is the final
    cleanup, and the exit status is 0; the keys after the quit key are not
    read. *)
Theorem quiet_session stack garbage {menu : Type} (new_menu : list item -> menu)
  (menu_driver : menu -> request -> menu) (current_item : menu -> option item)
  cols rows frame argv env lines last waited pre c rest :
  (2 <= length argv)%nat ->
  length stack = LINE_NUM_BUF_LEN -> sized garbage ->
  all_lines lines = true -> no_newline last = true ->
  successes lines <> O ->
  ~ In ENTER pre -> c = 113 \/ c = ESCAPE \/ c = 0 ->
  exists r,
    main stack garbage new_menu menu_driver current_item cols rows frame
         argv env (stream_of lines last) waited (pre ++ c :: rest) = Some r /\
    r = Browsed (display_footer cols rows frame (Z.of_nat (successes lines)))
                Finished [CleanupCurses] /\
    exit_status r = Some 0.
Proof.
  intros Hargv Hst Hg Hl Hlast Hn Hpre Hc.
  destruct (records_of_stream stack garbage lines last Hst Hg Hl Hlast)
    as (s & Hs & Hcount & Ht).
  destruct (make_items_from_some (records s) 0 (records_printable _ _ Ht))
    as (items & rs & Hm & _ & _).
  unfold main. destruct (Nat.ltb_spec (length argv) 2) as [?|_]; [lia|].
  unfold build_menu. rewrite Hs.
  destruct (Nat.eqb_spec (matchc s) 0) as [E|_]; [congruence|].
  unfold make_items. rewrite Hm, Hcount, event_loop_app.
  destruct (event_loop_no_enter menu_driver
              (fun mn => entry_of rs (current_item mn)) (seteditor env)
              pre (new_menu items) [] Hpre) as [mn' [-> | ->]].
  - eexists. split; [|split; reflexivity].
    destruct Hc as [-> | [-> | ->]]; reflexivity.
  - eexists. split; [reflexivity|]. split; reflexivity.
Qed.

Lemma quiet_session_witness :
  (2 <= length [map code (bytes "browse"); map code (bytes "grep")])%nat /\
  length dirty_stack = LINE_NUM_BUF_LEN /\ sized dirty_match /\
  all_lines [bytes "/a/b.c:10:hello"; bytes "garbage"] = true /\
  no_newline [] = true /\
  successes [bytes "/a/b.c:10:hello"; bytes "garbage"] <> O /\
  ~ In ENTER [106; 107] /\ (113 = 113 \/ 113 = ESCAPE \/ 113 = 0) /\
  exists r,
    main dirty_stack dirty_match (fun _ => O) sample_driver
         (fun _ => Some (Item [120] [] (Some O))) 80 24 (replicate 81 88)
         [map code (bytes "browse"); map code (bytes "grep")] None
         (stream_of [bytes "/a/b.c:10:hello"; bytes "garbage"] []) None
         ([106; 107] ++ 113 :: [ENTER]) = Some r /\
    r = Browsed
          (display_footer 80 24 (replicate 81 88)
             (Z.of_nat (successes [bytes "/a/b.c:10:hello"; bytes "garbage"])))
          Finished [CleanupCurses] /\
    exit_status r = Some 0.
Proof.
  assert (A : (2 <= length [map code (bytes "browse"); map code (bytes "grep")])%nat)
    by (apply Nat.leb_le; reflexivity).
  assert (N : successes [bytes "/a/b.c:10:hello"; bytes "garbage"] <> O)
    by discriminate.
  assert (E : ~ In ENTER [106; 107])
    by (intros H; cbv in H; intuition discriminate).
  assert (Q : 113 = 113 \/ 113 = ESCAPE \/ 113 = 0) by (left; reflexivity).
  split; [exact A|]. split; [reflexivity|]. split; [split; reflexivity|].
  split; [reflexivity|]. split; [reflexivity|]. split; [exact N|].
  split; [exact E|]. split; [exact Q|].
  exact (quiet_session dirty_stack dirty_match (fun _ => O) sample_driver
           (fun _ => Some (Item [120] [] (Some O))) 80 24 (replicate 81 88)
           [map code (bytes "browse"); map code (bytes "grep")] None
           [bytes "/a/b.c:10:hello"; bytes "garbage"] [] None [106; 107] 113
           [ENTER] A eq_refl (conj eq_refl eq_refl) eq_refl eq_refl N E Q).
Defined.

Lemma on_key_none {menu : Type} (menu_driver : menu -> request -> menu)
  (current_entry : menu -> option match_) (editor : list Z) key mn tr :
  on_key menu_driver current_entry editor key mn tr = None ->
  current_entry mn = None.
Proof.
  unfold on_key.
  repeat (match goal with
          | |- context [if ?b then _ else _] => destruct b
          end; try discriminate).
  now destruct (current_entry mn).
Qed.

Lemma event_loop_never_fails {menu : Type} (menu_driver : menu -> request -> menu)
  (current_entry : menu -> option match_) (editor : list Z) keys : forall mn tr,
  (forall mn', current_entry mn' <> None) ->
  fst (fst (event_loop menu_driver current_entry editor keys mn tr)) <> Failure.
Proof.
  induction keys as [|key keys IH]; intros mn tr H; [discriminate|].
  cbn [event_loop].
  destruct (on_key _ _ _ key mn tr) as [[[c mn1] tr1]|] eqn:E.
  - destruct (c =? 0); [discriminate | now apply IH].
  - apply on_key_none in E. now apply H in E.
Qed.

(** X20: the exit of [event_loop] on an entry without record is never
    taken: as long as the menu library gives as current item an item whose
    user pointer is the index of a record, which is what [build_menu] sets
    for every item, the program neither reports an internal error nor
    leaves the loop through that exit, whatever the keys. *)
Theorem internal_error_unreachable stack garbage {menu : Type}
  (new_menu : list item -> menu) (menu_driver : menu -> request -> menu)
  (current_item : menu -> option item)
  cols rows frame argv env lines last waited keys :
  (2 <= length argv)%nat ->
  length stack = LINE_NUM_BUF_LEN -> sized garbage ->
  all_lines lines = true -> no_newline last = true ->
  successes lines <> O ->
  (forall mn, exists it i,
     current_item mn = Some it /\ item_userptr it = Some i /\
     (i < successes lines)%nat) ->
  exists footer e trace,
    main stack garbage new_menu menu_driver current_item cols rows frame
         argv env (stream_of lines last) waited keys =
    Some (Browsed footer e trace) /\
    e <> Failure /\ ~ In InternalError trace.
Proof.
  intros Hargv Hst Hg Hl Hlast Hn Hcur.
  destruct (records_of_stream stack garbage lines last Hst Hg Hl Hlast)
    as (s & Hs & Hc & Ht).
  destruct (make_items_from_some (records s) 0 (records_printable _ _ Ht))
    as (items & rs & Hm & _ & Hall).
  assert (Hlen : length rs = successes lines).
  { rewrite (Forall2_length _ _ _ Hall), <- (length_parsed_lines lines Hl), <- Ht.
    now rewrite length_map. }
  unfold main. destruct (Nat.ltb_spec (length argv) 2) as [?|_]; [lia|].
  unfold build_menu. rewrite Hs.
  destruct (Nat.eqb_spec (matchc s) 0) as [E|_]; [congruence|].
  unfold make_items. rewrite Hm.
  assert (Hentry : forall mn, entry_of rs (current_item mn) <> None).
  { intros mn. destruct (Hcur mn) as (it & i & -> & Hi & Hlt).
    unfold entry_of. rewrite Hi. rewrite <- Hlen in Hlt.
    apply lookup_lt_is_Some_2 in Hlt as [r ->]. discriminate. }
  pose proof (event_loop_never_fails menu_driver
                (fun mn => entry_of rs (current_item mn)) (seteditor env)
                keys (new_menu items) [] Hentry) as Hok.
  destruct (event_loop_trace menu_driver
              (fun mn => entry_of rs (current_item mn)) (seteditor env)
              keys (new_menu items) []) as (entries & Htr & _ & _).
  destruct (event_loop _ _ _ keys (new_menu items) []) as [[e mn'] trace].
  cbn [fst snd app] in *. do 3 eexists. split; [reflexivity|].
  split; [exact Hok|]. subst trace. intros Hin.
  apply in_app_or in Hin as [Hin | Hin].
  - apply in_flat_map in Hin as (r & _ & Hr). cbn in Hr.
    intuition discriminate.
  - destruct e; cbn in Hin; [intuition discriminate | now apply Hok | exact Hin].
Qed.

Lemma internal_error_unreachable_witness :
  (2 <= length [map code (bytes "browse"); map code (bytes "grep")])%nat /\
  length dirty_stack = LINE_NUM_BUF_LEN /\ sized dirty_match /\
  all_lines [bytes "/a/b.c:10:hello"; bytes "garbage"] = true /\
  no_newline [] = true /\
  successes [bytes "/a/b.c:10:hello"; bytes "garbage"] <> O /\
  (forall mn : nat, exists it i,
     Some (Item [120] [] (Some O)) = Some it /\ item_userptr it = Some i /\
     (i < successes [bytes "/a/b.c:10:hello"; bytes "garbage"])%nat) /\
  exists footer e trace,
    main dirty_stack dirty_match (fun _ => O) sample_driver
         (fun _ => Some (Item [120] [] (Some O))) 80 24 (replicate 81 88)
         [map code (bytes "browse"); map code (bytes "grep")] None
         (stream_of [bytes "/a/b.c:10:hello"; bytes "garbage"] []) None
         [106; ENTER; ENTER] =
    Some (Browsed footer e trace) /\
    e <> Failure /\ ~ In InternalError trace.
Proof.
  assert (A : (2 <= length [map code (bytes "browse"); map code (bytes "grep")])%nat)
    by (apply Nat.leb_le; reflexivity).
  assert (N : successes [bytes "/a/b.c:10:hello"; bytes "garbage"] <> O)
    by discriminate.
  assert (C : forall mn : nat, exists it i,
            Some (Item [120] [] (Some O)) = Some it /\
            item_userptr it = Some i /\
            (i < successes [bytes "/a/b.c:10:hello"; bytes "garbage"])%nat).
  { intros mn. exists (Item [120] [] (Some O)), O.
    split; [reflexivity|]. split; [reflexivity|].
    apply Nat.ltb_lt. reflexivity. }
  split; [exact A|]. split; [reflexivity|]. split; [split; reflexivity|].
  split; [reflexivity|]. split; [reflexivity|]. split; [exact N|].
  split; [exact C|].
  exact (internal_error_unreachable dirty_stack dirty_match (fun _ => O)
           sample_driver (fun _ => Some (Item [120] [] (Some O))) 80 24
           (replicate 81 88)
           [map code (bytes "browse"); map code (bytes "grep")] None
           [bytes "/a/b.c:10:hello"; bytes "garbage"] [] None
           [106; ENTER; ENTER]
           A eq_refl (conj eq_refl eq_refl) eq_refl eq_refl N C).
Defined.
